(** * Contacts REST API: the ownership-scoped contact accessor

    A shallow embedding of [app/crud/contact.py] together with the pieces of
    [app/utils/auth.py] and [app/schemas/contact.py] it relies on, and the
    properties of the accessor layer: owner isolation, the birthday window,
    partial update, deletion, search and pagination.

    Conventions.
    - Python [int] is [Z]; [Optional[T]] is [option T]. A [str] that the
      code looks into, a text column of a contact or the search text, is
      [text], the list of its code points; tokens, claim keys, messages
      and the user columns, which the code compares as wholes or passes
      on, are [string].
    - A function that may raise returns a [result]; functions that touch the
      database session thread it explicitly (the [M] monad below).
    - The JWT library, the password hasher and the mailer are collaborators
      and section variables. The relational store is modelled as a table of
      rows kept in insertion order; what differs from one database backend
      to the next is a [Dialect] that the session carries. *)

From Stdlib Require Import ZArith List String Ascii Bool Lia.
From stdpp Require Import gmap strings.
Import ListNotations.

Local Open Scope string_scope.
Local Open Scope list_scope.
Local Open Scope Z_scope.

(** ** Calendar dates ([datetime.date]) *)

Module Date.

Record date := mkDate { year : Z; month : Z; day : Z }.

Definition MINYEAR : Z := 1.
Definition MAXYEAR : Z := 9999.
Definition MAXORDINAL : Z := 3652059.

(** [year % 4 == 0 and (year % 100 != 0 or year % 400 == 0)] *)
Definition is_leap (y : Z) : bool :=
  (y mod 4 =? 0) && (negb (y mod 100 =? 0) || (y mod 400 =? 0)).

(** The table [_DAYS_IN_MONTH], indexed from 1. *)
Definition DAYS_IN_MONTH (m : Z) : Z :=
  match m with
  | 1 => 31 | 2 => 28 | 3 => 31 | 4 => 30 | 5 => 31 | 6 => 30
  | 7 => 31 | 8 => 31 | 9 => 30 | 10 => 31 | 11 => 30 | 12 => 31
  | _ => 0
  end.

(** The table [_DAYS_BEFORE_MONTH]: days before the first of month [m] in a
    common year. *)
Definition DAYS_BEFORE_MONTH (m : Z) : Z :=
  match m with
  | 1 => 0 | 2 => 31 | 3 => 59 | 4 => 90 | 5 => 120 | 6 => 151
  | 7 => 181 | 8 => 212 | 9 => 243 | 10 => 273 | 11 => 304 | 12 => 334
  | _ => 0
  end.

Definition days_in_month (y m : Z) : Z :=
  if (m =? 2) && is_leap y then 29 else DAYS_IN_MONTH m.

Definition days_before_year (y : Z) : Z :=
  let y' := y - 1 in y' * 365 + y' / 4 - y' / 100 + y' / 400.

Definition days_before_month (y m : Z) : Z :=
  DAYS_BEFORE_MONTH m + (if (2 <? m) && is_leap y then 1 else 0).

(** The check done by the [date] constructor ([_check_date_fields]). *)
Definition valid_ymd (y m d : Z) : bool :=
  (MINYEAR <=? y) && (y <=? MAXYEAR) &&
  (1 <=? m) && (m <=? 12) &&
  (1 <=? d) && (d <=? days_in_month y m).

Definition valid (x : date) : bool := valid_ymd (year x) (month x) (day x).

Definition ymd2ord (y m d : Z) : Z :=
  days_before_year y + days_before_month y m + d.

Definition toordinal (x : date) : Z := ymd2ord (year x) (month x) (day x).

Definition DI400Y : Z := 146097.
Definition DI100Y : Z := 36524.
Definition DI4Y : Z := 1461.

(** [_ord2ymd]: the date with proleptic Gregorian ordinal [n]. *)
Definition ord2ymd (n : Z) : date :=
  let n := n - 1 in
  let n400 := n / DI400Y in
  let n := n mod DI400Y in
  let y := n400 * 400 + 1 in
  let n100 := n / DI100Y in
  let n := n mod DI100Y in
  let n4 := n / DI4Y in
  let n := n mod DI4Y in
  let n1 := n / 365 in
  let n := n mod 365 in
  let y := y + n100 * 100 + n4 * 4 + n1 in
  if (n1 =? 4) || (n100 =? 4) then mkDate (y - 1) 12 31
  else
    let leapyear := (n1 =? 3) && (negb (n4 =? 24) || (n100 =? 3)) in
    let m := Z.shiftr (n + 50) 5 in
    let preceding :=
      DAYS_BEFORE_MONTH m + (if (2 <? m) && leapyear then 1 else 0) in
    if n <? preceding then
      let m' := m - 1 in
      let preceding' :=
        preceding
        - (DAYS_IN_MONTH m' + (if (m' =? 2) && leapyear then 1 else 0)) in
      mkDate y m' (n - preceding' + 1)
    else mkDate y m (n - preceding + 1).

(** Ordering of dates compares [(year, month, day)] lexicographically. *)
Definition ltb (a b : date) : bool :=
  (year a <? year b)
  || ((year a =? year b)
      && ((month a <? month b)
          || ((month a =? month b) && (day a <? day b)))).

Definition eqb (a b : date) : bool :=
  (year a =? year b) && (month a =? month b) && (day a =? day b).

Definition leb (a b : date) : bool := ltb a b || eqb a b.

End Date.

Export Date.

(** ** Exceptions and results *)

(** The exceptions met below; [DBAPIError] is SQLAlchemy's wrapper of an
    error raised by the database driver. *)
Inductive exn :=
| HTTPException (status_code : Z) (detail : string)
| ValueError
| OverflowError
| DBAPIError.

Inductive result (A : Type) :=
| Ok (a : A)
| Raise (e : exn).

Arguments Ok {A} a.
Arguments Raise {A} e.

Definition HTTP_401_UNAUTHORIZED : Z := 401.

(** [x.replace(year=y)]: the constructor re-checks the fields and raises
    [ValueError] when [(y, month, day)] is not a calendar date. *)
Definition replace_year (x : date) (y : Z) : result date :=
  if valid_ymd y (month x) (day x)
  then Ok (mkDate y (month x) (day x))
  else Raise ValueError.

(** [x + timedelta(days=n)] *)
Definition add_days (x : date) (n : Z) : result date :=
  let o := toordinal x + n in
  if (0 <? o) && (o <=? MAXORDINAL) then Ok (ord2ymd o)
  else Raise OverflowError.

(** ** Schemas and rows *)

(** A Python [str] is the sequence of its code points; [str] reads a
    literal of ASCII characters as one. *)
Abbreviation text := (list Z).

Definition str (s : string) : text :=
  map (fun a => Z.of_N (N_of_ascii a)) (list_ascii_of_string s).

(** [ContactBase] of [app/schemas/contact.py]; [ContactCreate] adds
    nothing to it. *)
Record ContactBase := mkContactBase {
  b_first_name : text;
  b_last_name : text;
  b_email : text;
  b_phone : text;
  b_birthday : date;
  b_extra : option text;
  b_user_id : option Z
}.

Definition ContactCreate := ContactBase.

(** Modelled from the spec: the ORM class of [app/models/contact.py] is
    not among the sources. A row of the contacts table has the attributes
    the spec lists for a Contact, which are the columns of the output schema
    [ContactOut]: those of [ContactBase] and the primary key [id]. *)
Record Contact := mkContact {
  id : Z;
  first_name : text;
  last_name : text;
  email : text;
  phone : text;
  birthday : date;
  extra : option text;
  user_id : option Z
}.

(** What [model_dump()] yields once ["user_id"] has been popped. *)
Record ContactData := mkContactData {
  d_first_name : text;
  d_last_name : text;
  d_email : text;
  d_phone : text;
  d_birthday : date;
  d_extra : option text
}.

(** One [key, value] item of a dumped model. *)
Inductive field :=
| F_first_name (v : text)
| F_last_name (v : text)
| F_email (v : text)
| F_phone (v : text)
| F_birthday (v : date)
| F_extra (v : option text)
| F_user_id (v : option Z).

(** A [ContactUpdate] instance, seen through its set of explicitly given
    fields: [None] is a field that was not set, [Some v] one set to [v]
    (for the two optional fields [v] may itself be Python's [None]).
    Validation of a request body insists on the five mandatory fields; the
    accessor takes whatever set of fields the instance carries. *)
Record ContactUpdate := mkContactUpdate {
  u_first_name : option text;
  u_last_name : option text;
  u_email : option text;
  u_phone : option text;
  u_birthday : option date;
  u_extra : option (option text);
  u_user_id : option (option Z)
}.

Definition item {A} (mk : A -> field) (o : option A) : list field :=
  match o with Some v => [mk v] | None => [] end.

(** [contact.model_dump(exclude_unset=True).items()], in declaration
    order. *)
Definition model_dump_exclude_unset (u : ContactUpdate) : list field :=
  item F_first_name (u_first_name u) ++ item F_last_name (u_last_name u)
  ++ item F_email (u_email u) ++ item F_phone (u_phone u)
  ++ item F_birthday (u_birthday u) ++ item F_extra (u_extra u)
  ++ item F_user_id (u_user_id u).

(** [setattr(db_contact, key, value)] *)
Definition setattr (c : Contact) (f : field) : Contact :=
  match f with
  | F_first_name v =>
      mkContact (id c) v (last_name c) (email c) (phone c) (birthday c)
        (extra c) (user_id c)
  | F_last_name v =>
      mkContact (id c) (first_name c) v (email c) (phone c) (birthday c)
        (extra c) (user_id c)
  | F_email v =>
      mkContact (id c) (first_name c) (last_name c) v (phone c) (birthday c)
        (extra c) (user_id c)
  | F_phone v =>
      mkContact (id c) (first_name c) (last_name c) (email c) v (birthday c)
        (extra c) (user_id c)
  | F_birthday v =>
      mkContact (id c) (first_name c) (last_name c) (email c) (phone c) v
        (extra c) (user_id c)
  | F_extra v =>
      mkContact (id c) (first_name c) (last_name c) (email c) (phone c)
        (birthday c) v (user_id c)
  | F_user_id v =>
      mkContact (id c) (first_name c) (last_name c) (email c) (phone c)
        (birthday c) (extra c) v
  end.

(** [contact.model_dump()] followed by [contact_data.pop("user_id", None)]:
    the caller's owner field is dropped from the data. *)
Definition model_dump_pop_user_id (c : ContactCreate) : ContactData :=
  mkContactData (b_first_name c) (b_last_name c) (b_email c) (b_phone c)
    (b_birthday c) (b_extra c).

(** The constructor call building [db_contact]: the dumped data as keyword
    arguments, then [user_id=user_id]. A transient object, every column set
    but the primary key, which the store generates. *)
Definition new_Contact (d : ContactData) (uid : option Z) : Z -> Contact :=
  fun k =>
    mkContact k (d_first_name d) (d_last_name d) (d_email d) (d_phone d)
      (d_birthday d) (d_extra d) uid.

(** ** The store's dialect *)

Abbreviation PERCENT := 37%Z.
Abbreviation UNDERSCORE := 95%Z.
Abbreviation BACKSLASH := 92%Z.

(** What the accessor leaves to the database behind the session, which
    [app/database.py] chooses and which is not among the sources:
    - [to_lower], SQL's [lower] on one character, by which [ilike]
      disregards case. Which letters it folds is the backend's business
      (SQLite folds [A]-[Z] only, PostgreSQL follows the locale); the
      percent sign, the underscore and the backslash are no letters, so it
      leaves them alone and maps nothing else onto them;
    - [backslash_escapes], whether LIKE has the backslash as its escape
      character when the query names none, as the accessor's do not
      (PostgreSQL and MySQL: yes; SQLite: no);
    - [negative_count], what a query with a negative OFFSET or LIMIT does:
      [None] where the backend takes such a count as no count at all
      (SQLite), [Some e] where it rejects the query and [e] is raised
      (PostgreSQL, MySQL). *)
Record Dialect := mkDialect {
  to_lower : Z -> Z;
  backslash_escapes : bool;
  negative_count : option exn;
  to_lower_percent : forall c, to_lower c = PERCENT <-> c = PERCENT;
  to_lower_underscore : forall c, to_lower c = UNDERSCORE <-> c = UNDERSCORE;
  to_lower_backslash : forall c, to_lower c = BACKSLASH <-> c = BACKSLASH
}.

(** ** The database session *)

(** Calls made on the session object. *)
Inductive db_call := Query_ | Add_ | Delete_ | Commit_ | Refresh_.

(** Modelled from the spec: the session factory of [app/database.py] is not
    among the sources. The store is a relational table that keeps its rows
    in insertion order, yields them in that order to a query that asks for
    none, and generates primary keys, here from a counter; [journal]
    records the calls made on the session, oldest first, and [dialect] is
    the backend the session is bound to. *)
Record Session := mkSession {
  table : list Contact;
  next_id : Z;
  journal : list db_call;
  dialect : Dialect
}.

Definition M (A : Type) : Type := Session -> result A * Session.

Definition ret {A} (a : A) : M A := fun s => (Ok a, s).

Definition raise {A} (e : exn) : M A := fun s => (Raise e, s).

Definition bind {A B} (m : M A) (k : A -> M B) : M B :=
  fun s =>
    match m s with
    | (Ok a, s') => k a s'
    | (Raise e, s') => (Raise e, s')
    end.

Definition lift {A} (r : result A) : M A := fun s => (r, s).

Notation "'let*' x ':=' m 'in' k" := (bind m (fun x => k))
  (at level 10, x name, m at level 100, k at level 200).

Definition called (cs : list db_call) (s : Session) : Session :=
  mkSession (table s) (next_id s) (journal s ++ cs) (dialect s).

(** *** Queries *)

(** A query under construction: [db.query(Contact)] refined by [filter],
    [offset] and [limit] (the builders carry a trailing underscore). The
    builders take any integer; nothing is checked before the store runs
    the query. *)
Record Query := mkQuery {
  q_where : Contact -> bool;
  q_offset : option Z;
  q_limit : option Z
}.

Definition query : Query := mkQuery (fun _ => true) None None.

(** [q.filter(criterion)]; several criteria in one call are a conjunction. *)
Definition filter_ (p : Contact -> bool) (q : Query) : Query :=
  mkQuery (fun c => q_where q c && p c) (q_offset q) (q_limit q).

Definition offset_ (n : Z) (q : Query) : Query :=
  mkQuery (q_where q) (Some n) (q_limit q).

Definition limit_ (n : Z) (q : Query) : Query :=
  mkQuery (q_where q) (q_offset q) (Some n).

(** The number of rows an OFFSET or LIMIT clause counts; a negative
    integer, where the backend accepts it, counts nothing and the clause is
    as good as absent. *)
Definition count (n : option Z) : option nat :=
  match n with
  | Some k => if k <? 0 then None else Some (Z.to_nat k)
  | None => None
  end.

Definition negative (n : option Z) : bool :=
  match n with
  | Some k => k <? 0
  | None => false
  end.

(** The rows a query selects: the matching rows in table order, then
    OFFSET, then LIMIT. *)
Definition rows_of (q : Query) (t : list Contact) : list Contact :=
  let matching := List.filter (q_where q) t in
  let skipped :=
    match count (q_offset q) with
    | Some n => skipn n matching
    | None => matching
    end in
  match count (q_limit q) with
  | Some n => firstn n skipped
  | None => skipped
  end.

(** The store's answer to a query: the rows it selects, unless a count is
    negative and the backend rejects that. *)
Definition run (q : Query) (s : Session) : result (list Contact) :=
  if negative (q_offset q) || negative (q_limit q) then
    match negative_count (dialect s) with
    | Some e => Raise e
    | None => Ok (rows_of q (table s))
    end
  else Ok (rows_of q (table s)).

(** [q.all()] *)
Definition all (q : Query) : M (list Contact) :=
  fun s => (run q s, called [Query_] s).

(** [q.first()]: the first selected row, or [None]. *)
Definition first (q : Query) : M (option Contact) :=
  fun s =>
    (match run q s with
     | Ok rows => Ok (head rows)
     | Raise e => Raise e
     end,
     called [Query_] s).

(** [column == value] on a nullable integer column against a Python value
    that may be [None]: SQLAlchemy renders [IS NULL] for [None], and an
    ordinary comparison, which no NULL satisfies, otherwise. *)
Definition col_eq (column value : option Z) : bool :=
  match column, value with
  | Some a, Some b => a =? b
  | None, None => true
  | _, _ => false
  end.

(** *** Writes *)

(** [db.add(x); db.commit(); db.refresh(x)]: the row is appended with a
    generated primary key and read back. *)
Definition db_add_commit_refresh (x : Z -> Contact) : M Contact :=
  fun s =>
    let row := x (next_id s) in
    (Ok row,
     mkSession (table s ++ [row]) (next_id s + 1)
       (journal s ++ [Add_; Commit_; Refresh_]) (dialect s)).

(** [db.commit(); db.refresh(x)] after attributes of the persistent object
    [x] were assigned: the row with its primary key is rewritten. *)
Definition db_commit_refresh (x : Contact) : M Contact :=
  fun s =>
    (Ok x,
     mkSession (map (fun r => if id r =? id x then x else r) (table s))
       (next_id s) (journal s ++ [Commit_; Refresh_]) (dialect s)).

(** [db.delete(x); db.commit()]: the row with its primary key is removed. *)
Definition db_delete_commit (x : Contact) : M unit :=
  fun s =>
    (Ok tt,
     mkSession (List.filter (fun r => negb (id r =? id x)) (table s))
       (next_id s) (journal s ++ [Delete_; Commit_]) (dialect s)).

(** ** Pattern matching ([ilike]) *)

(** The store's pattern match, SQL's LIKE, on texts as sequences of
    characters: [%] in the pattern matches any run of characters and [_]
    any one character, every other character matches itself. The accessor
    names no escape character; where the backend has the backslash as its
    default ([esc]), a backslash in the pattern makes the character after
    it stand for itself. (A pattern that ends in an escape character is
    none the search can build: its patterns end in [%].) *)
Fixpoint like (esc : bool) (pattern s : text) {struct pattern} : bool :=
  match pattern with
  | [] => match s with [] => true | _ :: _ => false end
  | p :: pattern' =>
      if esc && (p =? BACKSLASH) then
        match pattern', s with
        | x :: pattern'', c :: s' => (x =? c) && like esc pattern'' s'
        | _, _ => false
        end
      else if p =? PERCENT then
        (fix any (s : text) : bool :=
           like esc pattern' s
           || match s with
              | [] => false
              | _ :: s' => any s'
              end) s
      else
        match s with
        | [] => false
        | c :: s' => ((p =? UNDERSCORE) || (p =? c)) && like esc pattern' s'
        end
  end.

(** SQL's [lower] on a text. *)
Definition lower (d : Dialect) (s : text) : text := map (to_lower d) s.

(** [column.ilike(pattern)]: LIKE without regard to case, which SQLAlchemy
    renders as [lower(column) LIKE lower(pattern)] or as the backend's own
    operator of that meaning. *)
Definition ilike (d : Dialect) (column pattern : text) : bool :=
  like (backslash_escapes d) (lower d pattern) (lower d column).

(** The pattern the search builds from the query text: the f-string that
    puts a percent sign on either side of it. *)
Definition search_pattern (q : text) : text := PERCENT :: q ++ [PERCENT].

Fixpoint starts_with (q s : text) : bool :=
  match q, s with
  | [], _ => true
  | c :: q', d :: s' => (c =? d) && starts_with q' s'
  | _ :: _, [] => false
  end.

(** The reading of "contains queryText as a case-insensitive substring" that
    the search is compared with: the folded query occurs in the folded
    text. *)
Fixpoint occurs_in (q s : text) : bool :=
  starts_with q s
  || match s with
     | [] => false
     | _ :: s' => occurs_in q s'
     end.

Definition contains_ci (d : Dialect) (s q : text) : bool :=
  occurs_in (lower d q) (lower d s).

Definition is_wildcard (c : Z) : bool := (c =? PERCENT) || (c =? UNDERSCORE).

Fixpoint has_wildcard (q : text) : bool :=
  match q with
  | [] => false
  | c :: q' => is_wildcard c || has_wildcard q'
  end.

(** The text holds a character that the backend's LIKE reads as an
    escape. *)
Fixpoint has_escape (esc : bool) (q : text) : bool :=
  match q with
  | [] => false
  | c :: q' => (esc && (c =? BACKSLASH)) || has_escape esc q'
  end.

(** ** Token payloads *)

Inductive claim := CInt (n : Z) | CStr (s : string).

(** The claims of a decoded token, a Python [dict]. *)
Abbreviation Payload := (gmap string claim).

(** [payload.get(key)] for a claim that is compared with an integer column.
    Tokens issued by the login route carry an integer ["user_id"]; a claim
    of another type is read as no integer at all. *)
Definition get (payload : Payload) (key : string) : option Z :=
  match payload !! key with
  | Some (CInt n) => Some n
  | _ => None
  end.

(** The test [if not payload]: [None] and the empty dict are both falsy. *)
Definition truthy (payload : option Payload) : option Payload :=
  match payload with
  | Some p => if Nat.eqb (size p) 0 then None else Some p
  | None => None
  end.

(** ** The accessor ([app/crud/contact.py]) *)

Definition invalid_token : exn :=
  HTTPException HTTP_401_UNAUTHORIZED "Invalid token".

(** One turn of the loop of [get_upcoming_birthdays]. *)
Definition birthday_step (today next_week : date)
    (upcoming : list Contact) (c : Contact) : result (list Contact) :=
  match replace_year (birthday c) (year today) with
  | Raise e => Raise e
  | Ok bday_this_year =>
      match
        (if Date.ltb bday_this_year today
         then replace_year (birthday c) (year today + 1)
         else Ok bday_this_year)
      with
      | Raise e => Raise e
      | Ok bday_this_year =>
          if Date.leb today bday_this_year && Date.leb bday_this_year next_week
          then Ok (upcoming ++ [c])%list
          else Ok upcoming
      end
  end.

(** [for c in contacts: ...], leaving the loop at the first exception. *)
Fixpoint birthday_loop (today next_week : date)
    (upcoming contacts : list Contact) : result (list Contact) :=
  match contacts with
  | [] => Ok upcoming
  | c :: rest =>
      match birthday_step today next_week upcoming c with
      | Ok upcoming' => birthday_loop today next_week upcoming' rest
      | Raise e => Raise e
      end
  end.

Section Accessor.

(** [jwt.decode(token, SECRET_KEY, algorithms=[ALGORITHM])] of the JOSE
    library: the claims of a token whose signature and expiry check out,
    [None] where the library raises [JWTError]. *)
Variable jwt_decode : string -> option Payload.

(** [app/utils/auth.py]: the [JWTError] is caught and turned into
    [None]. *)
Definition decode_access_token (token : string) : option Payload :=
  jwt_decode token.

Definition create_contact (contact : ContactCreate) (token : string)
    : M Contact :=
  match truthy (decode_access_token token) with
  | None => raise invalid_token
  | Some payload =>
      let uid := get payload "user_id" in
      let contact_data := model_dump_pop_user_id contact in
      let db_contact := new_Contact contact_data uid in
      db_add_commit_refresh db_contact
  end.

Definition get_contacts (skip limit : Z) (token : string)
    : M (list Contact) :=
  match truthy (decode_access_token token) with
  | None => raise invalid_token
  | Some payload =>
      let uid := get payload "user_id" in
      all (limit_ limit (offset_ skip
             (filter_ (fun c => col_eq (user_id c) uid) query)))
  end.

Definition get_contact (contact_id : Z) (token : string)
    : M (option Contact) :=
  match truthy (decode_access_token token) with
  | None => raise invalid_token
  | Some payload =>
      let uid := get payload "user_id" in
      first (filter_
               (fun c => (id c =? contact_id)
                         && col_eq (user_id c) uid) query)
  end.

Definition update_contact (contact_id : Z) (contact : ContactUpdate)
    (token : string) : M (option Contact) :=
  match truthy (decode_access_token token) with
  | None => raise invalid_token
  | Some payload =>
      let uid := get payload "user_id" in
      let* db_contact :=
        first (filter_
                 (fun c => (id c =? contact_id)
                           && col_eq (user_id c) uid) query) in
      match db_contact with
      | Some c =>
          let c' := fold_left setattr (model_dump_exclude_unset contact) c in
          let* refreshed := db_commit_refresh c' in
          ret (Some refreshed)
      | None => ret None
      end
  end.

Definition delete_contact (contact_id : Z) (token : string) : M bool :=
  match truthy (decode_access_token token) with
  | None => raise invalid_token
  | Some payload =>
      let uid := get payload "user_id" in
      let* db_contact :=
        first (filter_
                 (fun c => (id c =? contact_id)
                           && col_eq (user_id c) uid) query) in
      match db_contact with
      | Some c =>
          let* _ := db_delete_commit c in
          ret true
      | None => ret false
      end
  end.

(** The criteria are evaluated by the store, in the dialect of the
    session [db]. *)
Definition search_contacts (q : text) (token : string)
    : M (list Contact) :=
  match truthy (decode_access_token token) with
  | None => raise invalid_token
  | Some payload =>
      let uid := get payload "user_id" in
      let pattern := search_pattern q in
      fun db =>
        all (filter_
               (fun c => col_eq (user_id c) uid
                         && (ilike (dialect db) (first_name c) pattern
                             || ilike (dialect db) (last_name c) pattern
                             || ilike (dialect db) (email c) pattern)) query)
          db
  end.

(** [today] is the value of [date.today()] at the call. *)
Definition get_upcoming_birthdays (today : date) (token : string)
    : M (list Contact) :=
  match truthy (decode_access_token token) with
  | None => raise invalid_token
  | Some payload =>
      let uid := get payload "user_id" in
      let* next_week := lift (add_days today 7) in
      let* contacts :=
        all (filter_ (fun c => col_eq (user_id c) uid) query) in
      lift (birthday_loop today next_week [] contacts)
  end.

End Accessor.

(** ** A small world for the examples *)

Module Demo.

Definition alice_claims : Payload :=
  <["user_id" := CInt 1]> (<["email" := CStr "alice@example.com"]> ∅).

Definition bob_claims : Payload :=
  <["user_id" := CInt 2]> (<["email" := CStr "bob@example.com"]> ∅).

(** A verifier that accepts two tokens and rejects everything else. *)
Definition jwt_decode (token : string) : option Payload :=
  if String.eqb token "alice.jwt" then Some alice_claims
  else if String.eqb token "bob.jwt" then Some bob_claims
  else None.

(** [lower] as SQLite has it: the letters [A]-[Z] are folded, every other
    character is left alone. *)
Definition ascii_lower (c : Z) : Z :=
  if (65 <=? c) && (c <=? 90) then c + 32 else c.

(** SQLite: LIKE has no escape character of its own, and a negative count
    is taken as no count. *)
Definition sqlite : Dialect.
Proof.
  refine (mkDialect ascii_lower false None _ _ _); intros c;
    unfold ascii_lower;
    destruct (Z.leb_spec 65 c), (Z.leb_spec c 90); cbn; lia.
Defined.

(** A backend in the manner of PostgreSQL under the C locale: the
    backslash escapes in patterns, and a negative count is rejected. *)
Definition strict : Dialect :=
  mkDialect (to_lower sqlite) true (Some DBAPIError)
    (to_lower_percent sqlite) (to_lower_underscore sqlite)
    (to_lower_backslash sqlite).

Definition empty_db : Session := mkSession [] 1 [] sqlite.

Definition john : ContactCreate :=
  mkContactBase (str "John") (str "Doe") (str "john@example.com")
    (str "555-0100") (mkDate 1990 6 28) None (Some 2).

Definition mary : ContactCreate :=
  mkContactBase (str "Mary") (str "JOHNSON") (str "mary@example.com")
    (str "555-0101") (mkDate 1985 12 30) (Some (str "colleague")) None.

Definition leapling : ContactCreate :=
  mkContactBase (str "Leap") (str "Day") (str "leap@example.com")
    (str "555-0102") (mkDate 2000 2 29) None None.

Definition newyear : ContactCreate :=
  mkContactBase (str "New") (str "Year") (str "ny@example.com")
    (str "555-0103") (mkDate 1970 1 1) None None.

(** Runs a computation for its final session. *)
Definition exec {A} (m : M A) (s : Session) : Session := snd (m s).

Definition db1 : Session :=
  exec (create_contact jwt_decode newyear "alice.jwt")
    (exec (create_contact jwt_decode mary "alice.jwt")
       (exec (create_contact jwt_decode john "alice.jwt") empty_db)).

(** The same rows behind a backend that rejects negative counts. *)
Definition db1_strict : Session :=
  mkSession (table db1) (next_id db1) (journal db1) strict.

(** Alice has John, born on 28 June, and a contact born on 29 February. *)
Definition db_leap : Session :=
  exec (create_contact jwt_decode leapling "alice.jwt")
    (exec (create_contact jwt_decode john "alice.jwt") empty_db).

Definition john_row : Contact :=
  mkContact 1 (str "John") (str "Doe") (str "john@example.com")
    (str "555-0100") (mkDate 1990 6 28) None (Some 1).

Definition mary_row : Contact :=
  mkContact 2 (str "Mary") (str "JOHNSON") (str "mary@example.com")
    (str "555-0101") (mkDate 1985 12 30) (Some (str "colleague")) (Some 1).

Definition newyear_row : Contact :=
  mkContact 3 (str "New") (str "Year") (str "ny@example.com")
    (str "555-0103") (mkDate 1970 1 1) None (Some 1).

Definition leapling_row : Contact :=
  mkContact 2 (str "Leap") (str "Day") (str "leap@example.com")
    (str "555-0102") (mkDate 2000 2 29) None (Some 1).

(** A contact whose first name holds a letter outside ASCII, [jöhn]. *)
Definition joehn : ContactCreate :=
  mkContactBase [106; 246; 104; 110] (str "Doe") (str "joehn@example.com")
    (str "555-0104") (mkDate 1991 3 3) None None.

(** Only the phone number is given. *)
Definition new_phone : ContactUpdate :=
  mkContactUpdate None None None (Some (str "555-0199")) None None None.

(** Only the owner field is given, naming Bob. *)
Definition hand_over : ContactUpdate :=
  mkContactUpdate None None None None None None (Some (Some 2)).

(** A request body as the update route validates it: the five mandatory
    fields, here with John's own values, and the owner field naming Bob. *)
Definition john_to_bob : ContactUpdate :=
  mkContactUpdate (Some (str "John")) (Some (str "Doe"))
    (Some (str "john@example.com")) (Some (str "555-0100"))
    (Some (mkDate 1990 6 28)) None (Some (Some 2)).

End Demo.

(** ** Vocabulary of the statements *)

(** The rows of a table whose owner column equals [uid]. *)
Definition owned (uid : option Z) (t : list Contact) : list Contact :=
  List.filter (fun c => col_eq (user_id c) uid) t.

(** [c] is among the rows an operation handed back. *)
Definition returned (r : result (list Contact)) (c : Contact) : Prop :=
  match r with
  | Ok l => In c l
  | Raise _ => False
  end.

(** Primary keys are unique and were all drawn from the counter. *)
Definition wf (s : Session) : Prop :=
  List.NoDup (map id (table s))
  /\ Forall (fun c => id c < next_id s) (table s).

(** The fields of a row after the items of a partial update were
    assigned. *)
Definition apply_update (u : ContactUpdate) (c : Contact) : Contact :=
  fold_left setattr (model_dump_exclude_unset u) c.

Definition no_fields : ContactUpdate :=
  mkContactUpdate None None None None None None None.

(** The criterion [Contact.id == contact_id, Contact.user_id == user_id]. *)
Definition by_id_and_owner (contact_id : Z) (uid : option Z) (c : Contact)
    : bool :=
  true && ((id c =? contact_id) && col_eq (user_id c) uid).

(** What it is for a text to match a pattern, said without reference to
    the way a match is computed: [%] stands for any run of characters, the
    empty one too, [_] for any one character, and a character matches
    itself; where the backslash escapes ([esc]), it is not such a
    character, and the character after it stands for itself alone. *)
Inductive Matches (esc : bool) : text -> text -> Prop :=
| Matches_nil : Matches esc [] []
| Matches_percent_none (p s : text) :
    Matches esc p s -> Matches esc (PERCENT :: p) s
| Matches_percent_more (p : text) (c : Z) (s : text) :
    Matches esc (PERCENT :: p) s -> Matches esc (PERCENT :: p) (c :: s)
| Matches_underscore (p : text) (c : Z) (s : text) :
    Matches esc p s -> Matches esc (UNDERSCORE :: p) (c :: s)
| Matches_same (c : Z) (p s : text) :
    esc && (c =? BACKSLASH) = false ->
    Matches esc p s -> Matches esc (c :: p) (c :: s)
| Matches_escaped (c : Z) (p s : text) :
    esc = true ->
    Matches esc p s -> Matches esc (BACKSLASH :: c :: p) (c :: s).

(** The three columns the search looks into. *)
Definition searched (c : Contact) : list text :=
  [first_name c; last_name c; email c].

(** A text column of a row matches the pattern, or contains the query, in
    one of the three searched columns. *)
Definition matches_pattern (d : Dialect) (pattern : text) (c : Contact)
    : bool :=
  ilike d (first_name c) pattern || ilike d (last_name c) pattern
  || ilike d (email c) pattern.

Definition contains_query (d : Dialect) (q : text) (c : Contact) : bool :=
  contains_ci d (first_name c) q || contains_ci d (last_name c) q
  || contains_ci d (email c) q.

(** The same request body with another caller-supplied owner field. *)
Definition with_user_id (supplied : option Z) (b : ContactBase)
    : ContactBase :=
  mkContactBase (b_first_name b) (b_last_name b) (b_email b) (b_phone b)
    (b_birthday b) (b_extra b) supplied.

(** The birthday re-anchored as the loop does it: in today's year, or in
    the next one when that date is already past. *)
Definition reanchor (today b : date) : result date :=
  match replace_year b (year today) with
  | Raise e => Raise e
  | Ok this_year =>
      if Date.ltb this_year today then replace_year b (year today + 1)
      else Ok this_year
  end.

Definition in_window (today next_week d : date) : bool :=
  Date.leb today d && Date.leb d next_week.

(** The loop's decision for one birthday, where re-anchoring succeeds. *)
Definition upcoming (today next_week b : date) : bool :=
  match reanchor today b with
  | Ok d => in_window today next_week d
  | Raise _ => false
  end.

Definition leap_day (b : date) : Prop := month b = 2 /\ day b = 29.

(** Today's year cannot hold a 29th of February, or it does and that day is
    already past. *)
Definition leap_day_unreachable (today : date) : Prop :=
  is_leap (year today) = false
  \/ (is_leap (year today) = true
      /\ Date.ltb (mkDate (year today) 2 29) today = true).

Section Vocabulary.

Variable jwt_decode : string -> option Payload.

(** A token the verifier accepts, carrying the numeric user id [owner]. *)
Definition identifies (token : string) (owner : Z) : Prop :=
  exists claims,
    jwt_decode token = Some claims /\ claims !! "user_id" = Some (CInt owner).

(** Some read operation run with [token] on the session [s] hands back
    the row [c]. *)
Definition visible_to (token : string) (s : Session) (c : Contact) : Prop :=
  (exists contact_id,
      fst (get_contact jwt_decode contact_id token s) = Ok (Some c))
  \/ (exists skip limit,
         returned (fst (get_contacts jwt_decode skip limit token s)) c)
  \/ (exists q, returned (fst (search_contacts jwt_decode q token s)) c)
  \/ (exists today,
         returned (fst (get_upcoming_birthdays jwt_decode today token s)) c).

End Vocabulary.

(** ** The accessor as a service *)

(** The seven calls the contact router makes on the accessor
    ([app/routers/contact.py]), each with the caller's bearer token. *)
Inductive request :=
| Create (contact : ContactCreate)
| List_ (skip limit : Z)
| Get (contact_id : Z)
| Update (contact_id : Z) (contact : ContactUpdate)
| Delete (contact_id : Z)
| Search (q : text)
| Birthdays (today : date).

(** The session a computation leaves behind. *)
Definition after {A} (m : M A) (s : Session) : Session := snd (m s).

Section Service.

Variable jwt_decode : string -> option Payload.

(** The store after a request was served, whatever its answer. *)
Definition serve (r : request) (token : string) (s : Session) : Session :=
  match r with
  | Create contact => after (create_contact jwt_decode contact token) s
  | List_ skip limit => after (get_contacts jwt_decode skip limit token) s
  | Get contact_id => after (get_contact jwt_decode contact_id token) s
  | Update contact_id contact =>
      after (update_contact jwt_decode contact_id contact token) s
  | Delete contact_id => after (delete_contact jwt_decode contact_id token) s
  | Search q => after (search_contacts jwt_decode q token) s
  | Birthdays today => after (get_upcoming_birthdays jwt_decode today token) s
  end.

(** The stores that a history of requests can produce from an empty
    table. *)
Inductive reachable : Session -> Prop :=
| reachable_empty (k : Z) (d : Dialect) : reachable (mkSession [] k [] d)
| reachable_serve (s : Session) (r : request) (token : string) :
    reachable s -> reachable (serve r token s).

End Service.

(** ** Users ([app/models/user.py], [app/crud/user.py]) *)

Module Users.

(** A row of the users table: the columns of the [User] model. *)
Record User := mkUser {
  id : Z;
  username : string;
  email : string;
  hashed_password : string;
  is_active : bool;
  is_verified : bool;
  avatar_url : option string
}.

(** [UserCreate] of [app/schemas/user.py]. *)
Record UserCreate := mkUserCreate {
  c_username : string;
  c_email : string;
  c_password : string
}.

(** What the user functions can raise: an exception of the application, or the
    store's [IntegrityError] when a commit breaks a unique constraint. *)
Inductive error :=
| Exn (e : exn)
| IntegrityError.

Inductive outcome (A : Type) :=
| Done (a : A)
| Failed (e : error).

Arguments Done {A} a.
Arguments Failed {A} e.

(** The users table in insertion order and the counter its primary keys
    are generated from. *)
Record Db := mkDb {
  users : list User;
  next_id : Z
}.

Definition Q (A : Type) : Type := Db -> outcome A * Db.

Definition ret {A} (a : A) : Q A := fun s => (Done a, s).

Definition raise {A} (e : error) : Q A := fun s => (Failed e, s).

Definition bind {A B} (m : Q A) (k : A -> Q B) : Q B :=
  fun s =>
    match m s with
    | (Done a, s') => k a s'
    | (Failed e, s') => (Failed e, s')
    end.

(** [db.query(User).filter(criterion).first()] *)
Definition first (criterion : User -> bool) : Q (option User) :=
  fun s => (Done (head (List.filter criterion (users s))), s).

(** [User.id == value] for a Python value that may be [None]: the primary
    key is never NULL, so [None] matches no row. *)
Definition id_is (value : option Z) (u : User) : bool :=
  match value with
  | Some k => id u =? k
  | None => false
  end.

(** [User(username=..., email=..., hashed_password=...)]: a transient
    object; [is_active] and [is_verified] take their column defaults at the
    insert, [avatar_url] stays NULL. *)
Definition new_User (name mail hashed : string) : Z -> User :=
  fun k => mkUser k name mail hashed true false None.

(** The unique constraints of the model: [username] and [email]. *)
Definition clashes (row : User) (u : User) : bool :=
  String.eqb (username u) (username row) || String.eqb (email u) (email row).

(** [db.add(x); db.commit(); db.refresh(x)]: the insert fails with
    [IntegrityError], leaving the table as it was, when a row with the same
    username or the same email exists; otherwise the row is appended under
    a generated key and read back. *)
Definition add_commit_refresh (x : Z -> User) : Q User :=
  fun s =>
    let row := x (next_id s) in
    if existsb (clashes row) (users s) then (Failed IntegrityError, s)
    else (Done row, mkDb (users s ++ [row]) (next_id s + 1)).

(** [db.commit(); db.refresh(x)] after an attribute of the persistent
    object [x] was assigned. *)
Definition commit_refresh (x : User) : Q User :=
  fun s =>
    (Done x,
     mkDb (map (fun r => if id r =? id x then x else r) (users s))
       (next_id s)).

Definition set_is_verified (v : bool) (u : User) : User :=
  mkUser (id u) (username u) (email u) (hashed_password u) (is_active u) v
    (avatar_url u).

Definition set_avatar_url (v : option string) (u : User) : User :=
  mkUser (id u) (username u) (email u) (hashed_password u) (is_active u)
    (is_verified u) v.

Definition HTTP_409_CONFLICT : Z := 409.

(** A call that does not touch the table: its answer, or its exception. *)
Definition call {A} (r : outcome A) : Q A := fun s => (r, s).

Section Crud.

(** The password functions of [app/utils/auth.py], wrappers of the passlib
    context. [get_password_hash] draws a fresh salt at each call, here its
    second argument. Either function answers or raises: the bcrypt scheme
    refuses a password that holds a NUL character, for one. *)
Variable get_password_hash : string -> string -> outcome string.
Variable verify_password : string -> string -> outcome bool.

Definition create_user (salt : string) (user : UserCreate) : Q User :=
  bind (first (fun u => String.eqb (email u) (c_email user)))
    (fun existing =>
       match existing with
       | Some _ =>
           raise (Exn (HTTPException HTTP_409_CONFLICT
                          "Email already registered"))
       | None =>
           bind (call (get_password_hash (c_password user) salt))
             (fun hashed =>
                let db_user :=
                  new_User (c_username user) (c_email user) hashed in
                add_commit_refresh db_user)
       end).

Definition authenticate_user (name password : string) : Q (option User) :=
  bind (first (fun u => String.eqb (username u) name))
    (fun user =>
       match user with
       | None => ret None
       | Some u =>
           bind (call (verify_password password (hashed_password u)))
             (fun verified =>
                if negb verified then ret None else ret (Some u))
       end).

Definition verify_user_email (user_id : option Z) : Q (option User) :=
  bind (first (id_is user_id))
    (fun user =>
       match user with
       | Some u =>
           bind (commit_refresh (set_is_verified true u))
             (fun refreshed => ret (Some refreshed))
       | None => ret None
       end).

Definition update_avatar (user_id : option Z) (url : option string)
    : Q (option User) :=
  bind (first (id_is user_id))
    (fun user =>
       match user with
       | Some u =>
           bind (commit_refresh (set_avatar_url url u))
             (fun refreshed => ret (Some refreshed))
       | None => ret None
       end).

End Crud.

(** Keys, usernames and emails are unique, and the keys were drawn from
    the counter. *)
Definition wf (s : Db) : Prop :=
  List.NoDup (map id (users s))
  /\ List.NoDup (map username (users s))
  /\ List.NoDup (map email (users s))
  /\ Forall (fun u => id u < next_id s) (users s).

End Users.

(** ** Day counts *)

(** The first date on or after [today] that has the month and the day of
    [b]: this year's, or next year's when this year's is past. *)
Definition next_occurrence (today b : date) : date :=
  let this_year := mkDate (year today) (month b) (day b) in
  if Date.ltb this_year today then mkDate (year today + 1) (month b) (day b)
  else this_year.

(** The number of days from [today] to that date. *)
Definition days_until (today b : date) : Z :=
  toordinal (next_occurrence today b) - toordinal today.

(** [p] holds of the [len] integers from [lo] on; decided by halving. *)
Fixpoint range_forall (depth : nat) (p : Z -> bool) (lo len : Z) : bool :=
  match depth with
  | O => (len <=? 0) || ((len =? 1) && p lo)
  | S depth' =>
      if len <=? 1 then (len <=? 0) || p lo
      else
        let half := len / 2 in
        range_forall depth' p lo half
        && range_forall depth' p (lo + half) (len - half)
  end.

(** The last lines of [_ord2ymd]: month and day of the day numbered [n]
    (from 0) within a year. *)
Definition month_day (leapyear : bool) (n : Z) : Z * Z :=
  let m := Z.shiftr (n + 50) 5 in
  let preceding :=
    DAYS_BEFORE_MONTH m + (if (2 <? m) && leapyear then 1 else 0) in
  if n <? preceding then
    let m' := m - 1 in
    let preceding' :=
      preceding
      - (DAYS_IN_MONTH m' + (if (m' =? 2) && leapyear then 1 else 0)) in
    (m', n - preceding' + 1)
  else (m, n - preceding + 1).

(** What [month_day] owes for the day numbered [n]: a month, a day of that
    month, and together the day number again. *)
Definition month_day_ok (leapyear : bool) (n : Z) : bool :=
  let (m, d) := month_day leapyear n in
  (1 <=? m) && (m <=? 12) && (1 <=? d)
  && (d <=? DAYS_IN_MONTH m + (if (m =? 2) && leapyear then 1 else 0))
  && (DAYS_BEFORE_MONTH m + (if (2 <? m) && leapyear then 1 else 0) + d
      =? n + 1).

(** ** Tokens ([app/utils/auth.py]) *)

Definition ACCESS_TOKEN_EXPIRE_MINUTES : Z := 30.

(** A duration ([timedelta]) is counted in microseconds, an instant (an
    aware [datetime] in UTC) in microseconds since the epoch. *)
Definition MICROSECONDS_PER_DAY : Z := 86400000000.

Definition timedelta_minutes (m : Z) : Z := m * 60000000.

(** The ordinal of 1970-01-01. *)
Definition EPOCH_ORDINAL : Z := 719163.

(** [t + delta] on a datetime: the day of the sum has to be a day of the
    calendar, or [OverflowError] is raised. *)
Definition datetime_add (t delta : Z) : result Z :=
  let days :=
    (EPOCH_ORDINAL * MICROSECONDS_PER_DAY + t + delta) / MICROSECONDS_PER_DAY in
  if (0 <? days) && (days <=? MAXORDINAL) then Ok (t + delta)
  else Raise OverflowError.

(** A datetime among the claims, as the JOSE library serialises it: whole
    seconds since the epoch. *)
Definition timestamp (t : Z) : claim := CInt (t / 1000000).

(** [expires_delta or timedelta(minutes=ACCESS_TOKEN_EXPIRE_MINUTES)]:
    [None] and the zero duration are both falsy. *)
Definition or_default (expires_delta : option Z) : Z :=
  match expires_delta with
  | Some d => if d =? 0 then timedelta_minutes ACCESS_TOKEN_EXPIRE_MINUTES
              else d
  | None => timedelta_minutes ACCESS_TOKEN_EXPIRE_MINUTES
  end.

(** The answer of the login route. *)
Record Token := mkToken {
  access_token : string;
  token_type : string
}.

Section Tokens.

(** [jwt.encode(claims, SECRET_KEY, algorithm=ALGORITHM)] of the JOSE
    library. *)
Variable jwt_encode : Payload -> string.

(** [now] is the value of [datetime.now(timezone.utc)] at the call. *)
Definition create_access_token (now : Z) (data : Payload)
    (expires_delta : option Z) : result string :=
  let to_encode := data in
  match datetime_add now (or_default expires_delta) with
  | Ok expire => Ok (jwt_encode (<["exp" := timestamp expire]> to_encode))
  | Raise e => Raise e
  end.

(** ** The user routes ([app/routers/user.py]) *)

Variable get_password_hash : string -> string -> Users.outcome string.
Variable verify_password : string -> string -> Users.outcome bool.

(** [send_verification_email] of [app/utils/auth.py], taken as a whole: it
    answers whether the mail went out, or raises. *)
Variable send_verification_email : string -> Z -> Users.outcome bool.

Definition register (salt : string) (user : Users.UserCreate)
    : Users.Q Users.User :=
  Users.bind (Users.create_user get_password_hash salt user)
    (fun db_user =>
       match send_verification_email (Users.email db_user) (Users.id db_user)
       with
       | Users.Done _ => Users.ret db_user
       | Users.Failed e => Users.raise e
       end).

(** The claims the login route asks a token for. *)
Definition login_data (user : Users.User) : Payload :=
  <["user_id" := CInt (Users.id user)]>
    (<["email" := CStr (Users.email user)]> ∅).

Definition login (now : Z) (name password : string) : Users.Q Token :=
  Users.bind (Users.authenticate_user verify_password name password)
    (fun user =>
       match user with
       | None =>
           Users.raise
             (Users.Exn (HTTPException HTTP_401_UNAUTHORIZED
                           "Invalid credentials"))
       | Some u =>
           match create_access_token now (login_data u) None with
           | Ok token => Users.ret (mkToken token "bearer")
           | Raise e => Users.raise (Users.Exn e)
           end
       end).

End Tokens.

(** ** Password validation ([app/schemas/user.py]) *)

(** A text as its code points, since the validator measures the UTF-8
    encoding. *)
Definition utf8_size (c : Z) : Z :=
  if c <? 128 then 1 else if c <? 2048 then 2 else if c <? 65536 then 3
  else 4.

Definition is_surrogate (c : Z) : bool := (55296 <=? c) && (c <=? 57343).

(** [len(v.encode("utf-8"))]; a surrogate cannot be encoded, which raises
    [UnicodeEncodeError], a [ValueError]. *)
Fixpoint utf8_len (v : list Z) : result Z :=
  match v with
  | [] => Ok 0
  | c :: rest =>
      if is_surrogate c then Raise ValueError
      else match utf8_len rest with
           | Ok n => Ok (utf8_size c + n)
           | Raise e => Raise e
           end
  end.

Definition password_length (v : list Z) : result (list Z) :=
  match utf8_len v with
  | Ok n => if 72 <? n then Raise ValueError else Ok v
  | Raise e => Raise e
  end.

(** ** The contact routes ([app/routers/contact.py]) *)

Inductive method := GET | POST | PUT | DELETE | OTHER (name : string).

Definition method_eqb (a b : method) : bool :=
  match a, b with
  | GET, GET | POST, POST | PUT, PUT | DELETE, DELETE => true
  | OTHER x, OTHER y => String.eqb x y
  | _, _ => false
  end.

(** A path is the list of its segments, the texts between the slashes
    after the leading one: [/contacts/] is [["contacts"; ""]]. A path
    template has literal segments and parameters. *)
Inductive segment := Lit (s : string) | Param (name : string).

Inductive endpoint :=
| create_contact_route
| read_contacts
| read_contact
| update_contact_route
| delete_contact_route
| search_contacts_route
| upcoming_birthdays_route.

(** The routes of the contact router under its prefix, in the order in
    which the module declares them. *)
Definition contact_routes : list (method * list segment * endpoint) :=
  [ (POST, [Lit "contacts"; Lit ""], create_contact_route);
    (GET, [Lit "contacts"; Lit ""], read_contacts);
    (GET, [Lit "contacts"; Param "contact_id"], read_contact);
    (PUT, [Lit "contacts"; Param "contact_id"], update_contact_route);
    (DELETE, [Lit "contacts"; Param "contact_id"], delete_contact_route);
    (GET, [Lit "contacts"; Lit "search"], search_contacts_route);
    (GET, [Lit "contacts"; Lit "birthdays"; Lit "upcoming"],
     upcoming_birthdays_route) ].

(** A template matches a path segment by segment; a parameter takes any
    segment that is not empty. *)
Fixpoint matches (template : list segment) (path : list string) : bool :=
  match template, path with
  | [], [] => true
  | Lit s :: template', x :: path' => String.eqb s x && matches template' path'
  | Param _ :: template', x :: path' =>
      negb (String.eqb x "") && matches template' path'
  | _, _ => false
  end.

Inductive routed :=
| Handled (e : endpoint)
| MethodNotAllowed
| Unrouted.

(** The router's walk over its routes: the first route that matches path
    and method handles the request; failing that, a route that matched the
    path alone answers 405; failing that too, no route is involved (the
    framework answers with a redirect or 404). *)
Fixpoint route (routes : list (method * list segment * endpoint))
    (m : method) (path : list string) (partial : bool) : routed :=
  match routes with
  | [] => if partial then MethodNotAllowed else Unrouted
  | (m', template, e) :: rest =>
      if matches template path then
        if method_eqb m m' then Handled e else route rest m path true
      else route rest m path partial
  end.

Definition dispatch (m : method) (path : list string) : routed :=
  route contact_routes m path false.

(** ** A small world of users for the examples *)

Module DemoUsers.

Fixpoint has_nul (s : string) : bool :=
  match s with
  | EmptyString => false
  | String c s' => Ascii.eqb c Ascii.zero || has_nul s'
  end.

(** A stand-in hasher: the salt is kept in front of the password. Like
    passlib's bcrypt it refuses a password with a NUL character, raising
    [PasswordValueError], a [ValueError]. *)
Definition get_password_hash (password salt : string)
    : Users.outcome string :=
  if has_nul password then Users.Failed (Users.Exn ValueError)
  else Users.Done (salt ++ "$" ++ password)%string.

Definition verify_password (password hashed : string) : Users.outcome bool :=
  if has_nul password then Users.Failed (Users.Exn ValueError)
  else Users.Done (String.eqb hashed ("s1$" ++ password)%string).

(** The text [a], NUL, [b]. *)
Definition nul_password : string :=
  String "a" (String Ascii.zero (String "b" EmptyString)).

Definition alice : Users.UserCreate :=
  Users.mkUserCreate "alice" "alice@example.com" "correct horse".

Definition alice_row : Users.User :=
  Users.mkUser 1 "alice" "alice@example.com" "s1$correct horse" true false
    None.

Definition bob_row : Users.User :=
  Users.mkUser 2 "bob" "bob@example.com" "s1$hunter2" true true None.

Definition empty_db : Users.Db := Users.mkDb [] 1.

Definition db : Users.Db := Users.mkDb [alice_row; bob_row] 3.

(** 2023-11-14 22:13:20 UTC, in microseconds. *)
Definition now : Z := 1700000000000000.

(** The claims of the token that login issues to Alice at [now]. *)
Definition alice_claims : Payload :=
  <["exp" := CInt 1700001800]> (login_data alice_row).

(** A stand-in token codec with a single token. *)
Definition jwt_encode (claims : Payload) : string := "alice.signed".

Definition jwt_decode (token : string) : option Payload :=
  if String.eqb token "alice.signed" then Some alice_claims else None.

(** A mailer that is out of order. *)
Definition mail_down (address : string) (user_id : Z) : Users.outcome bool :=
  Users.Done false.

End DemoUsers.

(** A verifier that also knows a token whose set of claims is empty. *)
Definition jwt_decode_blank (token : string) : option Payload :=
  if String.eqb token "blank.jwt" then Some ∅ else Demo.jwt_decode token.

(** ** Basic facts *)

Lemma lookup_truthy (p : Payload) (k : string) (v : claim) :
  p !! k = Some v -> truthy (Some p) = Some p.
Proof.
  intros Hk. unfold truthy.
  destruct (Nat.eqb (size p) 0) eqn:E; [|reflexivity].
  apply Nat.eqb_eq in E. apply map_size_empty_iff in E. subst p.
  rewrite lookup_empty in Hk. discriminate.
Qed.

Lemma get_user_id (p : Payload) (u : Z) :
  p !! "user_id" = Some (CInt u) -> get p "user_id" = Some u.
Proof. intros H. unfold get. now rewrite H. Qed.

Lemma col_eq_Some (column : option Z) (u : Z) :
  col_eq column (Some u) = true <-> column = Some u.
Proof.
  destruct column as [a|]; simpl; split; intros H; try discriminate.
  - apply Z.eqb_eq in H. now subst.
  - injection H as ->. apply Z.eqb_refl.
Qed.

Lemma col_eq_true (column value : option Z) :
  col_eq column value = true <-> column = value.
Proof.
  destruct value as [u|]; [apply col_eq_Some|].
  destruct column; simpl; split; intros H; congruence.
Qed.

Lemma In_owned (uid : option Z) (t : list Contact) (c : Contact) :
  In c (owned uid t) <-> In c t /\ user_id c = uid.
Proof. unfold owned. rewrite filter_In, col_eq_true. reflexivity. Qed.

Lemma owned_app (uid : option Z) (t1 t2 : list Contact) :
  owned uid (t1 ++ t2) = owned uid t1 ++ owned uid t2.
Proof. unfold owned. apply List.filter_app. Qed.

Lemma In_skipn {A} (n : nat) (l : list A) (x : A) :
  In x (skipn n l) -> In x l.
Proof.
  revert l. induction n as [|n IH]; intros [|y l] H; simpl in *; auto.
Qed.

Lemma In_firstn {A} (n : nat) (l : list A) (x : A) :
  In x (firstn n l) -> In x l.
Proof.
  revert l. induction n as [|n IH]; intros [|y l] H; simpl in *;
    try contradiction.
  destruct H as [H|H]; auto.
Qed.

Lemma In_rows_of (q : Query) (t : list Contact) (c : Contact) :
  In c (rows_of q t) -> In c t /\ q_where q c = true.
Proof.
  unfold rows_of. intros H. apply filter_In.
  destruct (count (q_limit q)); [apply In_firstn in H|];
    (destruct (count (q_offset q)); [apply In_skipn in H|]); exact H.
Qed.

Lemma run_plain (q : Query) (s : Session) :
  negative (q_offset q) || negative (q_limit q) = false ->
  run q s = Ok (rows_of q (table s)).
Proof. intros H. unfold run. now rewrite H. Qed.

(** A query without counts is never rejected. *)
Lemma run_filter (p : Contact -> bool) (s : Session) :
  run (filter_ p query) s = Ok (rows_of (filter_ p query) (table s)).
Proof. reflexivity. Qed.

Lemma run_rows (q : Query) (s : Session) (l : list Contact) :
  run q s = Ok l -> l = rows_of q (table s).
Proof.
  unfold run. destruct (_ || _); [destruct (negative_count _)|]; congruence.
Qed.

Lemma returned_run (q : Query) (s : Session) (c : Contact) :
  returned (run q s) c -> In c (table s) /\ q_where q c = true.
Proof.
  destruct (run q s) as [l|] eqn:E; [|contradiction]. cbn [returned].
  rewrite (run_rows _ _ _ E). apply In_rows_of.
Qed.

Lemma first_row (q : Query) (s : Session) (c : Contact) :
  fst (first q s) = Ok (Some c) -> In c (table s) /\ q_where q c = true.
Proof.
  unfold first. cbn [fst]. intros H. apply returned_run.
  destruct (run q s) as [l|]; [|discriminate]. injection H as H.
  now apply head_Some_elem_of, list_elem_of_In in H.
Qed.

(** The number of rows a non-negative count stands for. *)
Lemma count_nonneg (n : Z) : 0 <= n -> count (Some n) = Some (Z.to_nat n).
Proof. intros H. unfold count. destruct (Z.ltb_spec n 0); [lia|reflexivity]. Qed.

Lemma negative_nonneg (n : Z) : 0 <= n -> negative (Some n) = false.
Proof. intros H. cbn. apply Z.ltb_ge. exact H. Qed.

(** A page: the query that list builds, run with non-negative counts. *)
Lemma run_page (p : Contact -> bool) (skip limit : Z) (s : Session) :
  0 <= skip -> 0 <= limit ->
  run (limit_ limit (offset_ skip (filter_ p query))) s
  = Ok (firstn (Z.to_nat limit)
          (skipn (Z.to_nat skip) (List.filter p (table s)))).
Proof.
  intros Hs Hl. rewrite run_plain.
  - unfold rows_of. cbn [q_offset q_limit q_where limit_ offset_ filter_ query].
    now rewrite !count_nonneg.
  - cbn [q_offset q_limit limit_ offset_ filter_ query].
    now rewrite !negative_nonneg.
Qed.

(** A row found by primary key and owner is the first match once keys are
    unique. *)
Lemma head_filter_id (t : list Contact) (p : Contact -> bool) (c : Contact) :
  List.NoDup (map id t) -> In c t -> p c = true ->
  (forall r, p r = true -> id r = id c) ->
  head (List.filter p t) = Some c.
Proof.
  induction t as [|r t IH]; intros Hnd Hin Hp Hid; [destruct Hin|].
  simpl in Hnd. apply NoDup_cons_iff in Hnd as [Hr Hnd]. simpl.
  destruct (p r) eqn:Er.
  - simpl. destruct Hin as [->|Hin]; [reflexivity|].
    exfalso. apply Hr. rewrite (Hid r Er). now apply in_map.
  - destruct Hin as [->|Hin]; [congruence|]. now apply IH.
Qed.

Lemma head_filter_none {A} (t : list A) (p : A -> bool) :
  (forall r, In r t -> p r = false) -> List.filter p t = [].
Proof.
  induction t as [|r t IH]; intros H; [reflexivity|]. simpl.
  rewrite (H r (or_introl eq_refl)). apply IH. intros x Hx. apply H. now right.
Qed.

Lemma wf_initial (k : Z) (j : list db_call) (d : Dialect) :
  wf (mkSession [] k j d).
Proof. split; constructor. Qed.

Lemma wf_fresh (s : Session) : wf s -> ~ In (next_id s) (map id (table s)).
Proof.
  intros [_ Hlt] Hin. apply in_map_iff in Hin as (c & Hc & Hin).
  rewrite List.Forall_forall in Hlt. specialize (Hlt c Hin). lia.
Qed.

Lemma NoDup_snoc {A} (l : list A) (x : A) :
  List.NoDup l -> ~ In x l -> List.NoDup (l ++ [x]).
Proof.
  intros Hl Hx. apply List.NoDup_app; [exact Hl | repeat constructor; intros [] |].
  intros a Ha [<-|[]]. contradiction.
Qed.

Lemma wf_insert (s : Session) (row : Contact) (j : list db_call)
    (d : Dialect) :
  wf s -> id row = next_id s ->
  wf (mkSession (table s ++ [row]) (next_id s + 1) j d).
Proof.
  intros Hwf Hid. pose proof (wf_fresh s Hwf) as Hfresh.
  destruct Hwf as [Hnd Hlt]. split; cbn.
  - rewrite map_app. cbn. apply NoDup_snoc; [exact Hnd | now rewrite Hid].
  - apply List.Forall_app. split.
    + eapply List.Forall_impl; [|exact Hlt]. cbn. intros. lia.
    + constructor; [lia | constructor].
Qed.

Lemma birthday_loop_sub (today next_week : date) (l acc r : list Contact) :
  birthday_loop today next_week acc l = Ok r ->
  forall c, In c r -> In c acc \/ In c l.
Proof.
  revert acc. induction l as [|x l IH]; intros acc H c Hc; simpl in H.
  - injection H as <-. now left.
  - destruct (birthday_step today next_week acc x) as [acc'|e] eqn:E;
      [|discriminate].
    destruct (IH _ H c Hc) as [Hacc|Hl]; [|right; now right].
    unfold birthday_step in E.
    destruct (replace_year (birthday x) (year today)) as [d|]; [|discriminate].
    destruct (if Date.ltb d today then _ else _) as [d'|]; [|discriminate].
    destruct (_ && _); injection E as <-; auto.
    apply in_app_iff in Hacc as [Hacc|[->|[]]]; auto. right. now left.
Qed.

Lemma unique_by_id (t : list Contact) (r c : Contact) :
  List.NoDup (map id t) -> In r t -> In c t -> id r = id c -> r = c.
Proof.
  induction t as [|x t IH]; intros Hnd Hr Hc Hid; [destruct Hr|].
  cbn in Hnd. apply NoDup_cons_iff in Hnd as [Hx Hnd].
  destruct Hr as [->|Hr], Hc as [->|Hc]; auto.
  - exfalso. apply Hx. rewrite Hid. now apply in_map.
  - exfalso. apply Hx. rewrite <- Hid. now apply in_map.
Qed.

(** What the assignments of a partial update leave in each column. *)
Lemma apply_update_fields (u : ContactUpdate) (c : Contact) :
  id (apply_update u c) = id c
  /\ first_name (apply_update u c) = default (first_name c) (u_first_name u)
  /\ last_name (apply_update u c) = default (last_name c) (u_last_name u)
  /\ email (apply_update u c) = default (email c) (u_email u)
  /\ phone (apply_update u c) = default (phone c) (u_phone u)
  /\ birthday (apply_update u c) = default (birthday c) (u_birthday u)
  /\ extra (apply_update u c) = default (extra c) (u_extra u)
  /\ user_id (apply_update u c) = default (user_id c) (u_user_id u).
Proof.
  destruct u as [[?|] [?|] [?|] [?|] [?|] [?|] [?|]]; cbn; repeat split.
Qed.

Lemma apply_update_no_fields (c : Contact) : apply_update no_fields c = c.
Proof. now destruct c. Qed.

Lemma map_replace_by_id (t : list Contact) (c c' : Contact)
    (f : Contact -> Contact) :
  List.NoDup (map id t) -> In c t -> id c' = id c -> f c = c' ->
  map (fun r => if id r =? id c' then c' else r) t
  = map (fun r => if id r =? id c then f r else r) t.
Proof.
  intros Hnd Hc Hid Hf. apply map_ext_in. intros r Hr. rewrite Hid.
  destruct (id r =? id c) eqn:E; [|reflexivity].
  apply Z.eqb_eq in E. now rewrite (unique_by_id t r c Hnd Hr Hc E).
Qed.

Lemma wf_replace (s : Session) (x : Contact) (j : list db_call)
    (d : Dialect) :
  wf s ->
  wf (mkSession (map (fun r => if id r =? id x then x else r) (table s))
        (next_id s) j d).
Proof.
  intros [Hnd Hlt]. split; cbn.
  - replace (map id (map _ (table s))) with (map id (table s)); [exact Hnd|].
    rewrite map_map. apply map_ext. intros r.
    destruct (id r =? id x) eqn:E; [|reflexivity].
    apply Z.eqb_eq in E. now rewrite E.
  - apply List.Forall_map. eapply List.Forall_impl; [|exact Hlt]. cbn.
    intros r Hr. destruct (id r =? id x) eqn:E; [|exact Hr].
    apply Z.eqb_eq in E. now rewrite <- E.
Qed.

Lemma wf_remove (s : Session) (p : Contact -> bool) (j : list db_call)
    (d : Dialect) :
  wf s -> wf (mkSession (List.filter p (table s)) (next_id s) j d).
Proof.
  intros [Hnd Hlt]. split; cbn.
  - clear Hlt. induction (table s) as [|r t IH]; [constructor|].
    cbn in Hnd. apply NoDup_cons_iff in Hnd as [Hr Hnd]. cbn.
    destruct (p r); [|now apply IH]. cbn. constructor; [|now apply IH].
    intros Hin. apply Hr. apply in_map_iff in Hin as (x & Hx & Hin).
    apply filter_In in Hin as [Hin _]. rewrite <- Hx. now apply in_map.
  - rewrite List.Forall_forall in *. intros r Hr.
    apply filter_In in Hr as [Hr _]. now apply Hlt.
Qed.

Lemma by_id_and_owner_true (contact_id : Z) (uid : option Z) (c : Contact) :
  by_id_and_owner contact_id uid c = true
  <-> id c = contact_id /\ user_id c = uid.
Proof.
  unfold by_id_and_owner. cbn. rewrite andb_true_iff, Z.eqb_eq, col_eq_true.
  reflexivity.
Qed.

Lemma first_found (s : Session) (c : Contact) (uid : option Z) :
  wf s -> In c (table s) -> user_id c = uid ->
  head (List.filter (by_id_and_owner (id c) uid) (table s)) = Some c.
Proof.
  intros [Hnd _] Hin Hu. apply head_filter_id; auto.
  - now apply by_id_and_owner_true.
  - intros r Hr. now apply by_id_and_owner_true in Hr as [-> _].
Qed.

Lemma first_not_found (s : Session) (contact_id : Z) (uid : option Z) :
  (forall r, In r (table s) -> ~ (id r = contact_id /\ user_id r = uid)) ->
  List.filter (by_id_and_owner contact_id uid) (table s) = [].
Proof.
  intros H. apply head_filter_none. intros r Hr.
  apply not_true_is_false. rewrite by_id_and_owner_true. now apply H.
Qed.

(** *** Pattern matching *)

Lemma like_percent (esc : bool) (p s : text) :
  like esc (PERCENT :: p) s
  = like esc p s
    || match s with
       | [] => false
       | _ :: s' => like esc (PERCENT :: p) s'
       end.
Proof. destruct esc, s; reflexivity. Qed.

Lemma like_any (esc : bool) (s : text) : like esc [PERCENT] s = true.
Proof.
  induction s as [|c s IH]; [now destruct esc|].
  rewrite like_percent, IH. apply orb_true_r.
Qed.

(** [_] in the pattern stands for any one character, whatever its code
    point. *)
Lemma like_underscore (esc : bool) (p s : text) :
  like esc (UNDERSCORE :: p) s
  = match s with
    | [] => false
    | _ :: s' => like esc p s'
    end.
Proof. destruct esc, s; reflexivity. Qed.

(** The character after an escape stands for itself alone. *)
Lemma like_escaped (c : Z) (p s : text) :
  like true (BACKSLASH :: c :: p) s
  = match s with
    | [] => false
    | d :: s' => (c =? d) && like true p s'
    end.
Proof. destruct s; reflexivity. Qed.

(** A character of the pattern that is none of the three special ones. *)
Lemma like_char (esc : bool) (c : Z) (p s : text) :
  esc && (c =? BACKSLASH) = false -> c <> PERCENT ->
  like esc (c :: p) s
  = match s with
    | [] => false
    | d :: s' => ((c =? UNDERSCORE) || (c =? d)) && like esc p s'
    end.
Proof.
  intros He Hp. apply Z.eqb_neq in Hp. cbn [like]. now rewrite He, Hp.
Qed.

Lemma like_literal_char (esc : bool) (c : Z) (p s : text) :
  is_wildcard c = false -> esc && (c =? BACKSLASH) = false ->
  like esc (c :: p) s
  = match s with
    | [] => false
    | d :: s' => (c =? d) && like esc p s'
    end.
Proof.
  unfold is_wildcard. intros H He. apply orb_false_iff in H as [H1 H2].
  rewrite like_char by (try apply Z.eqb_neq; assumption).
  destruct s as [|d s]; [reflexivity|]. now rewrite H2.
Qed.

(** A pattern of ordinary characters followed by [%] is a prefix test. *)
Lemma like_literal_prefix (esc : bool) (q s : text) :
  has_wildcard q = false -> has_escape esc q = false ->
  like esc (q ++ [PERCENT]) s = starts_with q s.
Proof.
  revert s. induction q as [|c q IH]; intros s H He.
  - cbn [app]. rewrite like_any. now destruct s.
  - cbn [has_wildcard] in H. apply orb_false_iff in H as [Hc Hq].
    cbn [has_escape] in He. apply orb_false_iff in He as [Hec Heq].
    cbn [app]. rewrite like_literal_char by assumption.
    destruct s as [|d s]; [reflexivity|]. cbn [starts_with]. now rewrite IH.
Qed.

(** Between two [%] it is a substring test. *)
Lemma like_literal_occurs (esc : bool) (q s : text) :
  has_wildcard q = false -> has_escape esc q = false ->
  like esc (search_pattern q) s = occurs_in q s.
Proof.
  intros H He. unfold search_pattern.
  induction s as [|d s IH]; rewrite like_percent, like_literal_prefix
    by assumption.
  - reflexivity.
  - cbn [occurs_in]. now rewrite IH.
Qed.

(** Whatever wildcards the query holds, a text that starts with it
    matches. *)
Lemma prefix_like (esc : bool) (q s : text) :
  has_escape esc q = false ->
  starts_with q s = true -> like esc (q ++ [PERCENT]) s = true.
Proof.
  revert s. induction q as [|c q IH]; intros s He H.
  - apply like_any.
  - destruct s as [|d s]; [discriminate|].
    cbn [has_escape] in He. apply orb_false_iff in He as [Hec Heq].
    cbn [starts_with] in H. apply andb_true_iff in H as [Hcd Hq].
    apply Z.eqb_eq in Hcd. subst d. specialize (IH s Heq Hq).
    cbn [app]. destruct (Z.eqb_spec c PERCENT) as [->|Hc].
    + rewrite like_percent. apply orb_true_iff. right.
      rewrite like_percent, IH. reflexivity.
    + rewrite like_char by assumption.
      now rewrite Z.eqb_refl, IH, orb_true_r.
Qed.

Lemma occurs_like (esc : bool) (q s : text) :
  has_escape esc q = false ->
  occurs_in q s = true -> like esc (search_pattern q) s = true.
Proof.
  intros He. unfold search_pattern.
  induction s as [|d s IH]; cbn [occurs_in]; intros H; rewrite like_percent;
    apply orb_true_iff in H as [H|H]; apply orb_true_iff.
  - left. now apply prefix_like.
  - discriminate.
  - left. now apply prefix_like.
  - right. now apply IH.
Qed.

(** The computed match and the relation agree. *)
Lemma like_Matches (esc : bool) (p s : text) :
  like esc p s = true <-> Matches esc p s.
Proof.
  split.
  - revert s.
    enough (H : (forall s, like esc p s = true -> Matches esc p s)
                /\ (forall x s, like esc (x :: p) s = true ->
                                Matches esc (x :: p) s)) by apply H.
    induction p as [|c p [IH1 IH2]].
    + split.
      * intros s H. destruct s; [constructor | discriminate].
      * intros x s H.
        destruct (esc && (x =? BACKSLASH)) eqn:He.
        { cbn [like] in H. rewrite He in H. discriminate. }
        destruct (Z.eqb_spec x PERCENT) as [->|Hx].
        -- induction s as [|d s IHs]; rewrite like_percent in H;
             apply orb_true_iff in H as [H|H]; try discriminate.
           ++ apply Matches_percent_none. constructor.
           ++ apply Matches_percent_more. now apply IHs.
        -- rewrite like_char in H by assumption.
           destruct s as [|d s]; [discriminate|].
           apply andb_true_iff in H as [Hxd H].
           destruct s; [|discriminate].
           apply orb_true_iff in Hxd as [Hxd|Hxd]; apply Z.eqb_eq in Hxd;
             subst.
           ++ apply Matches_underscore. constructor.
           ++ apply Matches_same; [exact He | constructor].
    + split; [exact (IH2 c)|].
      intros x s H.
      destruct (esc && (x =? BACKSLASH)) eqn:He.
      { apply andb_true_iff in He as [-> Hx]. apply Z.eqb_eq in Hx. subst x.
        rewrite like_escaped in H. destruct s as [|d s]; [discriminate|].
        apply andb_true_iff in H as [Hcd H]. apply Z.eqb_eq in Hcd. subst d.
        apply Matches_escaped; [reflexivity | now apply IH1]. }
      destruct (Z.eqb_spec x PERCENT) as [->|Hx].
      * induction s as [|d s IHs]; rewrite like_percent in H;
          apply orb_true_iff in H as [H|H]; try discriminate.
        -- apply Matches_percent_none. now apply IH2.
        -- apply Matches_percent_none. now apply IH2.
        -- apply Matches_percent_more. now apply IHs.
      * rewrite like_char in H by assumption.
        destruct s as [|d s]; [discriminate|].
        apply andb_true_iff in H as [Hxd H]. apply IH2 in H.
        apply orb_true_iff in Hxd as [Hxd|Hxd]; apply Z.eqb_eq in Hxd; subst.
        -- now apply Matches_underscore.
        -- now apply Matches_same.
  - induction 1 as [|p s _ IH|p c s _ IH|p c s _ IH|c p s He _ IH
                    |c p s He _ IH].
    + reflexivity.
    + rewrite like_percent, IH. reflexivity.
    + rewrite like_percent, IH. apply orb_true_r.
    + now rewrite like_underscore.
    + destruct (Z.eqb_spec c PERCENT) as [->|Hc].
      * rewrite like_percent. apply orb_true_iff. right.
        rewrite like_percent, IH. reflexivity.
      * rewrite like_char by assumption.
        now rewrite Z.eqb_refl, IH, orb_true_r.
    + subst esc. now rewrite like_escaped, Z.eqb_refl.
Qed.

Lemma to_lower_wildcard (d : Dialect) (c : Z) :
  is_wildcard (to_lower d c) = is_wildcard c.
Proof.
  unfold is_wildcard.
  destruct (Z.eqb_spec c PERCENT) as [->|Hp].
  { now rewrite (proj2 (to_lower_percent d _) eq_refl). }
  destruct (Z.eqb_spec (to_lower d c) PERCENT) as [E|_].
  { apply to_lower_percent in E. contradiction. }
  destruct (Z.eqb_spec c UNDERSCORE) as [->|Hu].
  { now rewrite (proj2 (to_lower_underscore d _) eq_refl). }
  destruct (Z.eqb_spec (to_lower d c) UNDERSCORE) as [E|_]; [|reflexivity].
  apply to_lower_underscore in E. contradiction.
Qed.

Lemma to_lower_is_backslash (d : Dialect) (c : Z) :
  (to_lower d c =? BACKSLASH) = (c =? BACKSLASH).
Proof.
  destruct (Z.eqb_spec c BACKSLASH) as [->|Hc].
  - now rewrite (proj2 (to_lower_backslash d _) eq_refl).
  - apply Z.eqb_neq. intros E. apply to_lower_backslash in E. contradiction.
Qed.

Lemma lower_has_wildcard (d : Dialect) (q : text) :
  has_wildcard (lower d q) = has_wildcard q.
Proof.
  induction q as [|c q IH]; [reflexivity|]. cbn [lower map has_wildcard].
  fold (lower d q). now rewrite to_lower_wildcard, IH.
Qed.

Lemma lower_has_escape (d : Dialect) (esc : bool) (q : text) :
  has_escape esc (lower d q) = has_escape esc q.
Proof.
  induction q as [|c q IH]; [reflexivity|]. cbn [lower map has_escape].
  fold (lower d q). now rewrite to_lower_is_backslash, IH.
Qed.

Lemma lower_search_pattern (d : Dialect) (q : text) :
  lower d (search_pattern q) = search_pattern (lower d q).
Proof.
  unfold search_pattern, lower. cbn [map]. rewrite List.map_app. cbn [map].
  now rewrite (proj2 (to_lower_percent d _) eq_refl).
Qed.

Lemma ilike_literal (d : Dialect) (column q : text) :
  has_wildcard q = false -> has_escape (backslash_escapes d) q = false ->
  ilike d column (search_pattern q) = contains_ci d column q.
Proof.
  intros H He. unfold ilike, contains_ci. rewrite lower_search_pattern.
  apply like_literal_occurs.
  - now rewrite lower_has_wildcard.
  - now rewrite lower_has_escape.
Qed.

Lemma contains_ci_ilike (d : Dialect) (column q : text) :
  has_escape (backslash_escapes d) q = false ->
  contains_ci d column q = true -> ilike d column (search_pattern q) = true.
Proof.
  intros He. unfold ilike, contains_ci. rewrite lower_search_pattern.
  apply occurs_like. now rewrite lower_has_escape.
Qed.

Lemma ilike_empty (d : Dialect) (column : text) :
  ilike d column (search_pattern []) = true.
Proof.
  unfold ilike. rewrite lower_search_pattern. unfold search_pattern.
  cbn [lower map app]. now rewrite like_percent, like_any.
Qed.

Lemma ilike_percent (d : Dialect) (column : text) :
  ilike d column (search_pattern [PERCENT]) = true.
Proof.
  unfold ilike. rewrite lower_search_pattern. unfold search_pattern.
  cbn [lower map app]. rewrite (proj2 (to_lower_percent d _) eq_refl).
  now rewrite 2 like_percent, like_any.
Qed.

Lemma filter_filter {A} (p q : A -> bool) (l : list A) :
  List.filter (fun x => p x && q x) l = List.filter q (List.filter p l).
Proof.
  induction l as [|x l IH]; [reflexivity|]. cbn.
  destruct (p x); cbn; [destruct (q x)|]; now rewrite IH.
Qed.

Lemma filter_all {A} (p : A -> bool) (l : list A) :
  (forall x, In x l -> p x = true) -> List.filter p l = l.
Proof.
  induction l as [|x l IH]; intros H; [reflexivity|]. cbn.
  rewrite (H x (or_introl eq_refl)). f_equal. apply IH.
  intros y Hy. apply H. now right.
Qed.

(** *** Birthdays *)

Lemma replace_year_raise (b : date) (y : Z) (e : exn) :
  replace_year b y = Raise e -> e = ValueError.
Proof. unfold replace_year. destruct (valid_ymd _ _ _); congruence. Qed.

Lemma reanchor_raise (today b : date) (e : exn) :
  reanchor today b = Raise e -> e = ValueError.
Proof.
  unfold reanchor. destruct (replace_year b (year today)) as [d|e'] eqn:E.
  - destruct (Date.ltb d today); [apply replace_year_raise | discriminate].
  - intros [= <-]. now apply replace_year_raise in E.
Qed.

Lemma birthday_step_reanchor (today next_week : date) (acc : list Contact)
    (c : Contact) :
  birthday_step today next_week acc c
  = match reanchor today (birthday c) with
    | Ok d => Ok (if in_window today next_week d then acc ++ [c] else acc)
    | Raise e => Raise e
    end.
Proof.
  unfold birthday_step, reanchor, in_window.
  destruct (replace_year (birthday c) (year today)) as [d|]; [|reflexivity].
  destruct (if Date.ltb d today then _ else _) as [d'|]; [|reflexivity].
  now destruct (_ && _).
Qed.

Lemma birthday_loop_raises (today next_week : date) (l acc : list Contact)
    (c : Contact) :
  In c l -> reanchor today (birthday c) = Raise ValueError ->
  birthday_loop today next_week acc l = Raise ValueError.
Proof.
  revert acc. induction l as [|x l IH]; intros acc Hin Hc; [destruct Hin|].
  cbn. rewrite birthday_step_reanchor.
  destruct (reanchor today (birthday x)) as [d|e] eqn:E.
  - destruct Hin as [->|Hin]; [congruence|]. now apply IH.
  - now rewrite (reanchor_raise _ _ _ E).
Qed.

Lemma birthday_loop_total (today next_week : date) (l acc : list Contact) :
  (forall c, In c l -> exists d, reanchor today (birthday c) = Ok d) ->
  birthday_loop today next_week acc l
  = Ok (acc ++ List.filter (fun c => upcoming today next_week (birthday c)) l).
Proof.
  revert acc. induction l as [|x l IH]; intros acc H; cbn.
  - now rewrite app_nil_r.
  - rewrite birthday_step_reanchor. unfold upcoming at 1.
    destruct (H x (or_introl eq_refl)) as [d ->].
    rewrite IH by (intros c Hc; apply H; now right).
    destruct (in_window today next_week d); [|reflexivity].
    now rewrite <- app_assoc.
Qed.

Lemma valid_ymd_spec (y m d : Z) :
  valid_ymd y m d = true
  <-> MINYEAR <= y <= MAXYEAR /\ 1 <= m <= 12 /\ 1 <= d <= days_in_month y m.
Proof. unfold valid_ymd. rewrite !andb_true_iff, !Z.leb_le. lia. Qed.

Lemma is_leap_next (y : Z) : is_leap y = true -> is_leap (y + 1) = false.
Proof.
  unfold is_leap. intros H. apply andb_true_iff in H as [H _].
  apply Z.eqb_eq in H. apply andb_false_iff. left. apply Z.eqb_neq.
  Z.div_mod_to_equations. lia.
Qed.

Lemma replace_year_leap_day (b : date) (y : Z) :
  leap_day b -> is_leap y = false -> replace_year b y = Raise ValueError.
Proof.
  intros [Hm Hd] Hy. unfold replace_year, valid_ymd, days_in_month.
  rewrite Hm, Hd, Hy. cbn. now rewrite !andb_false_r.
Qed.

(** A birthday on 29 February cannot be re-anchored once
    [leap_day_unreachable] holds of today. *)
Lemma reanchor_leap_day (today b : date) :
  Date.valid today = true -> leap_day b -> leap_day_unreachable today ->
  reanchor today b = Raise ValueError.
Proof.
  intros Hv Hb [Hy|[Hy Hlt]]; unfold reanchor.
  - now rewrite replace_year_leap_day.
  - assert (Hthis : replace_year b (year today)
                    = Ok (mkDate (year today) 2 29)).
    { destruct Hb as [Hm Hd]. unfold replace_year. rewrite Hm, Hd.
      replace (valid_ymd (year today) 2 29) with true; [reflexivity|].
      symmetry. apply valid_ymd_spec. apply valid_ymd_spec in Hv.
      unfold days_in_month. rewrite Hy. cbn. lia. }
    rewrite Hthis, Hlt. apply replace_year_leap_day; [exact Hb|].
    now apply is_leap_next.
Qed.

Lemma days_in_month_common (y m : Z) : DAYS_IN_MONTH m <= days_in_month y m.
Proof.
  unfold days_in_month. destruct ((m =? 2) && is_leap y) eqn:E; [|lia].
  apply andb_true_iff in E as [E _]. apply Z.eqb_eq in E. subst m. cbn. lia.
Qed.

(** Any other valid birthday is re-anchored without an error, as long as
    next year is still a year of the calendar. *)
Lemma reanchor_defined (today b : date) :
  Date.valid today = true -> Date.valid b = true ->
  year today < MAXYEAR -> ~ leap_day b ->
  exists d, reanchor today b = Ok d.
Proof.
  intros Ht Hb Hmax Hnl.
  apply valid_ymd_spec in Ht, Hb.
  assert (Hany : forall y, MINYEAR <= y <= MAXYEAR ->
                           valid_ymd y (month b) (day b) = true).
  { intros y Hy. apply valid_ymd_spec.
    pose proof (days_in_month_common y (month b)) as Hc.
    destruct Hb as (_ & Hm & Hd). unfold days_in_month in Hd.
    destruct ((month b =? 2) && is_leap (year b)) eqn:E; [|lia].
    apply andb_true_iff in E as [E _]. apply Z.eqb_eq in E.
    assert (day b <> 29) by (intros E'; apply Hnl; now split).
    rewrite E in *. cbn in Hc. lia. }
  unfold reanchor, replace_year. rewrite (Hany (year today)) by lia.
  destruct (Date.ltb _ today); [|eauto].
  rewrite Hany by (unfold MINYEAR, MAXYEAR in *; lia). eauto.
Qed.

(** ** The accessor's properties *)

Section AccessorFacts.

Variable jwt_decode : string -> option Payload.

Lemma identifies_truthy (token : string) (owner : Z) :
  identifies jwt_decode token owner ->
  exists claims,
    truthy (decode_access_token jwt_decode token) = Some claims
    /\ get claims "user_id" = Some owner.
Proof.
  intros (claims & Hd & Hk). exists claims. unfold decode_access_token.
  rewrite Hd. split; [eapply lookup_truthy; eauto | now apply get_user_id].
Qed.

Lemma visible_owner (token : string) (owner : Z) (s : Session) (c : Contact) :
  identifies jwt_decode token owner -> visible_to jwt_decode token s c ->
  In c (table s) /\ user_id c = Some owner.
Proof.
  intros Hid Hv. destruct (identifies_truthy _ _ Hid) as (claims & Ht & Hg).
  destruct Hv as [[cid H]|[(skip & limit & H)|[[q H]|[today H]]]].
  - unfold get_contact in H. rewrite Ht, Hg in H.
    apply first_row in H as [Hin H]. split; [exact Hin|].
    cbn in H. apply andb_true_iff in H as [_ H].
    now apply col_eq_Some.
  - unfold get_contacts, all in H. rewrite Ht, Hg in H. cbn [fst] in H.
    apply returned_run in H as [Hin H]. split; [exact Hin|].
    cbn in H. now apply col_eq_Some.
  - unfold search_contacts, all in H. rewrite Ht, Hg in H.
    cbn [fst] in H.
    apply returned_run in H as [Hin H]. split; [exact Hin|]. cbn in H.
    apply andb_true_iff in H as [H _]. now apply col_eq_Some.
  - unfold get_upcoming_birthdays in H. rewrite Ht, Hg in H.
    unfold bind, lift, all in H. rewrite run_filter in H.
    destruct (add_days today 7) as [nw|]; [|contradiction].
    cbn [fst] in H.
    destruct (birthday_loop _ _ _ _) as [r|] eqn:E; [|contradiction].
    cbn [returned] in H.
    destruct (birthday_loop_sub _ _ _ _ _ E c H) as [[]|Hin].
    apply In_rows_of in Hin as [Hin' Hin]. split; [exact Hin'|].
    cbn in Hin. now apply col_eq_Some.
Qed.

(** X25. Whatever the state of the store, every contact that get, list,
    search or upcomingBirthdays hands back under a verified identity is a
    row of the table whose owner column holds that identity's user id. *)
Theorem reads_return_own_rows :
  forall token owner s,
    identifies jwt_decode token owner ->
    (forall contact_id c,
        fst (get_contact jwt_decode contact_id token s) = Ok (Some c) ->
        In c (table s) /\ user_id c = Some owner)
    /\ (forall skip limit c,
           returned (fst (get_contacts jwt_decode skip limit token s)) c ->
           In c (table s) /\ user_id c = Some owner)
    /\ (forall q c,
           returned (fst (search_contacts jwt_decode q token s)) c ->
           In c (table s) /\ user_id c = Some owner)
    /\ (forall today c,
           returned (fst (get_upcoming_birthdays jwt_decode today token s)) c ->
           In c (table s) /\ user_id c = Some owner).
Proof.
  intros token owner s Hid. split; [|split; [|split]].
  - intros contact_id c H. apply (visible_owner token owner s c Hid).
    left. now exists contact_id.
  - intros skip limit c H. apply (visible_owner token owner s c Hid).
    right. left. now exists skip, limit.
  - intros q c H. apply (visible_owner token owner s c Hid).
    right. right. left. now exists q.
  - intros today c H. apply (visible_owner token owner s c Hid).
    right. right. right. now exists today.
Qed.

(** C3. Under a verified identity, create appends one row whose owner is
    the identity's user id and whose other columns are the submitted
    fields, gives it the next generated primary key, and returns that
    persisted row; the owner field submitted by the caller has no
    influence on the outcome. *)
Theorem create_contact_owner_from_identity :
  forall token owner fields s,
    identifies jwt_decode token owner ->
    let c :=
      mkContact (next_id s) (b_first_name fields) (b_last_name fields)
        (b_email fields) (b_phone fields) (b_birthday fields)
        (b_extra fields) (Some owner) in
    create_contact jwt_decode fields token s
    = (Ok c,
       mkSession (table s ++ [c]) (next_id s + 1)
         (journal s ++ [Add_; Commit_; Refresh_]) (dialect s))
    /\ (forall supplied,
           create_contact jwt_decode (with_user_id supplied fields) token s
           = create_contact jwt_decode fields token s)
    /\ (wf s ->
        ~ In (id c) (map id (table s))
        /\ wf (snd (create_contact jwt_decode fields token s))).
Proof.
  intros token owner fields s Hid c.
  destruct (identifies_truthy _ _ Hid) as (claims & Ht & Hg).
  unfold create_contact. rewrite Ht, Hg. cbn.
  split; [reflexivity|]. split; [reflexivity|].
  intros Hwf. split; [now apply wf_fresh | now apply wf_insert].
Qed.

(** C4. When the verifier rejects the credential, each of the seven
    operations raises the 401 "Invalid token" error and hands the session
    back exactly as it received it: no row is changed and no call on the
    session has been made. *)
Theorem unauthenticated_rejected_before_store_access :
  forall token s,
    decode_access_token jwt_decode token = None ->
    (forall fields,
        create_contact jwt_decode fields token s = (Raise invalid_token, s))
    /\ (forall skip limit,
           get_contacts jwt_decode skip limit token s
           = (Raise invalid_token, s))
    /\ (forall contact_id,
           get_contact jwt_decode contact_id token s
           = (Raise invalid_token, s))
    /\ (forall contact_id partial,
           update_contact jwt_decode contact_id partial token s
           = (Raise invalid_token, s))
    /\ (forall contact_id,
           delete_contact jwt_decode contact_id token s
           = (Raise invalid_token, s))
    /\ (forall q,
           search_contacts jwt_decode q token s = (Raise invalid_token, s))
    /\ (forall today,
           get_upcoming_birthdays jwt_decode today token s
           = (Raise invalid_token, s)).
Proof.
  intros token s H.
  unfold create_contact, get_contacts, get_contact, update_contact,
    delete_contact, search_contacts, get_upcoming_birthdays.
  rewrite H. cbn. repeat split.
Qed.

(** C5. Under a verified identity and with unique primary keys: when the
    owner has a row with the given id, update returns that row with
    exactly the fields present in the partial update replaced and every
    omitted column as before (the primary key always), and the table is
    the old one with that single row rewritten in place; with no field
    present the row and the table are unchanged; when no row matches the
    id and the owner, update returns not-found and the table is
    unchanged. *)
Theorem update_contact_partial :
  forall token owner contact_id partial s,
    identifies jwt_decode token owner -> wf s ->
    let out := update_contact jwt_decode contact_id partial token s in
    (forall c,
        In c (table s) -> id c = contact_id -> user_id c = Some owner ->
        let c' := apply_update partial c in
        fst out = Ok (Some c')
        /\ table (snd out)
           = map (fun r => if id r =? contact_id then apply_update partial r
                           else r) (table s)
        /\ (forall r, In r (table s) -> r <> c -> In r (table (snd out)))
        /\ id c' = id c
        /\ first_name c' = default (first_name c) (u_first_name partial)
        /\ last_name c' = default (last_name c) (u_last_name partial)
        /\ email c' = default (email c) (u_email partial)
        /\ phone c' = default (phone c) (u_phone partial)
        /\ birthday c' = default (birthday c) (u_birthday partial)
        /\ extra c' = default (extra c) (u_extra partial)
        /\ user_id c' = default (user_id c) (u_user_id partial)
        /\ (partial = no_fields -> c' = c /\ table (snd out) = table s))
    /\ ((forall r, In r (table s) ->
                   ~ (id r = contact_id /\ user_id r = Some owner)) ->
        out = (Ok None, called [Query_] s) /\ table (snd out) = table s)
    /\ wf (snd out).
Proof.
  intros token owner contact_id partial s Hid Hwf out.
  destruct (identifies_truthy _ _ Hid) as (claims & Ht & Hg).
  assert (Hout : out
    = match head (List.filter (by_id_and_owner contact_id (Some owner))
                    (table s)) with
      | Some c =>
          (Ok (Some (apply_update partial c)),
           mkSession
             (map (fun r => if id r =? id (apply_update partial c)
                            then apply_update partial c else r) (table s))
             (next_id s) ((journal s ++ [Query_]) ++ [Commit_; Refresh_])
             (dialect s))
      | None => (Ok None, called [Query_] s)
      end).
  { subst out. unfold update_contact. rewrite Ht, Hg.
    unfold bind, first, rows_of. cbn.
    fold (by_id_and_owner contact_id (Some owner)).
    now destruct (head _). }
  split; [|split].
  - intros c Hin Hc Hu c'. subst contact_id.
    pose proof (apply_update_fields partial c) as Hf.
    destruct Hf as (Hf0 & Hf).
    rewrite (first_found s c (Some owner) Hwf Hin Hu) in Hout.
    assert (Htab : table (snd out)
                   = map (fun r => if id r =? id c
                                   then apply_update partial r else r)
                       (table s)).
    { rewrite Hout. cbn.
      apply map_replace_by_id; auto. apply Hwf. }
    split; [now rewrite Hout|]. split; [exact Htab|].
    split.
    { intros r Hr Hne. rewrite Htab. apply in_map_iff. exists r.
      split; [|exact Hr].
      destruct (id r =? id c) eqn:E; [|reflexivity].
      apply Z.eqb_eq in E. exfalso. apply Hne.
      destruct Hwf as [Hnd _]. eapply unique_by_id; eauto. }
    split; [exact Hf0|].
    repeat (split; [apply Hf|]).
    intros ->. subst c'. rewrite apply_update_no_fields. split; [reflexivity|].
    rewrite Htab. rewrite <- (map_id (table s)) at 2.
    apply map_ext. intros r. rewrite apply_update_no_fields.
    now destruct (id r =? id c).
  - intros Hnone. rewrite (first_not_found s _ _ Hnone) in Hout.
    now rewrite Hout.
  - rewrite Hout. destruct (head _) as [c|]; [|exact Hwf].
    now apply wf_replace.
Qed.

Lemma delete_contact_unfold (token : string) (owner contact_id : Z)
    (s : Session) :
  identifies jwt_decode token owner ->
  delete_contact jwt_decode contact_id token s
  = match head (List.filter (by_id_and_owner contact_id (Some owner))
                  (table s)) with
    | Some c =>
        (Ok true,
         mkSession (List.filter (fun r => negb (id r =? id c)) (table s))
           (next_id s) ((journal s ++ [Query_]) ++ [Delete_; Commit_])
           (dialect s))
    | None => (Ok false, called [Query_] s)
    end.
Proof.
  intros Hid. destruct (identifies_truthy _ _ Hid) as (claims & Ht & Hg).
  unfold delete_contact. rewrite Ht, Hg. unfold bind, first, rows_of. cbn.
  fold (by_id_and_owner contact_id (Some owner)). now destruct (head _).
Qed.

Lemma delete_contact_again (token : string) (owner contact_id : Z)
    (s : Session) :
  identifies jwt_decode token owner ->
  let s' := snd (delete_contact jwt_decode contact_id token s) in
  fst (delete_contact jwt_decode contact_id token s') = Ok false
  /\ table (snd (delete_contact jwt_decode contact_id token s')) = table s'.
Proof.
  intros Hid s'.
  assert (Hnone : List.filter (by_id_and_owner contact_id (Some owner))
                    (table s') = []).
  { subst s'. rewrite (delete_contact_unfold _ _ _ _ Hid).
    destruct (head _) as [c|] eqn:E; cbn.
    - apply head_Some_elem_of, list_elem_of_In, filter_In in E as [_ E].
      apply by_id_and_owner_true in E as [E _].
      apply head_filter_none. intros r Hr. apply filter_In in Hr as [_ Hr].
      apply not_true_is_false. rewrite by_id_and_owner_true.
      intros [Hr' _]. rewrite E, Hr', Z.eqb_refl in Hr. discriminate.
    - now destruct (List.filter _ (table s)). }
  rewrite (delete_contact_unfold _ _ _ _ Hid), Hnone. now split.
Qed.

(** C6. Under a verified identity and with unique primary keys: when the
    owner has a row with the given id, delete returns true and the table
    afterwards holds exactly the other rows, in their old order; when no
    row matches the id and the owner (the id does not exist, or its row
    belongs to somebody else), delete returns false, raises nothing and
    leaves the table as it was; deleting the same id once more returns
    false and changes nothing. *)
Theorem delete_contact_reports_removal :
  forall token owner contact_id s,
    identifies jwt_decode token owner -> wf s ->
    let out := delete_contact jwt_decode contact_id token s in
    (forall c,
        In c (table s) -> id c = contact_id -> user_id c = Some owner ->
        fst out = Ok true
        /\ table (snd out)
           = List.filter (fun r => negb (id r =? contact_id)) (table s)
        /\ (forall r, In r (table (snd out)) <-> In r (table s) /\ r <> c))
    /\ ((forall r, In r (table s) ->
                   ~ (id r = contact_id /\ user_id r = Some owner)) ->
        out = (Ok false, called [Query_] s) /\ table (snd out) = table s)
    /\ fst (delete_contact jwt_decode contact_id token (snd out)) = Ok false
    /\ table (snd (delete_contact jwt_decode contact_id token (snd out)))
       = table (snd out)
    /\ wf (snd out).
Proof.
  intros token owner contact_id s Hid Hwf out.
  pose proof (delete_contact_unfold token owner contact_id s Hid) as Hout.
  fold out in Hout.
  split; [|split; [|split; [|split]]].
  - intros c Hin Hc Hu. subst contact_id.
    rewrite (first_found s c (Some owner) Hwf Hin Hu) in Hout.
    rewrite Hout. cbn. split; [reflexivity|]. split; [reflexivity|].
    intros r. rewrite filter_In, negb_true_iff, Z.eqb_neq.
    split; intros [Hr Hne]; split; auto.
    + intros ->. now apply Hne.
    + intros E. apply Hne. destruct Hwf as [Hnd _].
      eapply unique_by_id; eauto.
  - intros Hnone. rewrite (first_not_found s _ _ Hnone) in Hout.
    now rewrite Hout.
  - apply (delete_contact_again token owner contact_id s Hid).
  - apply (delete_contact_again token owner contact_id s Hid).
  - rewrite Hout. destruct (head _); [|exact Hwf]. now apply wf_remove.
Qed.


Lemma search_contacts_unfold (token : string) (owner : Z) (q : text)
    (s : Session) :
  identifies jwt_decode token owner ->
  search_contacts jwt_decode q token s
  = (Ok (List.filter (matches_pattern (dialect s) (search_pattern q))
           (owned (Some owner) (table s))),
     called [Query_] s).
Proof.
  intros Hid. destruct (identifies_truthy _ _ Hid) as (claims & Ht & Hg).
  unfold search_contacts. rewrite Ht, Hg. unfold all. rewrite run_filter.
  unfold rows_of, owned.
  cbn [q_where q_offset q_limit filter_ query count].
  rewrite <- filter_filter. do 2 f_equal.
Qed.

Lemma matches_pattern_Matches (d : Dialect) (pattern : text) (c : Contact) :
  matches_pattern d pattern c = true
  <-> exists column,
        In column (searched c)
        /\ Matches (backslash_escapes d) (lower d pattern) (lower d column).
Proof.
  unfold matches_pattern, ilike, searched.
  rewrite !orb_true_iff, !like_Matches. split.
  - intros [[H|H]|H]; eexists; (split; [|exact H]); cbn; auto.
  - intros (column & [<-|[<-|[<-|[]]]] & H); auto.
Qed.

(** C7, as amended. Under a verified identity, search returns exactly the
    owner's rows whose first name, last name or email matches the pattern
    made of the query text between two [%] signs, and leaves the table as
    it was. Pattern and column are compared character by character after
    the store's case folding; a [%], also one inside the query, stands for
    any run of characters, a [_] for any one character, and every other
    character for itself, except that behind a backend whose LIKE has the
    backslash as default escape character a backslash makes the character
    after it stand for itself. Every owned row that contains the query
    text (without regard to case) in one of the three columns is among the
    rows returned, and when the query text holds neither [%] nor [_] the
    result is exactly those rows, as long as the query holds no such
    escape character; the empty query returns all the owner's rows. *)
Theorem search_contacts_matches_pattern :
  forall token owner q s,
    identifies jwt_decode token owner ->
    let out := search_contacts jwt_decode q token s in
    let mine := owned (Some owner) (table s) in
    let d := dialect s in
    let esc := backslash_escapes d in
    fst out = Ok (List.filter (matches_pattern d (search_pattern q)) mine)
    /\ table (snd out) = table s
    /\ (forall c,
           returned (fst out) c
           <-> In c mine
               /\ exists column,
                    In column (searched c)
                    /\ Matches esc (PERCENT :: lower d q ++ [PERCENT])
                         (lower d column))
    /\ (has_escape esc q = false ->
        forall c, In c mine -> contains_query d q c = true ->
                  returned (fst out) c)
    /\ (has_escape esc q = false -> has_wildcard q = false ->
        fst out = Ok (List.filter (contains_query d q) mine))
    /\ (q = [] -> fst out = Ok mine).
Proof.
  intros token owner q s Hid out mine d esc. subst out.
  rewrite (search_contacts_unfold _ _ _ _ Hid). fold mine. fold d.
  cbn [fst snd].
  split; [reflexivity|]. split; [reflexivity|]. split; [|split; [|split]].
  - intros c. cbn [returned]. rewrite filter_In, matches_pattern_Matches.
    now rewrite lower_search_pattern.
  - intros He c Hc Hq. cbn. apply filter_In. split; [exact Hc|].
    unfold contains_query in Hq. unfold matches_pattern.
    apply orb_true_iff in Hq as [Hq|Hq];
      [apply orb_true_iff in Hq as [Hq|Hq]|];
      apply (contains_ci_ilike d _ q He) in Hq; rewrite Hq;
      rewrite ?orb_true_r; reflexivity.
  - intros He Hw. f_equal. apply List.filter_ext. intros c.
    unfold matches_pattern, contains_query.
    now rewrite !ilike_literal by assumption.
  - intros ->. f_equal. apply filter_all. intros c _.
    unfold matches_pattern. now rewrite ilike_empty.
Qed.

Lemma search_percent_all (token : string) (owner : Z) (s : Session) :
  identifies jwt_decode token owner ->
  fst (search_contacts jwt_decode (str "%") token s)
  = Ok (owned (Some owner) (table s)).
Proof.
  intros Hid. rewrite (search_contacts_unfold _ _ _ _ Hid). cbn [fst].
  f_equal. apply filter_all. intros c _.
  unfold matches_pattern. change (str "%") with [PERCENT].
  now rewrite ilike_percent.
Qed.

Lemma get_upcoming_birthdays_unfold (token : string) (owner : Z)
    (today next_week : date) (s : Session) :
  identifies jwt_decode token owner ->
  add_days today 7 = Ok next_week ->
  get_upcoming_birthdays jwt_decode today token s
  = (birthday_loop today next_week [] (owned (Some owner) (table s)),
     called [Query_] s).
Proof.
  intros Hid Hnw. destruct (identifies_truthy _ _ Hid) as (claims & Ht & Hg).
  unfold get_upcoming_birthdays. rewrite Ht, Hg, Hnw.
  unfold bind, lift, all, rows_of, owned. cbn. reflexivity.
Qed.

(** Where every birthday of the owner can be re-anchored, the operation
    returns the owner's rows whose re-anchored birthday lies in the
    window from today to today plus seven days, both ends included. *)
Lemma get_upcoming_birthdays_window (token : string) (owner : Z)
    (today next_week : date) (s : Session) :
  identifies jwt_decode token owner ->
  add_days today 7 = Ok next_week ->
  (forall c, In c (owned (Some owner) (table s)) ->
             exists d, reanchor today (birthday c) = Ok d) ->
  fst (get_upcoming_birthdays jwt_decode today token s)
  = Ok (List.filter (fun c => upcoming today next_week (birthday c))
          (owned (Some owner) (table s))).
Proof.
  intros Hid Hnw Hall.
  rewrite (get_upcoming_birthdays_unfold _ _ _ _ _ Hid Hnw). cbn [fst].
  now rewrite birthday_loop_total.
Qed.

(** C9. Under a verified identity, when the owner has a contact born on
    29 February and today's year is not a leap year, or is one in which
    29 February is already past (so that the birthday is moved to the
    next year, never a leap year), the re-anchoring raises [ValueError]
    and the operation returns no list. *)
Theorem get_upcoming_birthdays_leap_day_raises :
  forall token owner today next_week s c,
    identifies jwt_decode token owner ->
    Date.valid today = true ->
    add_days today 7 = Ok next_week ->
    In c (table s) -> user_id c = Some owner ->
    leap_day (birthday c) -> leap_day_unreachable today ->
    fst (get_upcoming_birthdays jwt_decode today token s) = Raise ValueError.
Proof.
  intros token owner today next_week s c Hid Hv Hnw Hin Hu Hb Ht.
  rewrite (get_upcoming_birthdays_unfold _ _ _ _ _ Hid Hnw). cbn [fst].
  apply birthday_loop_raises with (c := c).
  - now apply In_owned.
  - now apply reanchor_leap_day.
Qed.

End AccessorFacts.

(** ** The properties at work *)

Lemma alice_identified : identifies Demo.jwt_decode "alice.jwt" 1.
Proof. exists Demo.alice_claims. split; reflexivity. Qed.

Lemma bob_identified : identifies Demo.jwt_decode "bob.jwt" 2.
Proof. exists Demo.bob_claims. split; reflexivity. Qed.

Lemma db1_table :
  table Demo.db1 = [Demo.john_row; Demo.mary_row; Demo.newyear_row].
Proof. reflexivity. Qed.

Lemma db1_wf : wf Demo.db1.
Proof.
  split.
  - rewrite db1_table. cbn. repeat constructor; cbn; intuition discriminate.
  - rewrite db1_table. repeat constructor.
Qed.

(** The three cases of the birthday window, whatever the stored year. *)
Example birthday_window_examples :
  add_days (mkDate 2024 6 25) 7 = Ok (mkDate 2024 7 2)
  /\ (forall y, upcoming (mkDate 2024 6 25) (mkDate 2024 7 2) (mkDate y 6 28)
                = true)
  /\ (forall y, reanchor (mkDate 2024 6 25) (mkDate y 12 30)
                = Ok (mkDate 2024 12 30))
  /\ (forall y, upcoming (mkDate 2024 6 25) (mkDate 2024 7 2) (mkDate y 12 30)
                = false)
  /\ add_days (mkDate 2024 12 28) 7 = Ok (mkDate 2025 1 4)
  /\ (forall y, reanchor (mkDate 2024 12 28) (mkDate y 1 1)
                = Ok (mkDate 2025 1 1))
  /\ (forall y, upcoming (mkDate 2024 12 28) (mkDate 2025 1 4) (mkDate y 1 1)
                = true).
Proof. repeat split. Qed.

Example upcoming_in_june :
  fst (get_upcoming_birthdays Demo.jwt_decode (mkDate 2024 6 25) "alice.jwt"
         Demo.db1)
  = Ok [Demo.john_row].
Proof. reflexivity. Qed.

Example upcoming_at_new_year :
  fst (get_upcoming_birthdays Demo.jwt_decode (mkDate 2024 12 28) "alice.jwt"
         Demo.db1)
  = Ok [Demo.mary_row; Demo.newyear_row].
Proof. reflexivity. Qed.

Example search_jo :
  fst (search_contacts Demo.jwt_decode (str "jo") "alice.jwt" Demo.db1)
  = Ok [Demo.john_row; Demo.mary_row].
Proof. reflexivity. Qed.

(** A wildcard stands for a character, not for a byte of its encoding: the
    query [j_hn] finds the first name [jöhn], whose [ö] is one character
    and two bytes in UTF-8, and the pattern [j__hn] does not match it. *)
Example search_beyond_ascii :
  let s := snd (create_contact Demo.jwt_decode Demo.joehn "alice.jwt"
                  Demo.empty_db) in
  b_first_name Demo.joehn = [106; 246; 104; 110]
  /\ (exists c,
         fst (search_contacts Demo.jwt_decode (str "j_hn") "alice.jwt" s)
         = Ok [c]
         /\ first_name c = b_first_name Demo.joehn)
  /\ like false (str "j_hn") [106; 246; 104; 110] = true
  /\ like false (str "j__hn") [106; 246; 104; 110] = false.
Proof.
  split; [reflexivity|]. split; [eexists; split; reflexivity|].
  split; reflexivity.
Qed.

(** Where the backslash escapes, the pattern [%o\_%] asks for an [o]
    followed by an underscore; where it does not, for an [o], a backslash
    and any one character. *)
Example like_backslash :
  like true (str "%o\_%") (str "jo_e") = true
  /\ like true (str "%o\_%") (str "john") = false
  /\ like false (str "%o\_%") (str "jo_e") = false
  /\ like false (str "%o\_%") (str "o\n") = true
  /\ fst (search_contacts Demo.jwt_decode (str "o_") "alice.jwt"
            Demo.db1_strict)
     = Ok [Demo.john_row; Demo.mary_row; Demo.newyear_row]
  /\ fst (search_contacts Demo.jwt_decode (str "o\_") "alice.jwt"
            Demo.db1_strict)
     = Ok [].
Proof. repeat split. Qed.

(** The owner column is a field like the others for update: Alice can
    submit Bob's id for her row, which from then on is Bob's row. *)
Example update_assigns_submitted_owner :
  let s := snd (update_contact Demo.jwt_decode 1 Demo.hand_over "alice.jwt"
                  Demo.db1) in
  fst (get_contacts Demo.jwt_decode 0 100 "bob.jwt" Demo.db1) = Ok []
  /\ fst (get_contacts Demo.jwt_decode 0 100 "bob.jwt" s)
     = Ok [setattr Demo.john_row (F_user_id (Some 2))]
  /\ fst (get_contact Demo.jwt_decode 1 "alice.jwt" s) = Ok None.
Proof. repeat split. Qed.

(** C1. A contact that Alice created reaches Bob. Alice creates John, who
    gets the primary key 1 and Alice's id as owner, and Bob's reads do not
    show him. Alice then sends the update route a body with John's five
    mandatory fields and [user_id] naming Bob: unlike create, which drops a
    submitted [user_id], update assigns it. From then on the contact, the
    same primary key and the same fields, is handed to Bob by get, list,
    search and upcomingBirthdays, and Alice no longer finds it. *)
Theorem created_contact_reaches_other_owner :
  let created :=
    create_contact Demo.jwt_decode Demo.john "alice.jwt" Demo.empty_db in
  let s1 := snd created in
  let s2 :=
    snd (update_contact Demo.jwt_decode 1 Demo.john_to_bob "alice.jwt" s1) in
  let johns := setattr Demo.john_row (F_user_id (Some 2)) in
  identifies Demo.jwt_decode "alice.jwt" 1
  /\ identifies Demo.jwt_decode "bob.jwt" 2
  /\ fst created = Ok Demo.john_row
  /\ user_id Demo.john_row = Some 1
  /\ fst (get_contact Demo.jwt_decode 1 "bob.jwt" s1) = Ok None
  /\ fst (get_contacts Demo.jwt_decode 0 100 "bob.jwt" s1) = Ok []
  /\ fst (update_contact Demo.jwt_decode 1 Demo.john_to_bob "alice.jwt" s1)
     = Ok (Some johns)
  /\ id johns = id Demo.john_row
  /\ fst (get_contact Demo.jwt_decode 1 "bob.jwt" s2) = Ok (Some johns)
  /\ fst (get_contacts Demo.jwt_decode 0 100 "bob.jwt" s2) = Ok [johns]
  /\ fst (search_contacts Demo.jwt_decode (str "jo") "bob.jwt" s2)
     = Ok [johns]
  /\ fst (get_upcoming_birthdays Demo.jwt_decode (mkDate 2024 6 25) "bob.jwt"
            s2)
     = Ok [johns]
  /\ fst (get_contact Demo.jwt_decode 1 "alice.jwt" s2) = Ok None.
Proof.
  cbv zeta. split; [exact alice_identified|]. split; [exact bob_identified|].
  repeat split; vm_compute; reflexivity.
Qed.

(** C2. With today = 2024-06-25 and an owner who has John, born on 28 June,
    and a contact born on 29 February 2000: John's birthday re-anchors to
    2024-06-28, inside the window that ends on 2024-07-02, yet the
    operation raises [ValueError] on the other contact and returns no list
    at all. *)
Theorem upcoming_birthdays_fails_beside_leap_day :
  let today := mkDate 2024 6 25 in
  table Demo.db_leap = [Demo.john_row; Demo.leapling_row]
  /\ add_days today 7 = Ok (mkDate 2024 7 2)
  /\ reanchor today (birthday Demo.john_row) = Ok (mkDate 2024 6 28)
  /\ in_window today (mkDate 2024 7 2) (mkDate 2024 6 28) = true
  /\ fst (get_upcoming_birthdays Demo.jwt_decode today "alice.jwt" Demo.db_leap)
     = Raise ValueError.
Proof. repeat split. Qed.

Lemma db_leap_table :
  table Demo.db_leap = [Demo.john_row; Demo.leapling_row].
Proof. reflexivity. Qed.

(** C10. The query text ["%"] holds a wildcard and makes search return all
    the owner's rows, whatever their columns hold: in the example John is
    returned although neither his names nor his email contain a percent
    sign. *)
Theorem search_wildcard_not_literal :
  (forall jwt_decode token owner s,
      identifies jwt_decode token owner ->
      fst (search_contacts jwt_decode (str "%") token s)
      = Ok (owned (Some owner) (table s)))
  /\ has_wildcard (str "%") = true
  /\ returned
       (fst (search_contacts Demo.jwt_decode (str "%") "alice.jwt" Demo.db1))
       Demo.john_row
  /\ contains_ci Demo.sqlite (first_name Demo.john_row) (str "%") = false
  /\ contains_ci Demo.sqlite (last_name Demo.john_row) (str "%") = false
  /\ contains_ci Demo.sqlite (email Demo.john_row) (str "%") = false.
Proof.
  split; [intros; now apply search_percent_all|].
  split; [reflexivity|].
  split; [vm_compute; left; reflexivity|].
  repeat split; vm_compute; reflexivity.
Qed.

Lemma search_wildcard_not_literal_witness :
  identifies Demo.jwt_decode "alice.jwt" 1
  /\ fst (search_contacts Demo.jwt_decode (str "%") "alice.jwt" Demo.db1)
     = Ok [Demo.john_row; Demo.mary_row; Demo.newyear_row].
Proof.
  split; [exact alice_identified|].
  exact (proj1 search_wildcard_not_literal Demo.jwt_decode "alice.jwt" 1
           Demo.db1 alice_identified).
Defined.

(** Against C7 as stated: the query ["j_h"] returns John, none of whose
    first name, last name and email contains the text [j_h]. *)
Lemma search_underscore_counterexample :
  returned
    (fst (search_contacts Demo.jwt_decode (str "j_h") "alice.jwt" Demo.db1))
    Demo.john_row
  /\ contains_query Demo.sqlite (str "j_h") Demo.john_row = false
  /\ ~ (forall c,
           returned
             (fst (search_contacts Demo.jwt_decode (str "j_h") "alice.jwt"
                     Demo.db1))
             c
           <-> In c (owned (Some 1) (table Demo.db1))
               /\ contains_query Demo.sqlite (str "j_h") c = true).
Proof.
  assert (H : returned
                (fst (search_contacts Demo.jwt_decode (str "j_h") "alice.jwt"
                        Demo.db1)) Demo.john_row).
  { vm_compute. left. reflexivity. }
  assert (Hq : contains_query Demo.sqlite (str "j_h") Demo.john_row = false).
  { vm_compute. reflexivity. }
  split; [exact H|]. split; [exact Hq|].
  intros Hall. destruct (Hall Demo.john_row) as [Hd _].
  destruct (Hd H) as [_ Hc]. rewrite Hq in Hc. discriminate Hc.
Qed.


Lemma reads_return_own_rows_witness :
  identifies Demo.jwt_decode "alice.jwt" 1
  /\ returned
       (fst (search_contacts Demo.jwt_decode (str "jo") "alice.jwt" Demo.db1))
       Demo.mary_row
  /\ In Demo.mary_row (table Demo.db1)
  /\ user_id Demo.mary_row = Some 1.
Proof.
  assert (H : returned
                (fst (search_contacts Demo.jwt_decode (str "jo") "alice.jwt"
                        Demo.db1)) Demo.mary_row).
  { vm_compute. right. left. reflexivity. }
  split; [exact alice_identified|]. split; [exact H|].
  destruct (reads_return_own_rows Demo.jwt_decode "alice.jwt" 1 Demo.db1
              alice_identified) as (_ & _ & Hs & _).
  exact (Hs (str "jo") Demo.mary_row H).
Defined.

Lemma create_contact_owner_from_identity_witness :
  identifies Demo.jwt_decode "alice.jwt" 1
  /\ b_user_id Demo.john = Some 2
  /\ create_contact Demo.jwt_decode Demo.john "alice.jwt" Demo.empty_db
     = (Ok Demo.john_row,
        mkSession [Demo.john_row] 2 [Add_; Commit_; Refresh_] Demo.sqlite).
Proof.
  split; [exact alice_identified|]. split; [reflexivity|].
  exact (proj1 (create_contact_owner_from_identity Demo.jwt_decode "alice.jwt"
                  1 Demo.john Demo.empty_db alice_identified)).
Defined.

Lemma unauthenticated_rejected_witness :
  decode_access_token Demo.jwt_decode "forged.jwt" = None
  /\ delete_contact Demo.jwt_decode 1 "forged.jwt" Demo.db1
     = (Raise invalid_token, Demo.db1).
Proof.
  split; [reflexivity|].
  destruct (unauthenticated_rejected_before_store_access Demo.jwt_decode
              "forged.jwt" Demo.db1 eq_refl) as (_ & _ & _ & _ & H & _).
  exact (H 1).
Defined.

Lemma update_contact_partial_witness :
  identifies Demo.jwt_decode "alice.jwt" 1
  /\ wf Demo.db1
  /\ In Demo.mary_row (table Demo.db1)
  /\ fst (update_contact Demo.jwt_decode 2 Demo.new_phone "alice.jwt" Demo.db1)
     = Ok (Some (apply_update Demo.new_phone Demo.mary_row))
  /\ phone (apply_update Demo.new_phone Demo.mary_row) = str "555-0199"
  /\ email (apply_update Demo.new_phone Demo.mary_row)
     = str "mary@example.com".
Proof.
  assert (Hin : In Demo.mary_row (table Demo.db1)).
  { rewrite db1_table. right. left. reflexivity. }
  split; [exact alice_identified|]. split; [exact db1_wf|].
  split; [exact Hin|].
  destruct (update_contact_partial Demo.jwt_decode "alice.jwt" 1 2
              Demo.new_phone Demo.db1 alice_identified db1_wf) as [H _].
  destruct (H Demo.mary_row Hin eq_refl eq_refl)
    as (Hres & _ & _ & _ & _ & _ & Hemail & Hphone & _).
  split; [exact Hres|]. split; [exact Hphone | exact Hemail].
Defined.

Lemma delete_contact_reports_removal_witness :
  identifies Demo.jwt_decode "alice.jwt" 1
  /\ wf Demo.db1
  /\ In Demo.mary_row (table Demo.db1)
  /\ fst (delete_contact Demo.jwt_decode 2 "alice.jwt" Demo.db1) = Ok true.
Proof.
  assert (Hin : In Demo.mary_row (table Demo.db1)).
  { rewrite db1_table. right. left. reflexivity. }
  split; [exact alice_identified|]. split; [exact db1_wf|].
  split; [exact Hin|].
  destruct (delete_contact_reports_removal Demo.jwt_decode "alice.jwt" 1 2
              Demo.db1 alice_identified db1_wf) as [H _].
  destruct (H Demo.mary_row Hin eq_refl eq_refl) as [Hres _]. exact Hres.
Defined.

Lemma search_contacts_matches_pattern_witness :
  identifies Demo.jwt_decode "alice.jwt" 1
  /\ fst (search_contacts Demo.jwt_decode (str "jo") "alice.jwt" Demo.db1)
     = Ok (List.filter
             (matches_pattern Demo.sqlite (search_pattern (str "jo")))
             (owned (Some 1) (table Demo.db1))).
Proof.
  split; [exact alice_identified|].
  exact (proj1 (search_contacts_matches_pattern Demo.jwt_decode "alice.jwt" 1
                  (str "jo") Demo.db1 alice_identified)).
Defined.


Lemma get_upcoming_birthdays_leap_day_raises_witness :
  identifies Demo.jwt_decode "alice.jwt" 1
  /\ Date.valid (mkDate 2023 6 25) = true
  /\ add_days (mkDate 2023 6 25) 7 = Ok (mkDate 2023 7 2)
  /\ In Demo.leapling_row (table Demo.db_leap)
  /\ Date.valid (birthday Demo.leapling_row) = true
  /\ leap_day (birthday Demo.leapling_row)
  /\ leap_day_unreachable (mkDate 2023 6 25)
  /\ fst (get_upcoming_birthdays Demo.jwt_decode (mkDate 2023 6 25)
            "alice.jwt" Demo.db_leap)
     = Raise ValueError.
Proof.
  assert (Hin : In Demo.leapling_row (table Demo.db_leap)).
  { rewrite db_leap_table. right. left. reflexivity. }
  assert (Hb : leap_day (birthday Demo.leapling_row)).
  { split; reflexivity. }
  assert (Ht : leap_day_unreachable (mkDate 2023 6 25)).
  { left. reflexivity. }
  split; [exact alice_identified|]. split; [reflexivity|].
  split; [reflexivity|]. split; [exact Hin|]. split; [reflexivity|].
  split; [exact Hb|]. split; [exact Ht|].
  exact (get_upcoming_birthdays_leap_day_raises Demo.jwt_decode "alice.jwt" 1
           (mkDate 2023 6 25) (mkDate 2023 7 2) Demo.db_leap Demo.leapling_row
           alice_identified eq_refl eq_refl Hin eq_refl Hb Ht).
Defined.

(** ** Further properties of the accessor *)

Lemma firstn_plus {A} (a b : nat) (l : list A) :
  firstn (a + b) l = firstn a l ++ firstn b (skipn a l).
Proof.
  revert l. induction a as [|a IH]; intros [|x l]; cbn;
    rewrite ?firstn_nil; try reflexivity.
  now rewrite IH.
Qed.

Lemma filter_fresh_id (t : list Contact) (row : Contact) :
  Forall (fun c => id c < id row) t ->
  List.filter (fun r => negb (id r =? id row)) (t ++ [row]) = t.
Proof.
  intros H. rewrite List.filter_app. cbn. rewrite Z.eqb_refl. cbn.
  rewrite app_nil_r. apply filter_all. intros x Hx.
  rewrite List.Forall_forall in H. specialize (H x Hx).
  apply negb_true_iff, Z.eqb_neq. lia.
Qed.

Lemma apply_update_twice (u : ContactUpdate) (c : Contact) :
  apply_update u (apply_update u c) = apply_update u c.
Proof. destruct u as [[?|] [?|] [?|] [?|] [?|] [?|] [?|]]; reflexivity. Qed.

Lemma truthy_empty : truthy (Some (∅ : Payload)) = None.
Proof. reflexivity. Qed.

Lemma like_ext_lower (d : Dialect) (q q' column : text) :
  lower d q = lower d q' ->
  ilike d column (search_pattern q) = ilike d column (search_pattern q').
Proof.
  intros H. unfold ilike. now rewrite !lower_search_pattern, H.
Qed.

Section AccessorMore.

Variable jwt_decode : string -> option Payload.

Lemma create_contact_unfold (token : string) (owner : Z)
    (fields : ContactCreate) (s : Session) :
  identifies jwt_decode token owner ->
  create_contact jwt_decode fields token s
  = db_add_commit_refresh
      (new_Contact (model_dump_pop_user_id fields) (Some owner)) s.
Proof.
  intros Hid. destruct (identifies_truthy _ _ _ Hid) as (claims & Ht & Hg).
  unfold create_contact. now rewrite Ht, Hg.
Qed.

Lemma get_contact_unfold (token : string) (owner contact_id : Z)
    (s : Session) :
  identifies jwt_decode token owner ->
  get_contact jwt_decode contact_id token s
  = (Ok (head (List.filter (by_id_and_owner contact_id (Some owner))
                 (table s))),
     called [Query_] s).
Proof.
  intros Hid. destruct (identifies_truthy _ _ _ Hid) as (claims & Ht & Hg).
  unfold get_contact. now rewrite Ht, Hg.
Qed.

Lemma get_contacts_unfold (token : string) (owner skip limit : Z)
    (s : Session) :
  identifies jwt_decode token owner -> 0 <= skip -> 0 <= limit ->
  get_contacts jwt_decode skip limit token s
  = (Ok (firstn (Z.to_nat limit)
           (skipn (Z.to_nat skip) (owned (Some owner) (table s)))),
     called [Query_] s).
Proof.
  intros Hid Hs Hl.
  destruct (identifies_truthy _ _ _ Hid) as (claims & Ht & Hg).
  unfold get_contacts. rewrite Ht, Hg. unfold all. now rewrite run_page.
Qed.

Lemma update_contact_unfold (token : string) (owner contact_id : Z)
    (partial : ContactUpdate) (s : Session) :
  identifies jwt_decode token owner ->
  update_contact jwt_decode contact_id partial token s
  = match head (List.filter (by_id_and_owner contact_id (Some owner))
                  (table s)) with
    | Some c =>
        (Ok (Some (apply_update partial c)),
         mkSession
           (map (fun r => if id r =? id (apply_update partial c)
                          then apply_update partial c else r) (table s))
           (next_id s) ((journal s ++ [Query_]) ++ [Commit_; Refresh_])
           (dialect s))
    | None => (Ok None, called [Query_] s)
    end.
Proof.
  intros Hid. destruct (identifies_truthy _ _ _ Hid) as (claims & Ht & Hg).
  unfold update_contact. rewrite Ht, Hg. unfold bind, first, rows_of. cbn.
  fold (by_id_and_owner contact_id (Some owner)). now destruct (head _).
Qed.

(** What update does to the table when the owner has the row. *)
Lemma update_contact_found (token : string) (owner : Z)
    (partial : ContactUpdate) (s : Session) (c : Contact) :
  identifies jwt_decode token owner -> wf s ->
  In c (table s) -> user_id c = Some owner ->
  update_contact jwt_decode (id c) partial token s
  = (Ok (Some (apply_update partial c)),
     mkSession
       (map (fun r => if id r =? id c then apply_update partial r else r)
          (table s))
       (next_id s) ((journal s ++ [Query_]) ++ [Commit_; Refresh_])
       (dialect s)).
Proof.
  intros Hid Hwf Hin Hu. rewrite (update_contact_unfold _ _ _ _ _ Hid).
  rewrite (first_found s c (Some owner) Hwf Hin Hu). do 2 f_equal.
  apply map_replace_by_id; auto; [apply Hwf|].
  apply (apply_update_fields partial c).
Qed.

Lemma In_updated (t : list Contact) (c : Contact) (f : Contact -> Contact) :
  In c t ->
  In (f c) (map (fun r => if id r =? id c then f r else r) t).
Proof.
  intros Hin. apply in_map_iff. exists c. now rewrite Z.eqb_refl.
Qed.

(** X1. Under a verified identity and with unique primary keys, get
    returns a row exactly when the table holds a row with that id owned by
    the requester, and then it is that row; an id that does not exist and
    an id that belongs to somebody else both give [None]; the table is left
    as it was. *)
Theorem get_contact_found_iff_owned :
  forall token owner s,
    identifies jwt_decode token owner -> wf s ->
    (forall c, In c (table s) -> user_id c = Some owner ->
               fst (get_contact jwt_decode (id c) token s) = Ok (Some c))
    /\ (forall contact_id,
           (forall r, In r (table s) ->
                      ~ (id r = contact_id /\ user_id r = Some owner)) ->
           fst (get_contact jwt_decode contact_id token s) = Ok None)
    /\ (forall contact_id r,
           fst (get_contact jwt_decode contact_id token s) = Ok (Some r) ->
           In r (table s) /\ id r = contact_id /\ user_id r = Some owner)
    /\ (forall contact_id,
           table (snd (get_contact jwt_decode contact_id token s)) = table s).
Proof.
  intros token owner s Hid Hwf. split; [|split; [|split]].
  - intros c Hin Hu. rewrite (get_contact_unfold _ _ _ _ Hid). cbn [fst].
    now rewrite (first_found s c (Some owner) Hwf Hin Hu).
  - intros cid Hnone. rewrite (get_contact_unfold _ _ _ _ Hid). cbn [fst].
    now rewrite (first_not_found s _ _ Hnone).
  - intros cid r H. rewrite (get_contact_unfold _ _ _ _ Hid) in H.
    cbn [fst] in H. injection H as H.
    apply head_Some_elem_of, list_elem_of_In, filter_In in H as [Hin H].
    apply by_id_and_owner_true in H. tauto.
  - intros cid. now rewrite (get_contact_unfold _ _ _ _ Hid).
Qed.

(** X2. Under a verified identity and with unique primary keys, the row
    that create returns can be read back: get with the returned id and the
    same token gives exactly that row. *)
Theorem create_then_get :
  forall token owner fields s,
    identifies jwt_decode token owner -> wf s ->
    exists c,
      fst (create_contact jwt_decode fields token s) = Ok c
      /\ fst (get_contact jwt_decode (id c) token
                (snd (create_contact jwt_decode fields token s)))
         = Ok (Some c).
Proof.
  intros token owner fields s Hid Hwf.
  rewrite (create_contact_unfold _ _ _ _ Hid). unfold db_add_commit_refresh.
  cbn [fst snd]. eexists. split; [reflexivity|].
  rewrite (get_contact_unfold _ _ _ _ Hid). cbn [fst]. f_equal.
  apply first_found.
  - now apply wf_insert.
  - cbn. apply in_or_app. right. now left.
  - reflexivity.
Qed.

(** X3. Under a verified identity and with unique primary keys, deleting
    the row that create has just returned reports [True] and gives back the
    table as it was before the create. *)
Theorem create_then_delete :
  forall token owner fields s,
    identifies jwt_decode token owner -> wf s ->
    exists c,
      let s1 := snd (create_contact jwt_decode fields token s) in
      fst (create_contact jwt_decode fields token s) = Ok c
      /\ fst (delete_contact jwt_decode (id c) token s1) = Ok true
      /\ table (snd (delete_contact jwt_decode (id c) token s1)) = table s.
Proof.
  intros token owner fields s Hid Hwf.
  rewrite (create_contact_unfold _ _ _ _ Hid). unfold db_add_commit_refresh.
  cbn [fst snd]. eexists. split; [reflexivity|].
  rewrite (delete_contact_unfold _ _ _ _ _ Hid).
  set (c := new_Contact (model_dump_pop_user_id fields) (Some owner)
              (next_id s)).
  set (s1 := mkSession (table s ++ [c]) (next_id s + 1) _ _).
  assert (Hfound : head (List.filter (by_id_and_owner (id c) (Some owner))
                           (table s1)) = Some c).
  { apply first_found.
    - now apply wf_insert.
    - cbn. apply in_or_app. right. now left.
    - reflexivity. }
  rewrite Hfound. cbn [fst snd table]. split; [reflexivity|].
  apply filter_fresh_id. apply Hwf.
Qed.

(** X4. A token that decodes to an empty set of claims is treated like an
    invalid one: each of the seven operations raises the 401 "Invalid
    token" error and hands the session back exactly as it received it. *)
Theorem empty_claims_rejected :
  forall token s,
    decode_access_token jwt_decode token = Some ∅ ->
    (forall fields,
        create_contact jwt_decode fields token s = (Raise invalid_token, s))
    /\ (forall skip limit,
           get_contacts jwt_decode skip limit token s
           = (Raise invalid_token, s))
    /\ (forall contact_id,
           get_contact jwt_decode contact_id token s
           = (Raise invalid_token, s))
    /\ (forall contact_id partial,
           update_contact jwt_decode contact_id partial token s
           = (Raise invalid_token, s))
    /\ (forall contact_id,
           delete_contact jwt_decode contact_id token s
           = (Raise invalid_token, s))
    /\ (forall q,
           search_contacts jwt_decode q token s = (Raise invalid_token, s))
    /\ (forall today,
           get_upcoming_birthdays jwt_decode today token s
           = (Raise invalid_token, s)).
Proof.
  intros token s H.
  unfold create_contact, get_contacts, get_contact, update_contact,
    delete_contact, search_contacts, get_upcoming_birthdays.
  rewrite H, truthy_empty. repeat split.
Qed.

(** X5. Search does not depend on the letter case of the query text: two
    query texts that are equal after case folding give the same answer and
    the same session, for every token and every store. *)
Theorem search_ignores_query_case :
  forall q q' token s,
    lower (dialect s) q = lower (dialect s) q' ->
    search_contacts jwt_decode q token s
    = search_contacts jwt_decode q' token s.
Proof.
  intros q q' token s H. unfold search_contacts.
  destruct (truthy _) as [payload|]; [|reflexivity].
  unfold all. rewrite !run_filter. unfold rows_of.
  cbn [q_where q_offset q_limit filter_ query count].
  do 2 f_equal. apply List.filter_ext. intros c.
  now rewrite !(like_ext_lower _ q q' _ H).
Qed.

(** X6. Under a verified identity and for non-negative skip and limits,
    consecutive pages fit together: the page of [limit1] rows at [skip]
    followed by the page of [limit2] rows at [skip + limit1] is the page of
    [limit1 + limit2] rows at [skip]. *)
Theorem get_contacts_pages_concatenate :
  forall token owner skip limit1 limit2 s,
    identifies jwt_decode token owner ->
    0 <= skip -> 0 <= limit1 -> 0 <= limit2 ->
    exists page1 page2,
      fst (get_contacts jwt_decode skip limit1 token s) = Ok page1
      /\ fst (get_contacts jwt_decode (skip + limit1) limit2 token s)
         = Ok page2
      /\ fst (get_contacts jwt_decode skip (limit1 + limit2) token s)
         = Ok (page1 ++ page2).
Proof.
  intros token owner skip limit1 limit2 s Hid Hs H1 H2.
  rewrite !(get_contacts_unfold _ _ _ _ _ Hid) by lia. cbn [fst].
  eexists. eexists. split; [reflexivity|]. split; [reflexivity|].
  f_equal. rewrite !Z2Nat.inj_add by lia.
  rewrite firstn_plus, skipn_skipn. do 3 f_equal. lia.
Qed.

(** X7. Under a verified identity and with unique primary keys, repeating
    an update that does not give the row to another owner changes nothing
    more: the second call returns the same row as the first and leaves the
    table as the first call left it. *)
Theorem update_contact_idempotent :
  forall token owner partial s c,
    identifies jwt_decode token owner -> wf s ->
    In c (table s) -> user_id c = Some owner ->
    (u_user_id partial = None \/ u_user_id partial = Some (Some owner)) ->
    let once := update_contact jwt_decode (id c) partial token s in
    let twice := update_contact jwt_decode (id c) partial token (snd once) in
    fst once = Ok (Some (apply_update partial c))
    /\ fst twice = fst once
    /\ table (snd twice) = table (snd once).
Proof.
  intros token owner partial s c Hid Hwf Hin Hu Hkeep once twice.
  pose proof (apply_update_fields partial c) as (Hid' & _ & _ & _ & _ & _ & _ & Hown).
  assert (Hown' : user_id (apply_update partial c) = Some owner).
  { rewrite Hown, Hu. now destruct Hkeep as [-> | ->]. }
  pose proof (update_contact_found token owner partial s c Hid Hwf Hin Hu)
    as Honce. fold once in Honce.
  assert (Hwf1 : wf (snd once)).
  { rewrite Honce. cbn [snd].
    rewrite <- (map_replace_by_id (table s) c (apply_update partial c)
                  (apply_update partial)); auto; [|apply Hwf].
    now apply wf_replace. }
  assert (Hin1 : In (apply_update partial c) (table (snd once))).
  { rewrite Honce. cbn [snd table]. now apply In_updated. }
  pose proof (update_contact_found token owner partial (snd once)
                (apply_update partial c) Hid Hwf1 Hin1 Hown') as Htwice.
  rewrite Hid' in Htwice. fold twice in Htwice.
  rewrite Honce, Htwice. cbn [fst snd table].
  rewrite apply_update_twice. split; [reflexivity|]. split; [reflexivity|].
  rewrite Honce. cbn [snd table]. rewrite map_map. apply map_ext. intros r.
  destruct (id r =? id c) eqn:E; [|now rewrite E].
  pose proof (apply_update_fields partial r) as (Hr & _).
  now rewrite Hr, E, apply_update_twice.
Qed.

(** X8. Under verified identities and with unique primary keys: when an
    owner updates a row of theirs with the [user_id] field set to another
    user's id, the row becomes that user's. Afterwards get with the old
    owner's token finds nothing under that id, and get with the other
    user's token returns the row. *)
Theorem update_hands_row_over :
  forall tokenA tokenB ownerA ownerB partial s c,
    identifies jwt_decode tokenA ownerA ->
    identifies jwt_decode tokenB ownerB ->
    ownerA <> ownerB -> wf s ->
    In c (table s) -> user_id c = Some ownerA ->
    u_user_id partial = Some (Some ownerB) ->
    let s1 := snd (update_contact jwt_decode (id c) partial tokenA s) in
    user_id (apply_update partial c) = Some ownerB
    /\ fst (get_contact jwt_decode (id c) tokenA s1) = Ok None
    /\ fst (get_contact jwt_decode (id c) tokenB s1)
       = Ok (Some (apply_update partial c)).
Proof.
  intros tokenA tokenB ownerA ownerB partial s c HA HB Hne Hwf Hin Hu Hgive s1.
  pose proof (apply_update_fields partial c) as (Hid' & _ & _ & _ & _ & _ & _ & Hown).
  rewrite Hgive in Hown. cbn in Hown.
  pose proof (update_contact_found tokenA ownerA partial s c HA Hwf Hin Hu)
    as Hupd.
  assert (Hs1 : s1 = snd (update_contact jwt_decode (id c) partial tokenA s))
    by reflexivity.
  rewrite Hupd in Hs1. cbn [snd] in Hs1.
  assert (Hwf1 : wf s1).
  { rewrite Hs1.
    rewrite <- (map_replace_by_id (table s) c (apply_update partial c)
                  (apply_update partial)); auto; [|apply Hwf].
    now apply wf_replace. }
  assert (Hin1 : In (apply_update partial c) (table s1)).
  { rewrite Hs1. cbn [table]. now apply In_updated. }
  split; [exact Hown|]. split.
  - rewrite (get_contact_unfold _ _ _ _ HA). cbn [fst]. f_equal.
    destruct (head _) as [r|] eqn:E; [|reflexivity]. exfalso.
    apply head_Some_elem_of, list_elem_of_In, filter_In in E as [Hr E].
    apply by_id_and_owner_true in E as [E1 E2].
    destruct Hwf1 as [Hnd _].
    assert (r = apply_update partial c)
      by (eapply unique_by_id; eauto; congruence).
    subst r. congruence.
  - rewrite (get_contact_unfold _ _ _ _ HB). cbn [fst]. f_equal.
    rewrite <- Hid'. apply first_found; auto.
Qed.

End AccessorMore.

(** ** Properties of the user functions *)

Lemma head_filter_unique {A K} (key : A -> K) (t : list A) (p : A -> bool)
    (x : A) :
  List.NoDup (map key t) -> In x t -> p x = true ->
  (forall r, In r t -> p r = true -> key r = key x) ->
  head (List.filter p t) = Some x.
Proof.
  induction t as [|r t IH]; intros Hnd Hin Hp Hkey; [destruct Hin|].
  cbn in Hnd. apply NoDup_cons_iff in Hnd as [Hr Hnd]. cbn.
  destruct (p r) eqn:Er.
  - cbn. destruct Hin as [->|Hin]; [reflexivity|].
    exfalso. apply Hr. rewrite (Hkey r (or_introl eq_refl) Er).
    now apply in_map.
  - destruct Hin as [->|Hin]; [congruence|]. apply IH; auto.
    intros r' Hr'. apply Hkey. now right.
Qed.

Lemma unique_by_key {A K} (key : A -> K) (t : list A) (r x : A) :
  List.NoDup (map key t) -> In r t -> In x t -> key r = key x -> r = x.
Proof.
  induction t as [|y t IH]; intros Hnd Hr Hx Hk; [destruct Hr|].
  cbn in Hnd. apply NoDup_cons_iff in Hnd as [Hy Hnd].
  destruct Hr as [->|Hr], Hx as [->|Hx]; auto.
  - exfalso. apply Hy. rewrite Hk. now apply in_map.
  - exfalso. apply Hy. rewrite <- Hk. now apply in_map.
Qed.

Lemma existsb_false {A} (p : A -> bool) (t : list A) :
  existsb p t = false <-> forall x, In x t -> p x = false.
Proof.
  split.
  - intros H x Hx. destruct (p x) eqn:E; [|reflexivity].
    rewrite <- H. symmetry. apply existsb_exists. eauto.
  - intros H. destruct (existsb p t) eqn:E; [|reflexivity].
    apply existsb_exists in E as (x & Hx & Hp). rewrite (H x Hx) in Hp.
    discriminate.
Qed.

Lemma head_filter_In {A} (p : A -> bool) (t : list A) (x : A) :
  head (List.filter p t) = Some x -> In x t /\ p x = true.
Proof.
  intros H. apply head_Some_elem_of, list_elem_of_In in H.
  now apply filter_In.
Qed.

Lemma head_filter_some {A} (p : A -> bool) (t : list A) (x : A) :
  In x t -> p x = true -> exists y, head (List.filter p t) = Some y.
Proof.
  intros Hin Hp. destruct (List.filter p t) as [|y l] eqn:E; [|now exists y].
  exfalso. assert (H : In x (List.filter p t)) by now apply filter_In.
  now rewrite E in H.
Qed.

Module UsersFacts.

Import Users.

Lemma wf_append (s : Db) (row : User) :
  wf s -> id row = next_id s ->
  existsb (clashes row) (users s) = false ->
  wf (mkDb (users s ++ [row]) (next_id s + 1)).
Proof.
  intros (Hid & Hname & Hmail & Hlt) Hrow Hclash.
  rewrite existsb_false in Hclash.
  assert (Hfresh : forall u, In u (users s) ->
                             username u <> username row
                             /\ email u <> email row).
  { intros u Hu. specialize (Hclash u Hu). unfold clashes in Hclash.
    apply orb_false_iff in Hclash as [H1 H2].
    apply String.eqb_neq in H1, H2. now split. }
  repeat split; cbn; rewrite ?map_app; cbn.
  - apply NoDup_snoc; [exact Hid|]. intros Hin.
    apply in_map_iff in Hin as (u & Hu & Hin).
    rewrite List.Forall_forall in Hlt. specialize (Hlt u Hin). lia.
  - apply NoDup_snoc; [exact Hname|]. intros Hin.
    apply in_map_iff in Hin as (u & Hu & Hin).
    now destruct (Hfresh u Hin).
  - apply NoDup_snoc; [exact Hmail|]. intros Hin.
    apply in_map_iff in Hin as (u & Hu & Hin).
    now destruct (Hfresh u Hin).
  - apply List.Forall_app. split.
    + eapply List.Forall_impl; [|exact Hlt]. cbn. intros. lia.
    + constructor; [lia | constructor].
Qed.

(** Rewriting one row without touching its key, username and email keeps
    the table well formed. *)
Lemma wf_rewrite (s : Db) (x : User) (f : User -> User) :
  wf s ->
  (forall u, id (f u) = id u /\ username (f u) = username u
             /\ email (f u) = email u) ->
  wf (mkDb (map (fun r => if id r =? id x then f r else r) (users s))
        (next_id s)).
Proof.
  intros (Hid & Hname & Hmail & Hlt) Hf.
  assert (Hkeep : forall {K} (key : User -> K),
             (forall u, key (f u) = key u) ->
             map key (map (fun r => if id r =? id x then f r else r)
                        (users s))
             = map key (users s)).
  { intros K key Hk. rewrite map_map. apply map_ext. intros r.
    destruct (id r =? id x); [apply Hk | reflexivity]. }
  repeat split; cbn.
  - rewrite Hkeep; [exact Hid | intros u; apply Hf].
  - rewrite Hkeep; [exact Hname | intros u; apply Hf].
  - rewrite Hkeep; [exact Hmail | intros u; apply Hf].
  - apply List.Forall_map. eapply List.Forall_impl; [|exact Hlt]. cbn.
    intros r Hr. destruct (id r =? id x); [|exact Hr].
    destruct (Hf r) as [-> _]. exact Hr.
Qed.

Lemma first_by_id (s : Db) (u : User) :
  wf s -> In u (users s) ->
  head (List.filter (id_is (Some (id u))) (users s)) = Some u.
Proof.
  intros (Hid & _) Hin. apply (head_filter_unique id); auto.
  - cbn. apply Z.eqb_refl.
  - intros r _ Hr. cbn in Hr. now apply Z.eqb_eq in Hr.
Qed.

Lemma first_by_id_none (s : Db) (k : option Z) :
  (forall u, In u (users s) -> Some (id u) <> k) ->
  head (List.filter (id_is k) (users s)) = None.
Proof.
  intros H. rewrite head_filter_none; [reflexivity|]. intros u Hu.
  specialize (H u Hu). destruct k as [k|]; [|reflexivity]. cbn.
  apply Z.eqb_neq. congruence.
Qed.

Lemma map_rewrite_by_id (s : Db) (u : User) (f : User -> User) :
  wf s -> In u (users s) -> id (f u) = id u ->
  map (fun r => if id r =? id (f u) then f u else r) (users s)
  = map (fun r => if id r =? id u then f r else r) (users s).
Proof.
  intros (Hid & _) Hin Hf. apply map_ext_in. intros r Hr. rewrite Hf.
  destruct (id r =? id u) eqn:E; [|reflexivity]. apply Z.eqb_eq in E.
  now rewrite (unique_by_key id (users s) r u Hid Hr Hin E).
Qed.

Section CrudFacts.

Variable get_password_hash : string -> string -> outcome string.
Variable verify_password : string -> string -> outcome bool.

Lemma create_user_run (salt : string) (user : UserCreate) (s : Db)
    (hashed : string) :
  (forall u, In u (users s) -> email u <> c_email user) ->
  (forall u, In u (users s) -> username u <> c_username user) ->
  get_password_hash (c_password user) salt = Done hashed ->
  let row :=
    mkUser (next_id s) (c_username user) (c_email user) hashed true false
      None in
  existsb (clashes row) (users s) = false
  /\ create_user get_password_hash salt user s
     = (Done row, mkDb (users s ++ [row]) (next_id s + 1)).
Proof.
  intros Hmail Hname Hhash row.
  assert (Hclash : existsb (clashes row) (users s) = false).
  { apply existsb_false. intros u Hu. unfold clashes. cbn.
    apply orb_false_iff. split; apply String.eqb_neq; auto. }
  split; [exact Hclash|].
  unfold create_user, bind, first, call. rewrite head_filter_none.
  - rewrite Hhash. unfold add_commit_refresh. cbn [head].
    change (new_User _ _ _ (next_id s)) with row. now rewrite Hclash.
  - intros x Hx. apply String.eqb_neq. now apply Hmail.
Qed.

Lemma create_user_refused (salt : string) (user : UserCreate) (s : Db)
    (e : error) :
  (forall u, In u (users s) -> email u <> c_email user) ->
  get_password_hash (c_password user) salt = Failed e ->
  create_user get_password_hash salt user s = (Failed e, s).
Proof.
  intros Hmail Hhash. unfold create_user, bind, first, call.
  rewrite head_filter_none.
  - now rewrite Hhash.
  - intros x Hx. apply String.eqb_neq. now apply Hmail.
Qed.

(** X9. Registering fails without changing the table in two ways: when a
    row already has the email, with HTTP 409 "Email already registered"
    before the password is hashed or any write is tried; and when no row
    has the email but one has the username, with the store's
    [IntegrityError] once the password is hashed, or with the hasher's
    exception when the hasher refuses the password. *)
Theorem create_user_rejects_duplicates :
  forall salt user s,
    (forall u, In u (users s) -> email u = c_email user ->
               create_user get_password_hash salt user s
               = (Failed (Exn (HTTPException 409 "Email already registered")),
                  s))
    /\ ((forall u, In u (users s) -> email u <> c_email user) ->
        forall u, In u (users s) -> username u = c_username user ->
                  fst (create_user get_password_hash salt user s)
                  = match get_password_hash (c_password user) salt with
                    | Done _ => Failed IntegrityError
                    | Failed e => Failed e
                    end
                  /\ users (snd (create_user get_password_hash salt user s))
                     = users s).
Proof.
  intros salt user s. split.
  - intros u Hin Hmail. unfold create_user, bind, first.
    destruct (head_filter_some (fun x => String.eqb (email x) (c_email user))
                (users s) u Hin) as [y ->]; [|reflexivity].
    now apply String.eqb_eq.
  - intros Hfree u Hin Hname.
    destruct (get_password_hash (c_password user) salt) as [hashed|e] eqn:Hh;
      [|now rewrite (create_user_refused salt user s e Hfree Hh)].
    unfold create_user, bind, first, call.
    rewrite head_filter_none.
    + rewrite Hh. unfold add_commit_refresh. cbn [head].
      replace (existsb _ (users s)) with true; [now split|].
      symmetry. apply existsb_exists. exists u. split; [exact Hin|].
      unfold clashes, new_User. cbn. apply orb_true_iff. left.
      now apply String.eqb_eq.
    + intros x Hx. apply String.eqb_neq. now apply Hfree.
Qed.

(** X10. With unique keys, usernames and emails, registering under an
    email and a username that no row has appends one row and returns it
    once the password is hashed: the row carries the next generated key,
    the submitted username and email, the hash of the password (not the
    password), is active, is not verified and has no avatar, and the table
    stays well formed. When the hasher refuses the password, its exception
    is the outcome and the table is as before. *)
Theorem create_user_appends :
  forall salt user s,
    wf s ->
    (forall u, In u (users s) -> email u <> c_email user) ->
    (forall u, In u (users s) -> username u <> c_username user) ->
    match get_password_hash (c_password user) salt with
    | Done hashed =>
        let row :=
          mkUser (next_id s) (c_username user) (c_email user) hashed true
            false None in
        create_user get_password_hash salt user s
        = (Done row, mkDb (users s ++ [row]) (next_id s + 1))
        /\ wf (snd (create_user get_password_hash salt user s))
    | Failed e => create_user get_password_hash salt user s = (Failed e, s)
    end.
Proof.
  intros salt user s Hwf Hmail Hname.
  destruct (get_password_hash (c_password user) salt) as [hashed|e] eqn:Hh;
    [|now apply create_user_refused].
  destruct (create_user_run salt user s hashed Hmail Hname Hh)
    as [Hclash Hrun].
  cbv zeta. split; [exact Hrun|]. rewrite Hrun. cbn [snd].
  now apply wf_append.
Qed.

(** X11. With unique keys, usernames and emails, and a hasher whose
    verification accepts the password against the hash it made of it: a
    user who has just registered is authenticated by the same username and
    password, and the row returned is the registered one. *)
Theorem register_then_authenticate :
  forall salt user s hashed,
    wf s ->
    (forall u, In u (users s) -> email u <> c_email user) ->
    (forall u, In u (users s) -> username u <> c_username user) ->
    get_password_hash (c_password user) salt = Done hashed ->
    verify_password (c_password user) hashed = Done true ->
    exists row,
      fst (create_user get_password_hash salt user s) = Done row
      /\ authenticate_user verify_password (c_username user)
           (c_password user) (snd (create_user get_password_hash salt user s))
         = (Done (Some row), snd (create_user get_password_hash salt user s)).
Proof.
  intros salt user s hashed Hwf Hmail Hname Hhash Hverify.
  destruct (create_user_run salt user s hashed Hmail Hname Hhash)
    as [Hclash Hrun].
  set (row := mkUser (next_id s) (c_username user) (c_email user) hashed
                true false None) in *.
  exists row. rewrite Hrun. cbn [fst snd]. split; [reflexivity|].
  pose proof (wf_append s row Hwf eq_refl Hclash) as (_ & Hnames & _).
  unfold authenticate_user, bind, first, call. cbn [users].
  rewrite (head_filter_unique username _ _ row Hnames).
  - cbn. now rewrite Hverify.
  - apply in_or_app. right. now left.
  - cbn. apply String.eqb_refl.
  - intros r _ Hr. cbn. now apply String.eqb_eq in Hr.
Qed.

(** X12. Authentication never changes the table. It returns a row only
    when that row is in the table under the given username and the
    password verifies against the hash stored in it; an unknown username
    gives [None] without the verifier being asked; and it fails only when
    the verifier raises on the hash stored under that username, with the
    verifier's exception. *)
Theorem authenticate_user_sound :
  forall name password s,
    snd (authenticate_user verify_password name password s) = s
    /\ (forall u,
           fst (authenticate_user verify_password name password s)
           = Done (Some u) ->
           In u (users s) /\ username u = name
           /\ verify_password password (hashed_password u) = Done true)
    /\ ((forall u, In u (users s) -> username u <> name) ->
        fst (authenticate_user verify_password name password s) = Done None)
    /\ (forall e,
           fst (authenticate_user verify_password name password s)
           = Failed e ->
           exists u,
             In u (users s) /\ username u = name
             /\ verify_password password (hashed_password u) = Failed e)
    /\ (wf s ->
        forall u, In u (users s) -> username u = name ->
          fst (authenticate_user verify_password name password s)
          = match verify_password password (hashed_password u) with
            | Done true => Done (Some u)
            | Done false => Done None
            | Failed e => Failed e
            end).
Proof.
  intros name password s. unfold authenticate_user, bind, first, call.
  destruct (head _) as [u|] eqn:E; cbn [fst snd].
  - pose proof E as E'.
    apply head_filter_In in E' as [Hin Hname]. apply String.eqb_eq in Hname.
    destruct (verify_password password (hashed_password u)) as [[|]|e]
      eqn:V; cbn [fst snd negb ret];
      (split; [reflexivity|]); (split; [|split; [|split]]).
    + intros u' H. injection H as <-. auto.
    + intros Hnone. exfalso. now apply (Hnone u).
    + discriminate.
    + intros (_ & Hnames & _) u' Hin' Hname'.
      assert (u' = u) as ->; [|now rewrite V].
      eapply unique_by_key; eauto. congruence.
    + discriminate.
    + reflexivity.
    + discriminate.
    + intros (_ & Hnames & _) u' Hin' Hname'.
      assert (u' = u) as ->; [|now rewrite V].
      eapply unique_by_key; eauto. congruence.
    + discriminate.
    + intros Hnone. exfalso. now apply (Hnone u).
    + intros e' H. injection H as <-. eauto.
    + intros (_ & Hnames & _) u' Hin' Hname'.
      assert (u' = u) as ->; [|now rewrite V].
      eapply unique_by_key; eauto. congruence.
  - split; [reflexivity|]. split; [discriminate|]. split; [reflexivity|].
    split; [discriminate|]. intros _ u Hin Hname. exfalso.
    assert (H : In u (List.filter (fun x => String.eqb (username x) name)
                        (users s))).
    { apply filter_In. split; [exact Hin|]. now apply String.eqb_eq. }
    destruct (List.filter _ (users s)); [destruct H | discriminate].
Qed.

(** X13. With unique keys: verifying the email of an existing user sets
    [is_verified] in that row and changes no other column and no other
    row; doing it again changes nothing more; for an id that no row has the
    result is [None] and the table is as before. No credential is
    involved. *)
Theorem verify_user_email_marks_one_row :
  forall s,
    wf s ->
    (forall u,
        In u (users s) ->
        let out := verify_user_email (Some (id u)) s in
        fst out = Done (Some (set_is_verified true u))
        /\ users (snd out)
           = map (fun r => if id r =? id u then set_is_verified true r else r)
               (users s)
        /\ snd (verify_user_email (Some (id u)) (snd out)) = snd out
        /\ wf (snd out))
    /\ (forall k,
           (forall u, In u (users s) -> Some (id u) <> k) ->
           verify_user_email k s = (Done None, s)).
Proof.
  intros s Hwf.
  assert (Hrun : forall s0 u,
             wf s0 -> In u (users s0) ->
             verify_user_email (Some (id u)) s0
             = (Done (Some (set_is_verified true u)),
                mkDb (map (fun r => if id r =? id u
                                    then set_is_verified true r else r)
                        (users s0)) (next_id s0))).
  { intros s0 u Hwf0 Hin0. unfold verify_user_email, bind, first.
    rewrite (first_by_id s0 u Hwf0 Hin0). cbn. do 2 f_equal.
    exact (map_rewrite_by_id s0 u (set_is_verified true) Hwf0 Hin0 eq_refl). }
  split.
  - intros u Hin out. subst out. rewrite (Hrun s u Hwf Hin).
    cbn [fst snd users].
    assert (Hwf1 : wf (mkDb (map (fun r => if id r =? id u
                                           then set_is_verified true r else r)
                               (users s)) (next_id s))).
    { apply wf_rewrite; [exact Hwf|]. now intros. }
    split; [reflexivity|]. split; [reflexivity|]. split; [|exact Hwf1].
    assert (Hin1 : In (set_is_verified true u)
                     (map (fun r => if id r =? id u
                                    then set_is_verified true r else r)
                        (users s))).
    { apply in_map_iff. exists u. now rewrite Z.eqb_refl. }
    change (id u) with (id (set_is_verified true u)) at 1.
    rewrite (Hrun _ _ Hwf1 Hin1). cbn [snd users next_id]. f_equal.
    rewrite map_map. apply map_ext. intros r.
    destruct (id r =? id u) eqn:E; cbn; rewrite E; reflexivity.
  - intros k Hnone. unfold verify_user_email, bind, first.
    now rewrite (first_by_id_none s k Hnone).
Qed.

(** X14. With unique keys: updating the avatar of an existing user sets
    [avatar_url] in that row and changes no other column and no other row;
    of two updates in a row the later one wins; for an id that no row has,
    or for no id at all, the result is [None] and the table is as
    before. *)
Theorem update_avatar_last_write_wins :
  forall s,
    wf s ->
    (forall u url,
        In u (users s) ->
        let out := update_avatar (Some (id u)) url s in
        fst out = Done (Some (set_avatar_url url u))
        /\ users (snd out)
           = map (fun r => if id r =? id u then set_avatar_url url r else r)
               (users s)
        /\ wf (snd out)
        /\ forall url',
             snd (update_avatar (Some (id u)) url' (snd out))
             = snd (update_avatar (Some (id u)) url' s))
    /\ (forall k url,
           (forall u, In u (users s) -> Some (id u) <> k) ->
           update_avatar k url s = (Done None, s)).
Proof.
  intros s Hwf.
  assert (Hrun : forall s0 u url,
             wf s0 -> In u (users s0) ->
             update_avatar (Some (id u)) url s0
             = (Done (Some (set_avatar_url url u)),
                mkDb (map (fun r => if id r =? id u
                                    then set_avatar_url url r else r)
                        (users s0)) (next_id s0))).
  { intros s0 u url Hwf0 Hin0. unfold update_avatar, bind, first.
    rewrite (first_by_id s0 u Hwf0 Hin0). cbn. do 2 f_equal.
    exact (map_rewrite_by_id s0 u (set_avatar_url url) Hwf0 Hin0 eq_refl). }
  split.
  - intros u url Hin out. subst out. rewrite (Hrun s u url Hwf Hin).
    cbn [fst snd users].
    assert (Hwf1 : wf (mkDb (map (fun r => if id r =? id u
                                           then set_avatar_url url r else r)
                               (users s)) (next_id s))).
    { apply wf_rewrite; [exact Hwf|]. now intros. }
    split; [reflexivity|]. split; [reflexivity|]. split; [exact Hwf1|].
    intros url'.
    assert (Hin1 : In (set_avatar_url url u)
                     (map (fun r => if id r =? id u
                                    then set_avatar_url url r else r)
                        (users s))).
    { apply in_map_iff. exists u. now rewrite Z.eqb_refl. }
    change (id u) with (id (set_avatar_url url u)) at 1.
    rewrite (Hrun _ _ url' Hwf1 Hin1), (Hrun s u url' Hwf Hin).
    cbn [snd users next_id]. f_equal.
    rewrite map_map. apply map_ext. intros r.
    destruct (id r =? id u) eqn:E; cbn; rewrite E; reflexivity.
  - intros k url Hnone. unfold update_avatar, bind, first.
    now rewrite (first_by_id_none s k Hnone).
Qed.

End CrudFacts.

End UsersFacts.

(** ** The store under any history of requests *)

Lemma owned_filter_comm (uid : option Z) (p : Contact -> bool)
    (t : list Contact) :
  owned uid (List.filter p t) = List.filter p (owned uid t).
Proof.
  unfold owned. induction t as [|r t IH]; [reflexivity|]. cbn.
  destruct (p r) eqn:Ep, (col_eq (user_id r) uid) eqn:Eo; cbn;
    rewrite ?Ep, ?Eo, IH; reflexivity.
Qed.

Lemma owned_map_other (uid : option Z) (f : Contact -> Contact)
    (t : list Contact) :
  (forall r, In r t -> f r = r \/ (user_id r <> uid /\ user_id (f r) <> uid)) ->
  owned uid (map f t) = owned uid t.
Proof.
  unfold owned. induction t as [|r t IH]; intros H; [reflexivity|]. cbn.
  rewrite IH by (intros x Hx; apply H; now right).
  destruct (H r (or_introl eq_refl)) as [->|[H1 H2]]; [reflexivity|].
  assert (E1 : col_eq (user_id r) uid = false)
    by (apply not_true_is_false; now rewrite col_eq_true).
  assert (E2 : col_eq (user_id (f r)) uid = false)
    by (apply not_true_is_false; now rewrite col_eq_true).
  now rewrite E1, E2.
Qed.

Section ServiceFacts.

Variable jwt_decode : string -> option Payload.

Lemma serve_wf (r : request) (token : string) (s : Session) :
  wf s -> wf (serve jwt_decode r token s).
Proof.
  intros Hwf.
  destruct r; unfold serve, after, create_contact, get_contacts, get_contact,
    update_contact, delete_contact, search_contacts, get_upcoming_birthdays;
    (destruct (truthy _) as [payload|]; [|exact Hwf]).
  - unfold db_add_commit_refresh. cbn [snd]. now apply wf_insert.
  - exact Hwf.
  - exact Hwf.
  - unfold bind, first. rewrite run_filter. cbn [fst snd].
    destruct (head _) as [c|]; [|exact Hwf].
    unfold db_commit_refresh, ret. cbn [snd].
    exact (wf_replace (called [Query_] s) _ _ _ Hwf).
  - unfold bind, first. rewrite run_filter. cbn [fst snd].
    destruct (head _) as [c|]; [|exact Hwf].
    unfold db_delete_commit, ret. cbn [snd].
    exact (wf_remove (called [Query_] s) _ _ _ Hwf).
  - exact Hwf.
  - unfold bind, lift, all. rewrite run_filter.
    destruct (add_days today 7) as [nw|]; [|exact Hwf].
    now destruct (birthday_loop _ _ _ _).
Qed.

(** X15. Whatever the tokens and whatever the requests, every store that
    a history of accessor calls produces from an empty table has unique
    primary keys, all of them below the key counter. *)
Theorem reachable_wf :
  forall s, reachable jwt_decode s -> wf s.
Proof.
  intros s H. induction H as [k d | s r token _ IH].
  - apply wf_initial.
  - now apply serve_wf.
Qed.

(** X16. Under a verified identity and with unique primary keys, no
    request touches a row that belongs to somebody else: every row with
    another owner is still in the table afterwards, unchanged. Unless the
    request is an update that sets [user_id], the rows of every other owner
    are afterwards exactly what they were, in the same order. *)
Theorem serve_leaves_other_owners_rows :
  forall token owner r s,
    identifies jwt_decode token owner -> wf s ->
    (forall row, In row (table s) -> user_id row <> Some owner ->
                 In row (table (serve jwt_decode r token s)))
    /\ ((forall contact_id partial,
            r = Update contact_id partial -> u_user_id partial = None) ->
        forall other, other <> Some owner ->
          owned other (table (serve jwt_decode r token s))
          = owned other (table s)).
Proof.
  intros token owner r s Hid Hwf.
  assert (Hnd : List.NoDup (map id (table s))) by apply Hwf.
  destruct r as [fields|skip limit|cid|cid partial|cid|q|today];
    unfold serve, after.
  - rewrite (create_contact_unfold _ _ _ _ _ Hid).
    unfold db_add_commit_refresh. cbn [snd table]. split.
    + intros row Hin _. apply in_or_app. now left.
    + intros _ other Hother. rewrite owned_app.
      assert (E : col_eq (Some owner) other = false)
        by (apply not_true_is_false; rewrite col_eq_true; congruence).
      unfold owned at 2. cbn [List.filter new_Contact user_id].
      rewrite E. apply app_nil_r.
  - unfold get_contacts.
    destruct (identifies_truthy _ _ _ Hid) as (claims & Ht & Hg).
    rewrite Ht, Hg. unfold all. cbn [snd called table]. now split.
  - rewrite (get_contact_unfold _ _ _ _ _ Hid). cbn. now split.
  - rewrite (update_contact_unfold _ _ _ _ _ _ Hid).
    destruct (head _) as [c|] eqn:E; [|cbn; now split].
    apply head_Some_elem_of, list_elem_of_In, filter_In in E as [Hc E].
    apply by_id_and_owner_true in E as [Ec Eo].
    pose proof (apply_update_fields partial c) as (Hid' & _ & _ & _ & _ & _ & _ & Hown).
    cbn [snd table]. split.
    + intros row Hin Hrow. apply in_map_iff. exists row. split; [|exact Hin].
      destruct (id row =? id (apply_update partial c)) eqn:Er; [|reflexivity].
      apply Z.eqb_eq in Er. rewrite Hid' in Er.
      rewrite (unique_by_id _ row c Hnd Hin Hc Er) in Hrow. congruence.
    + intros Hkeep other Hother. apply owned_map_other. intros row Hin.
      destruct (id row =? id (apply_update partial c)) eqn:Er; [|now left].
      right. apply Z.eqb_eq in Er. rewrite Hid' in Er.
      rewrite (unique_by_id _ row c Hnd Hin Hc Er).
      rewrite Hown, (Hkeep cid partial eq_refl). cbn. split; congruence.
  - rewrite (delete_contact_unfold _ _ _ _ _ Hid).
    destruct (head _) as [c|] eqn:E; [|cbn; now split].
    apply head_Some_elem_of, list_elem_of_In, filter_In in E as [Hc E].
    apply by_id_and_owner_true in E as [Ec Eo].
    assert (Hother : forall row, In row (table s) -> user_id row <> Some owner ->
                                 negb (id row =? id c) = true).
    { intros row Hin Hrow. apply negb_true_iff, Z.eqb_neq. intros Er.
      rewrite (unique_by_id _ row c Hnd Hin Hc Er) in Hrow. congruence. }
    cbn [snd table]. split.
    + intros row Hin Hrow. apply filter_In. auto.
    + intros _ other Hne. rewrite owned_filter_comm. apply filter_all.
      intros row Hrow. apply In_owned in Hrow as [Hin Hu].
      apply Hother; [exact Hin | congruence].
  - rewrite (search_contacts_unfold _ _ _ _ _ Hid). cbn. now split.
  - unfold get_upcoming_birthdays.
    destruct (identifies_truthy _ _ _ Hid) as (claims & Ht & Hg).
    rewrite Ht, Hg. unfold bind, lift, all. rewrite run_filter.
    destruct (add_days today 7) as [nw|]; [|cbn; now split].
    destruct (birthday_loop _ _ _ _); cbn; now split.
Qed.

End ServiceFacts.

(** ** The calendar *)

Lemma range_forall_spec (depth : nat) (p : Z -> bool) (lo len : Z) :
  range_forall depth p lo len = true -> len <= 2 ^ Z.of_nat depth ->
  forall n, lo <= n < lo + len -> p n = true.
Proof.
  revert lo len. induction depth as [|depth IH]; intros lo len H Hlen n Hn.
  - cbn in H, Hlen. apply orb_true_iff in H as [H|H].
    + apply Z.leb_le in H. lia.
    + apply andb_true_iff in H as [H1 H2]. apply Z.eqb_eq in H1.
      replace n with lo by lia. exact H2.
  - cbn [range_forall] in H. destruct (len <=? 1) eqn:E.
    + apply Z.leb_le in E. apply orb_true_iff in H as [H|H].
      * apply Z.leb_le in H. lia.
      * replace n with lo by lia. exact H.
    + apply Z.leb_gt in E. apply andb_true_iff in H as [H1 H2].
      rewrite Nat2Z.inj_succ, Z.pow_succ_r in Hlen by lia.
      assert (Hhalf : 0 <= len / 2 /\ 2 * (len / 2) <= len < 2 * (len / 2) + 2)
        by (Z.div_mod_to_equations; lia).
      destruct (Z_lt_ge_dec n (lo + len / 2)) as [Hlt|Hge].
      * apply (IH lo (len / 2) H1); lia.
      * apply (IH (lo + len / 2) (len - len / 2) H2); lia.
Qed.

Lemma month_day_checked (leapyear : bool) (n : Z) :
  0 <= n < 365 + (if leapyear then 1 else 0) ->
  month_day_ok leapyear n = true.
Proof.
  intros Hn. destruct leapyear.
  - apply (range_forall_spec 9 (month_day_ok true) 0 366);
      [vm_compute; reflexivity | cbn; lia | lia].
  - apply (range_forall_spec 9 (month_day_ok false) 0 365);
      [vm_compute; reflexivity | cbn; lia | lia].
Qed.

(** The arithmetic of the year part: quotients and remainders of the
    day number by 400, 100, 4 and 1 years. *)
Lemma year_split (n : Z) :
  let n0 := n - 1 in
  let n400 := n0 / DI400Y in
  let r := n0 mod DI400Y in
  let n100 := r / DI100Y in
  let r' := r mod DI100Y in
  let n4 := r' / DI4Y in
  let r'' := r' mod DI4Y in
  let n1 := r'' / 365 in
  let k := r'' mod 365 in
  n - 1 = 146097 * n400 + 36524 * n100 + 1461 * n4 + 365 * n1 + k
  /\ 0 <= n100 <= 4 /\ 0 <= n4 <= 24 /\ 0 <= n1 <= 4 /\ 0 <= k <= 364
  /\ (n100 = 4 -> n4 = 0 /\ n1 = 0 /\ k = 0)
  /\ (n1 = 4 -> k = 0 /\ n4 <= 23)
  /\ 36524 * n100 + 1461 * n4 + 365 * n1 + k <= 146096.
Proof.
  cbv zeta. unfold DI400Y, DI100Y, DI4Y.
  Z.div_mod_to_equations. lia.
Qed.

Lemma days_before_year_parts (a b c e : Z) :
  0 <= b <= 3 -> 0 <= c <= 24 -> 0 <= e <= 3 ->
  days_before_year (400 * a + 100 * b + 4 * c + e + 1)
  = 146097 * a + 36524 * b + 1461 * c + 365 * e.
Proof.
  intros Hb Hc He. unfold days_before_year. cbv zeta.
  replace (400 * a + 100 * b + 4 * c + e + 1 - 1)
    with (400 * a + 100 * b + 4 * c + e) by lia.
  Z.div_mod_to_equations. lia.
Qed.

Lemma is_leap_parts (a b c e : Z) :
  0 <= b <= 3 -> 0 <= c <= 24 -> 0 <= e <= 3 ->
  is_leap (400 * a + 100 * b + 4 * c + e + 1)
  = (e =? 3) && (negb (c =? 24) || (b =? 3)).
Proof.
  intros Hb Hc He. unfold is_leap.
  set (y := 400 * a + 100 * b + 4 * c + e + 1).
  assert (H4 : y mod 4 = (e + 1) mod 4).
  { subst y. replace (400 * a + 100 * b + 4 * c + e + 1)
      with (e + 1 + (100 * a + 25 * b + c) * 4) by lia.
    apply Z_mod_plus_full. }
  assert (H100 : y mod 100 = (4 * c + e + 1) mod 100).
  { subst y. replace (400 * a + 100 * b + 4 * c + e + 1)
      with (4 * c + e + 1 + (4 * a + b) * 100) by lia.
    apply Z_mod_plus_full. }
  assert (H400 : y mod 400 = (100 * b + 4 * c + e + 1) mod 400).
  { subst y. replace (400 * a + 100 * b + 4 * c + e + 1)
      with (100 * b + 4 * c + e + 1 + a * 400) by lia.
    apply Z_mod_plus_full. }
  rewrite H4, H100, H400. clearbody y. clear H4 H100 H400.
  destruct (e =? 3) eqn:Ee, (c =? 24) eqn:Ec, (b =? 3) eqn:Eb;
    rewrite ?Z.eqb_eq, ?Z.eqb_neq in *; cbn [andb orb negb];
    repeat match goal with
      | |- context [?x =? 0] =>
          let E := fresh "E" in
          destruct (x =? 0) eqn:E;
          [apply Z.eqb_eq in E | apply Z.eqb_neq in E]
      end; cbn [andb orb negb]; try reflexivity; exfalso;
    Z.div_mod_to_equations; lia.
Qed.

Lemma month_day_unpack (leapyear : bool) (k m d : Z) :
  0 <= k <= 364 -> month_day leapyear k = (m, d) ->
  1 <= m <= 12
  /\ 1 <= d <= DAYS_IN_MONTH m + (if (m =? 2) && leapyear then 1 else 0)
  /\ DAYS_BEFORE_MONTH m + (if (2 <? m) && leapyear then 1 else 0) + d = k + 1.
Proof.
  intros Hk Hmd.
  assert (Hok : month_day_ok leapyear k = true)
    by (apply month_day_checked; destruct leapyear; lia).
  unfold month_day_ok in Hok. rewrite Hmd in Hok.
  rewrite !andb_true_iff, !Z.leb_le, Z.eqb_eq in Hok. lia.
Qed.

Lemma days_in_month_flag (y m : Z) :
  days_in_month y m
  = DAYS_IN_MONTH m + (if (m =? 2) && is_leap y then 1 else 0).
Proof.
  unfold days_in_month. destruct ((m =? 2) && is_leap y) eqn:E; [|lia].
  apply andb_true_iff in E as [E _]. apply Z.eqb_eq in E. now subst m.
Qed.

(** Every positive ordinal is the ordinal of the date [ord2ymd] gives for
    it, and that date has a month and a day of the calendar. *)
Lemma ord2ymd_ordinal (n : Z) :
  1 <= n ->
  let d := ord2ymd n in
  1 <= year d /\ 1 <= month d <= 12
  /\ 1 <= day d <= days_in_month (year d) (month d)
  /\ toordinal d = n.
Proof.
  intros Hn. pose proof (year_split n) as H. cbv zeta in H.
  assert (Heq : ord2ymd n
    = let n400 := (n - 1) / DI400Y in
      let n100 := ((n - 1) mod DI400Y) / DI100Y in
      let n4 := (((n - 1) mod DI400Y) mod DI100Y) / DI4Y in
      let n1 := ((((n - 1) mod DI400Y) mod DI100Y) mod DI4Y) / 365 in
      let k := ((((n - 1) mod DI400Y) mod DI100Y) mod DI4Y) mod 365 in
      let y := n400 * 400 + 1 + n100 * 100 + n4 * 4 + n1 in
      if (n1 =? 4) || (n100 =? 4) then mkDate (y - 1) 12 31
      else
        let leapyear := (n1 =? 3) && (negb (n4 =? 24) || (n100 =? 3)) in
        let (m, d) := month_day leapyear k in mkDate y m d).
  { unfold ord2ymd, month_day. cbv zeta.
    destruct (_ || _); [reflexivity|]. now destruct (_ <? _). }
  rewrite Heq. clear Heq. cbv zeta.
  set (n400 := (n - 1) / DI400Y) in *.
  set (n100 := ((n - 1) mod DI400Y) / DI100Y) in *.
  set (n4 := (((n - 1) mod DI400Y) mod DI100Y) / DI4Y) in *.
  set (n1 := ((((n - 1) mod DI400Y) mod DI100Y) mod DI4Y) / 365) in *.
  set (k := ((((n - 1) mod DI400Y) mod DI100Y) mod DI4Y) mod 365) in *.
  clearbody n400 n100 n4 n1 k.
  destruct H as (Hsum & H100 & H4 & H1 & Hk & Hs100 & Hs1 & Hr).
  assert (H400 : 0 <= n400) by lia.
  unfold toordinal, ymd2ord, days_before_month.
  rewrite !days_in_month_flag.
  destruct (n100 =? 4) eqn:E100.
  - apply Z.eqb_eq in E100. destruct (Hs100 E100) as (-> & -> & ->).
    subst n100. cbn [orb Z.eqb year month day]. rewrite ?orb_true_r.
    cbn [year month day].
    replace (n400 * 400 + 1 + 4 * 100 + 0 * 4 + 0 - 1)
      with (400 * n400 + 100 * 3 + 4 * 24 + 3 + 1) by lia.
    rewrite days_before_year_parts, is_leap_parts by lia. cbn. lia.
  - apply Z.eqb_neq in E100. rewrite orb_false_r.
    destruct (n1 =? 4) eqn:E1.
    + apply Z.eqb_eq in E1. destruct (Hs1 E1) as (-> & H23). subst n1.
      cbn [year month day].
      replace (n400 * 400 + 1 + n100 * 100 + n4 * 4 + 4 - 1)
        with (400 * n400 + 100 * n100 + 4 * n4 + 3 + 1) by lia.
      rewrite days_before_year_parts, is_leap_parts by lia.
      replace (n4 =? 24) with false by (symmetry; apply Z.eqb_neq; lia).
      cbn. lia.
    + apply Z.eqb_neq in E1.
      replace (n400 * 400 + 1 + n100 * 100 + n4 * 4 + n1)
        with (400 * n400 + 100 * n100 + 4 * n4 + n1 + 1) by lia.
      destruct (month_day _ k) as [m d] eqn:Emd.
      apply month_day_unpack in Emd; [|lia].
      cbn [year month day].
      rewrite days_before_year_parts, is_leap_parts by lia. lia.
Qed.

Lemma days_before_year_succ (y : Z) :
  days_before_year (y + 1)
  = days_before_year y + 365 + (if is_leap y then 1 else 0).
Proof.
  unfold days_before_year, is_leap. cbv zeta.
  replace (y + 1 - 1) with y by lia.
  destruct (y mod 4 =? 0) eqn:E4, (y mod 100 =? 0) eqn:E100,
    (y mod 400 =? 0) eqn:E400;
    rewrite ?Z.eqb_eq, ?Z.eqb_neq in *; cbn [andb orb negb];
    Z.div_mod_to_equations; lia.
Qed.

Lemma days_before_year_mono (y1 y2 : Z) :
  y1 <= y2 -> days_before_year y1 <= days_before_year y2.
Proof.
  intros H. unfold days_before_year. cbv zeta.
  Z.div_mod_to_equations. lia.
Qed.

Ltac month_cases m :=
  let H := fresh "Hm" in
  assert (H : m = 1 \/ m = 2 \/ m = 3 \/ m = 4 \/ m = 5 \/ m = 6 \/ m = 7
              \/ m = 8 \/ m = 9 \/ m = 10 \/ m = 11 \/ m = 12) by lia;
  destruct H as [->|[->|[->|[->|[->|[->|[->|[->|[->|[->|[->| ->]]]]]]]]]]].

Lemma day_of_year_upper (y m d : Z) :
  1 <= m <= 12 -> 1 <= d <= days_in_month y m ->
  1 <= days_before_month y m + d <= 365 + (if is_leap y then 1 else 0).
Proof.
  intros Hm Hd. unfold days_before_month, days_in_month in *.
  destruct (is_leap y); month_cases m; cbn in *; lia.
Qed.

Lemma day_of_year_lt (y m1 d1 m2 d2 : Z) :
  1 <= m1 <= 12 -> 1 <= d1 <= days_in_month y m1 ->
  1 <= m2 <= 12 -> 1 <= d2 <= days_in_month y m2 ->
  m1 < m2 \/ (m1 = m2 /\ d1 < d2) ->
  days_before_month y m1 + d1 < days_before_month y m2 + d2.
Proof.
  intros Hm1 Hd1 Hm2 Hd2 Hlt. unfold days_before_month, days_in_month in *.
  destruct (is_leap y); month_cases m1; month_cases m2; cbn in *; lia.
Qed.

Lemma ltb_cases (a b : date) :
  Date.ltb a b = true
  <-> year a < year b
      \/ (year a = year b
          /\ (month a < month b \/ (month a = month b /\ day a < day b))).
Proof.
  unfold Date.ltb.
  rewrite !orb_true_iff, !andb_true_iff, !Z.ltb_lt, !Z.eqb_eq,
    !orb_true_iff, !andb_true_iff, !Z.ltb_lt, !Z.eqb_eq.
  reflexivity.
Qed.

Lemma eqb_cases (a b : date) : Date.eqb a b = true <-> a = b.
Proof.
  unfold Date.eqb. rewrite !andb_true_iff, !Z.eqb_eq.
  destruct a, b; cbn. split; [intros [[-> ->] ->]; reflexivity|].
  intros [= -> -> ->]. auto.
Qed.

Lemma toordinal_lt (a b : date) :
  Date.valid a = true -> Date.valid b = true ->
  Date.ltb a b = true -> toordinal a < toordinal b.
Proof.
  intros Ha Hb Hlt. apply valid_ymd_spec in Ha, Hb.
  destruct Ha as (_ & Hma & Hda), Hb as (_ & Hmb & Hdb).
  apply ltb_cases in Hlt. unfold toordinal, ymd2ord.
  destruct Hlt as [Hy|[Hy Hmd]].
  - pose proof (day_of_year_upper _ _ _ Hma Hda) as Ua.
    pose proof (day_of_year_upper _ _ _ Hmb Hdb) as Ub.
    pose proof (days_before_year_succ (year a)) as Hs.
    pose proof (days_before_year_mono (year a + 1) (year b)) as Hmono.
    lia.
  - rewrite Hy in *.
    pose proof (day_of_year_lt _ _ _ _ _ Hma Hda Hmb Hdb Hmd). lia.
Qed.

(** On calendar dates, the order of dates is the order of their
    ordinals. *)
Lemma ltb_toordinal (a b : date) :
  Date.valid a = true -> Date.valid b = true ->
  Date.ltb a b = (toordinal a <? toordinal b).
Proof.
  intros Ha Hb.
  destruct (Date.ltb a b) eqn:E.
  - symmetry. apply Z.ltb_lt. now apply toordinal_lt.
  - symmetry. apply Z.ltb_ge.
    assert (Htri : Date.ltb b a = true \/ a = b).
    { assert (Hn : ~ (year a < year b
                      \/ (year a = year b
                          /\ (month a < month b
                              \/ (month a = month b /\ day a < day b)))))
        by (rewrite <- ltb_cases; congruence).
      destruct (Z.eq_dec (year a) (year b)) as [Ey|Ny];
        [destruct (Z.eq_dec (month a) (month b)) as [Em|Nm];
         [destruct (Z.eq_dec (day a) (day b)) as [Ed|Nd]|]|].
      - right. destruct a, b; cbn in *. congruence.
      - left. apply ltb_cases. lia.
      - left. apply ltb_cases. lia.
      - left. apply ltb_cases. lia. }
    destruct Htri as [Hlt| ->]; [|lia].
    pose proof (toordinal_lt b a Hb Ha Hlt). lia.
Qed.

Lemma leb_toordinal (a b : date) :
  Date.valid a = true -> Date.valid b = true ->
  Date.leb a b = (toordinal a <=? toordinal b).
Proof.
  intros Ha Hb. unfold Date.leb. rewrite (ltb_toordinal a b Ha Hb).
  destruct (Date.eqb a b) eqn:E.
  - apply eqb_cases in E. subst b. rewrite orb_true_r. symmetry.
    apply Z.leb_le. lia.
  - rewrite orb_false_r.
    destruct (toordinal a <? toordinal b) eqn:Elt.
    + apply Z.ltb_lt in Elt. symmetry. apply Z.leb_le. lia.
    + apply Z.ltb_ge in Elt. symmetry. apply Z.leb_gt.
      assert (toordinal a <> toordinal b); [|lia].
      intros Heq.
      assert (Hba : Date.ltb b a = false)
        by (rewrite (ltb_toordinal b a Hb Ha); apply Z.ltb_ge; lia).
      assert (Hab : Date.ltb a b = false)
        by (rewrite (ltb_toordinal a b Ha Hb); apply Z.ltb_ge; lia).
      assert (a = b); [|subst; rewrite (proj2 (eqb_cases b b) eq_refl) in E;
                        discriminate].
      assert (Hn1 : ~ (year a < year b
                      \/ (year a = year b
                          /\ (month a < month b
                              \/ (month a = month b /\ day a < day b)))))
        by (rewrite <- ltb_cases; congruence).
      assert (Hn2 : ~ (year b < year a
                      \/ (year b = year a
                          /\ (month b < month a
                              \/ (month b = month a /\ day b < day a)))))
        by (rewrite <- ltb_cases; congruence).
      destruct a, b; cbn in *. f_equal; lia.
Qed.

Lemma days_before_year_10000 : days_before_year 10000 = 3652059.
Proof. reflexivity. Qed.

Lemma ord2ymd_valid (n : Z) :
  1 <= n <= MAXORDINAL ->
  Date.valid (ord2ymd n) = true /\ toordinal (ord2ymd n) = n.
Proof.
  intros Hn. destruct (ord2ymd_ordinal n) as (Hy & Hm & Hd & Ho); [lia|].
  split; [|exact Ho]. generalize dependent (ord2ymd n). intros d Hy Hm Hd Ho.
  apply valid_ymd_spec. unfold MINYEAR, MAXYEAR.
  assert (year d <= 9999); [|lia].
  destruct (Z_le_gt_dec (year d) 9999) as [Hle|Hgt]; [exact Hle|].
  exfalso. pose proof (days_before_year_mono 10000 (year d)) as Hmono.
  pose proof (day_of_year_upper _ _ _ Hm Hd) as Hdoy.
  unfold toordinal, ymd2ord in Ho. unfold MAXORDINAL in Hn.
  rewrite days_before_year_10000 in Hmono. lia.
Qed.

Lemma add_days_ordinal (today next : date) (k : Z) :
  add_days today k = Ok next ->
  Date.valid next = true /\ toordinal next = toordinal today + k.
Proof.
  unfold add_days. cbv zeta.
  destruct ((0 <? toordinal today + k) && (toordinal today + k <=? MAXORDINAL))
    eqn:E; [|discriminate].
  intros [= <-]. apply andb_true_iff in E as [E1 E2].
  apply Z.ltb_lt in E1. apply Z.leb_le in E2. apply ord2ymd_valid. lia.
Qed.

Lemma replace_year_ok (b d : date) (y : Z) :
  replace_year b y = Ok d ->
  d = mkDate y (month b) (day b) /\ Date.valid d = true.
Proof.
  unfold replace_year. destruct (valid_ymd y (month b) (day b)) eqn:E;
    [|discriminate].
  intros [= <-]. now split.
Qed.

Lemma reanchor_next_occurrence (today b occ : date) :
  reanchor today b = Ok occ ->
  occ = next_occurrence today b /\ Date.valid occ = true.
Proof.
  unfold reanchor, next_occurrence. cbv zeta.
  destruct (replace_year b (year today)) as [d|] eqn:E; [|discriminate].
  apply replace_year_ok in E as [-> Hv].
  destruct (Date.ltb _ today).
  - intros H. apply replace_year_ok in H as [-> Hv']. now split.
  - intros [= <-]. now split.
Qed.

Lemma next_occurrence_not_before (today b : date) :
  Date.leb today (next_occurrence today b) = true.
Proof.
  unfold next_occurrence. cbv zeta.
  destruct (Date.ltb _ today) eqn:E; unfold Date.leb; apply orb_true_iff.
  - left. apply ltb_cases. cbn. lia.
  - assert (Hn : ~ Date.ltb (mkDate (year today) (month b) (day b)) today
                   = true) by congruence.
    rewrite ltb_cases in Hn. cbn in Hn.
    destruct (Z_lt_ge_dec (month today) (month b)) as [Hlt|Hge].
    + left. apply ltb_cases. cbn. lia.
    + destruct (Z_lt_ge_dec (day today) (day b)) as [Hlt'|Hge'].
      * left. apply ltb_cases. cbn. lia.
      * right. apply eqb_cases. destruct today; cbn in *. f_equal; lia.
Qed.

(** The loop's decision for one contact, in days: where the birthday can
    be re-anchored, the contact is taken exactly when its next birthday is
    at most seven days away. *)
Lemma upcoming_days (today next_week b occ : date) :
  Date.valid today = true -> add_days today 7 = Ok next_week ->
  reanchor today b = Ok occ ->
  0 <= days_until today b
  /\ upcoming today next_week b = (days_until today b <=? 7).
Proof.
  intros Hv Hnw Hocc. unfold upcoming, days_until. rewrite Hocc.
  apply reanchor_next_occurrence in Hocc as [-> Hvo].
  apply add_days_ordinal in Hnw as [Hvn Hon].
  pose proof (next_occurrence_not_before today b) as Hle.
  rewrite (leb_toordinal _ _ Hv Hvo) in Hle. apply Z.leb_le in Hle.
  split; [lia|]. unfold in_window.
  rewrite (leb_toordinal _ _ Hv Hvo), (leb_toordinal _ _ Hvo Hvn), Hon.
  replace (toordinal today <=? toordinal (next_occurrence today b)) with true
    by (symmetry; apply Z.leb_le; lia).
  cbn [andb]. destruct (_ <=? toordinal today + 7) eqn:E; symmetry.
  - apply Z.leb_le in E. apply Z.leb_le. lia.
  - apply Z.leb_gt in E. apply Z.leb_gt. lia.
Qed.

Lemma replace_year_leap_day_ok (b : date) (y : Z) :
  leap_day b -> MINYEAR <= y <= MAXYEAR -> is_leap y = true ->
  replace_year b y = Ok (mkDate y 2 29).
Proof.
  intros [Hm Hd] Hy Hl. unfold replace_year. rewrite Hm, Hd.
  replace (valid_ymd y 2 29) with true; [reflexivity|].
  symmetry. apply valid_ymd_spec. unfold days_in_month. rewrite Hl. cbn. lia.
Qed.

(** A valid birthday fails to be re-anchored in exactly one situation. *)
Lemma reanchor_fails_iff (today b : date) :
  Date.valid today = true -> Date.valid b = true -> year today < MAXYEAR ->
  (reanchor today b = Raise ValueError
   <-> leap_day b /\ leap_day_unreachable today).
Proof.
  intros Hv Hb Hmax. split.
  - intros Hfail.
    assert (Hleap : leap_day b).
    { destruct (Z.eq_dec (month b) 2) as [Em|Nm];
        [destruct (Z.eq_dec (day b) 29) as [Ed|Nd]; [now split|]|].
      - destruct (reanchor_defined today b Hv Hb Hmax) as [d Hd];
          [intros [_ ?]; contradiction | congruence].
      - destruct (reanchor_defined today b Hv Hb Hmax) as [d Hd];
          [intros [? _]; contradiction | congruence]. }
    split; [exact Hleap|]. unfold leap_day_unreachable.
    destruct (is_leap (year today)) eqn:El; [|now left]. right.
    split; [reflexivity|].
    destruct (Date.ltb (mkDate (year today) 2 29) today) eqn:Elt;
      [reflexivity|]. exfalso.
    unfold reanchor in Hfail. apply valid_ymd_spec in Hv.
    rewrite (replace_year_leap_day_ok b (year today) Hleap) in Hfail by tauto.
    rewrite Elt in Hfail. discriminate.
  - intros [Hleap Hun]. now apply reanchor_leap_day.
Qed.

Lemma reanchor_all_or_one (today : date) (l : list Contact) :
  (exists c, In c l /\ reanchor today (birthday c) = Raise ValueError)
  \/ (forall c, In c l -> exists d, reanchor today (birthday c) = Ok d).
Proof.
  induction l as [|x l [(c & Hc & Hf)|Hall]].
  - right. intros c [].
  - left. exists c. split; [now right | exact Hf].
  - destruct (reanchor today (birthday x)) as [d|e] eqn:E.
    + right. intros c [<-|Hc]; eauto.
    + left. exists x. split; [now left|].
      now rewrite (reanchor_raise _ _ _ E) in E.
Qed.

Section BirthdayFacts.

Variable jwt_decode : string -> option Payload.

(** X17. Under a verified identity, for a calendar date [today] with seven
    days left in the calendar, and where every birthday of the owner can be
    re-anchored: the operation returns, in table order, exactly the owner's
    contacts whose next birthday, counted from today, is at most seven days
    away (today itself counting as zero days). *)
Theorem get_upcoming_birthdays_within_seven_days :
  forall token owner today next_week s,
    identifies jwt_decode token owner ->
    Date.valid today = true ->
    add_days today 7 = Ok next_week ->
    (forall c, In c (owned (Some owner) (table s)) ->
               exists d, reanchor today (birthday c) = Ok d) ->
    fst (get_upcoming_birthdays jwt_decode today token s)
    = Ok (List.filter (fun c => days_until today (birthday c) <=? 7)
            (owned (Some owner) (table s)))
    /\ forall c, In c (owned (Some owner) (table s)) ->
                 0 <= days_until today (birthday c).
Proof.
  intros token owner today next_week s Hid Hv Hnw Hall. split.
  - rewrite (get_upcoming_birthdays_window _ _ _ _ _ _ Hid Hnw Hall).
    f_equal. apply filter_ext_in. intros c Hc.
    destruct (Hall c Hc) as [d Hd].
    apply (upcoming_days today next_week (birthday c) d Hv Hnw Hd).
  - intros c Hc. destruct (Hall c Hc) as [d Hd].
    apply (upcoming_days today next_week (birthday c) d Hv Hnw Hd).
Qed.

(** X18. Under a verified identity, for a calendar date [today] before the
    year 9999 with seven days left in the calendar, and an owner whose
    stored birthdays are all calendar dates: the operation raises
    [ValueError] exactly when the owner has a contact born on 29 February
    and today's year has no 29 February or has it behind; in every other
    case it returns a list. *)
Theorem get_upcoming_birthdays_fails_iff :
  forall token owner today next_week s,
    identifies jwt_decode token owner ->
    Date.valid today = true -> year today < MAXYEAR ->
    add_days today 7 = Ok next_week ->
    (forall c, In c (owned (Some owner) (table s)) ->
               Date.valid (birthday c) = true) ->
    let out := fst (get_upcoming_birthdays jwt_decode today token s) in
    (out = Raise ValueError
     <-> (exists c, In c (owned (Some owner) (table s))
                    /\ leap_day (birthday c))
         /\ leap_day_unreachable today)
    /\ ((exists l, out = Ok l) \/ out = Raise ValueError).
Proof.
  intros token owner today next_week s Hid Hv Hmax Hnw Hvalid out.
  assert (Hout : out = birthday_loop today next_week []
                         (owned (Some owner) (table s))).
  { subst out. now rewrite (get_upcoming_birthdays_unfold _ _ _ _ _ _ Hid Hnw). }
  destruct (reanchor_all_or_one today (owned (Some owner) (table s)))
    as [(c & Hc & Hf)|Hall].
  - assert (Hraise : out = Raise ValueError).
    { rewrite Hout. now apply birthday_loop_raises with (c := c). }
    split; [|now right]. split; [|intros _; exact Hraise].
    intros _. apply reanchor_fails_iff in Hf as [Hl Hu]; auto.
    split; [now exists c | exact Hu].
  - assert (Hok : exists l, out = Ok l).
    { rewrite Hout, birthday_loop_total by exact Hall. eauto. }
    split; [|now left]. split.
    + destruct Hok as [l Hl]. congruence.
    + intros [(c & Hc & Hl) Hu]. exfalso.
      destruct (Hall c Hc) as [d Hd].
      assert (Hf : reanchor today (birthday c) = Raise ValueError)
        by (apply reanchor_fails_iff; auto).
      congruence.
Qed.

End BirthdayFacts.

(** ** Tokens, login and registration *)

Section TokenFacts.

Variable jwt_encode : Payload -> string.

(** X19. A token's expiry is thirty minutes after its creation both when
    no duration is given and when the zero duration is given; the claims
    handed to the encoder are the caller's, except that ["exp"] holds the
    expiry in whole seconds, replacing any ["exp"] of the caller. *)
Theorem create_access_token_expiry :
  forall now data,
    create_access_token jwt_encode now data None
    = create_access_token jwt_encode now data (Some (timedelta_minutes 30))
    /\ create_access_token jwt_encode now data (Some 0)
       = create_access_token jwt_encode now data (Some (timedelta_minutes 30))
    /\ forall expires_delta token,
         create_access_token jwt_encode now data expires_delta = Ok token ->
         exists claims,
           token = jwt_encode claims
           /\ claims !! "exp"
              = Some (CInt ((now + or_default expires_delta) / 1000000))
           /\ forall key, key <> "exp" -> claims !! key = data !! key.
Proof.
  intros now data. split; [reflexivity|]. split; [reflexivity|].
  intros expires_delta token. unfold create_access_token, datetime_add.
  cbv zeta. destruct (_ && _); [|discriminate]. intros [= <-].
  eexists. split; [reflexivity|]. split.
  - apply lookup_insert_eq.
  - intros key Hkey. now apply lookup_insert_ne.
Qed.

Variable jwt_decode : string -> option Payload.
Variable get_password_hash : string -> string -> Users.outcome string.
Variable verify_password : string -> string -> Users.outcome bool.
Variable send_verification_email : string -> Z -> Users.outcome bool.

Lemma authenticate_found (s : Users.Db) (u : Users.User) (password : string) :
  Users.wf s -> In u (Users.users s) ->
  Users.authenticate_user verify_password (Users.username u) password s
  = (match verify_password password (Users.hashed_password u) with
     | Users.Done verified => Users.Done (if verified then Some u else None)
     | Users.Failed e => Users.Failed e
     end, s).
Proof.
  intros (_ & Hnames & _) Hin.
  unfold Users.authenticate_user, Users.bind, Users.first, Users.call.
  rewrite (head_filter_unique Users.username _ _ u Hnames Hin).
  - now destruct (verify_password _ _) as [[|]|].
  - apply String.eqb_refl.
  - intros r _ Hr. now apply String.eqb_eq in Hr.
Qed.

Lemma authenticate_unknown (s : Users.Db) (name password : string) :
  (forall u, In u (Users.users s) -> Users.username u <> name) ->
  Users.authenticate_user verify_password name password s
  = (Users.Done None, s).
Proof.
  intros Hnone. unfold Users.authenticate_user, Users.bind, Users.first.
  rewrite head_filter_none; [reflexivity|].
  intros u Hu. apply String.eqb_neq. now apply Hnone.
Qed.

(** X20. Login fails with HTTP 401 "Invalid credentials", issuing no
    token and leaving the table as it was, when no user has the username,
    and (usernames being unique) when the password does not verify against
    the hash stored for that user. *)
Theorem login_rejects_bad_credentials :
  forall now name password s,
    let denied :=
      (Users.Failed (A := Token)
         (Users.Exn (HTTPException 401 "Invalid credentials")), s) in
    ((forall u, In u (Users.users s) -> Users.username u <> name) ->
     login jwt_encode verify_password now name password s = denied)
    /\ (Users.wf s ->
        forall u, In u (Users.users s) -> Users.username u = name ->
                  verify_password password (Users.hashed_password u)
                  = Users.Done false ->
                  login jwt_encode verify_password now name password s
                  = denied).
Proof.
  intros now name password s denied. split.
  - intros Hnone. unfold login, Users.bind.
    now rewrite (authenticate_unknown s name password Hnone).
  - intros Hwf u Hin <- Hbad. unfold login, Users.bind.
    now rewrite (authenticate_found s u password Hwf Hin), Hbad.
Qed.

(** X21. With unique usernames: when the password verifies against the
    stored hash of the user with the given username, and thirty minutes
    from now is still in the calendar, login leaves the table as it was and
    answers a bearer token made from the claims [user_id] (the user's key),
    [email] and [exp]. If the token library decodes that token to those
    claims, the accessor takes it for that user: a contact created with the
    token is owned by the user's key. *)
Theorem login_token_acts_for_user :
  forall now name password s u expire,
    Users.wf s -> In u (Users.users s) -> Users.username u = name ->
    verify_password password (Users.hashed_password u) = Users.Done true ->
    datetime_add now (timedelta_minutes 30) = Ok expire ->
    let claims := <["exp" := timestamp expire]> (login_data u) in
    jwt_decode (jwt_encode claims) = Some claims ->
    login jwt_encode verify_password now name password s
    = (Users.Done (mkToken (jwt_encode claims) "bearer"), s)
    /\ identifies jwt_decode (jwt_encode claims) (Users.id u)
    /\ forall fields store,
         exists c,
           fst (create_contact jwt_decode fields (jwt_encode claims) store)
           = Ok c
           /\ user_id c = Some (Users.id u).
Proof.
  intros now name password s u expire Hwf Hin <- Hgood Hexp claims Hdec.
  assert (Hid : identifies jwt_decode (jwt_encode claims) (Users.id u)).
  { exists claims. split; [exact Hdec|]. subst claims. unfold login_data.
    rewrite lookup_insert_ne by discriminate. apply lookup_insert_eq. }
  split; [|split; [exact Hid|]].
  - unfold login, Users.bind.
    rewrite (authenticate_found s u password Hwf Hin), Hgood.
    unfold create_access_token.
    change (or_default None) with (timedelta_minutes 30). now rewrite Hexp.
  - intros fields store. rewrite (create_contact_unfold _ _ _ _ _ Hid).
    unfold db_add_commit_refresh. cbn [fst]. eexists. split; reflexivity.
Qed.

(** X22. Registration stores the user before the verification mail is
    sent and does not depend on whether it went out: with unique keys,
    usernames and emails and a fresh username and email, once the password
    is hashed the row is in the table afterwards whatever the mailer does;
    the request answers the row when the mailer answers, be it [False],
    and fails with the mailer's exception when the mailer raises. When the
    hasher refuses the password, registration fails with the hasher's
    exception and the table is as before. *)
Theorem register_keeps_user_whatever_the_mail :
  forall salt user s,
    Users.wf s ->
    (forall u, In u (Users.users s) -> Users.email u <> Users.c_email user) ->
    (forall u, In u (Users.users s) ->
               Users.username u <> Users.c_username user) ->
    let out :=
      register get_password_hash send_verification_email salt user s in
    match get_password_hash (Users.c_password user) salt with
    | Users.Done hashed =>
        let row :=
          Users.mkUser (Users.next_id s) (Users.c_username user)
            (Users.c_email user) hashed true false None in
        Users.users (snd out) = Users.users s ++ [row]
        /\ (forall sent,
               send_verification_email (Users.c_email user) (Users.next_id s)
               = Users.Done sent ->
               fst out = Users.Done row)
        /\ (forall e,
               send_verification_email (Users.c_email user) (Users.next_id s)
               = Users.Failed e ->
               fst out = Users.Failed e)
    | Users.Failed e => out = (Users.Failed e, s)
    end.
Proof.
  intros salt user s Hwf Hmail Hname out.
  destruct (get_password_hash (Users.c_password user) salt) as [hashed|e]
    eqn:Hh.
  - destruct (UsersFacts.create_user_run get_password_hash salt user s hashed
                Hmail Hname Hh) as [_ Hrun].
    cbv zeta in Hrun |- *.
    subst out. unfold register, Users.bind. rewrite Hrun.
    cbn [Users.email Users.id].
    destruct (send_verification_email _ _) as [sent|e]; cbn.
    + split; [reflexivity|]. split; [reflexivity | discriminate].
    + split; [reflexivity|]. split; [discriminate|]. now intros e' [= <-].
  - subst out. unfold register, Users.bind.
    now rewrite (UsersFacts.create_user_refused get_password_hash salt user s
                   e Hmail Hh).
Qed.

End TokenFacts.

(** ** Password validation *)

Lemma utf8_size_bounds (c : Z) : 1 <= utf8_size c <= 4.
Proof.
  unfold utf8_size.
  destruct (c <? 128), (c <? 2048), (c <? 65536); lia.
Qed.

Lemma utf8_len_bounds (v : list Z) (n : Z) :
  utf8_len v = Ok n ->
  Z.of_nat (length v) <= n <= 4 * Z.of_nat (length v)
  /\ Forall (fun c => is_surrogate c = false) v.
Proof.
  revert n. induction v as [|c v IH]; intros n H.
  - injection H as <-. cbn. split; [lia | constructor].
  - cbn [utf8_len] in H. destruct (is_surrogate c) eqn:Es; [discriminate|].
    destruct (utf8_len v) as [k|]; [|discriminate]. injection H as <-.
    destruct (IH k eq_refl) as [Hk Hf]. pose proof (utf8_size_bounds c).
    rewrite length_cons, Nat2Z.inj_succ. split; [lia | now constructor].
Qed.

Lemma utf8_len_defined (v : list Z) :
  Forall (fun c => is_surrogate c = false) v -> exists n, utf8_len v = Ok n.
Proof.
  induction 1 as [|c v Hc _ [n IH]]; [now exists 0|].
  cbn [utf8_len]. rewrite Hc, IH. eauto.
Qed.

Lemma utf8_len_ascii (v : list Z) :
  Forall (fun c => 0 <= c < 128) v ->
  utf8_len v = Ok (Z.of_nat (length v)).
Proof.
  induction 1 as [|c v Hc _ IH]; [reflexivity|].
  cbn [utf8_len]. rewrite IH.
  replace (is_surrogate c) with false
    by (symmetry; unfold is_surrogate; apply andb_false_iff; left;
        apply Z.leb_gt; lia).
  unfold utf8_size. replace (c <? 128) with true
    by (symmetry; apply Z.ltb_lt; lia).
  rewrite length_cons, Nat2Z.inj_succ. f_equal. lia.
Qed.

(** X23. The password validator returns the password unchanged or raises
    [ValueError]. What it accepts has at most 72 code points and no
    surrogate; it accepts every password of at most 18 code points that
    has no surrogate, and rejects every password of more than 72 code
    points; a password of ASCII characters is accepted exactly when it has
    at most 72 of them. *)
Theorem password_length_bounds :
  forall v,
    (password_length v = Ok v \/ password_length v = Raise ValueError)
    /\ (password_length v = Ok v ->
        (length v <= 72)%nat /\ Forall (fun c => is_surrogate c = false) v)
    /\ (Forall (fun c => is_surrogate c = false) v -> (length v <= 18)%nat ->
        password_length v = Ok v)
    /\ ((72 < length v)%nat -> password_length v = Raise ValueError)
    /\ (Forall (fun c => 0 <= c < 128) v ->
        (password_length v = Ok v <-> (length v <= 72)%nat)).
Proof.
  intros v. unfold password_length.
  destruct (utf8_len v) as [n|e] eqn:E.
  - destruct (utf8_len_bounds v n E) as [Hn Hs].
    destruct (72 <? n) eqn:E72;
      [apply Z.ltb_lt in E72 | apply Z.ltb_ge in E72].
    + split; [now right|]. split; [discriminate|]. split; [intros; lia|].
      split; [reflexivity|]. intros Ha. rewrite (utf8_len_ascii v Ha) in E.
      injection E as <-. split; [discriminate | lia].
    + split; [now left|]. split; [intros _; split; [lia | exact Hs]|].
      split; [reflexivity|]. split; [intros; lia|].
      intros _. split; [lia | reflexivity].
  - assert (He : e = ValueError).
    { clear -E. revert E. induction v as [|c v IH]; cbn [utf8_len];
        [discriminate|].
      destruct (is_surrogate c); [now intros [= <-]|].
      destruct (utf8_len v); [discriminate|]. intros [= <-]. now apply IH. }
    subst e. split; [now right|]. split; [discriminate|].
    split; [|split; [reflexivity|]].
    + intros Hs _. destruct (utf8_len_defined v Hs) as [n Hn]. congruence.
    + intros Ha. rewrite (utf8_len_ascii v Ha) in E. discriminate.
Qed.

(** ** Routing *)

Lemma matches_search (path : list string) :
  matches [Lit "contacts"; Lit "search"] path = true ->
  matches [Lit "contacts"; Param "contact_id"] path = true.
Proof.
  destruct path as [|a [|b [|c path]]]; cbn [matches];
    rewrite ?andb_false_r; try discriminate.
  intros H. apply andb_true_iff in H as [Ha Hb]. rewrite andb_true_r in Hb.
  apply String.eqb_eq in Hb. subst b. now rewrite Ha.
Qed.

(** X24. No request is ever handled by the search route: the route
    [/contacts/{contact_id}] is declared before [/contacts/search] and
    matches every path the latter matches, so that GET [/contacts/search]
    goes to [read_contact] with ["search"] as the contact id, as does GET
    on every other non-empty segment; GET [/contacts/birthdays/upcoming]
    does reach its route. *)
Theorem search_route_is_shadowed :
  (forall m path, dispatch m path <> Handled search_contacts_route)
  /\ (forall x, x <> "" -> dispatch GET ["contacts"; x] = Handled read_contact)
  /\ dispatch GET ["contacts"; "search"] = Handled read_contact
  /\ dispatch GET ["contacts"; "birthdays"; "upcoming"]
     = Handled upcoming_birthdays_route.
Proof.
  split; [|split; [|split; reflexivity]].
  - intros m path. unfold dispatch, contact_routes. cbn [route].
    destruct (matches [Lit "contacts"; Lit "search"] path) eqn:Es.
    + rewrite (matches_search path Es).
      destruct (matches [Lit "contacts"; Lit ""] path),
        (matches [Lit "contacts"; Lit "birthdays"; Lit "upcoming"] path),
        m; cbn [method_eqb]; discriminate.
    + destruct (matches [Lit "contacts"; Lit ""] path),
        (matches [Lit "contacts"; Param "contact_id"] path),
        (matches [Lit "contacts"; Lit "birthdays"; Lit "upcoming"] path),
        m; cbn [method_eqb]; discriminate.
  - intros x Hx. unfold dispatch, contact_routes. cbn [route matches].
    change ("contacts" =? "contacts")%string with true. cbn [andb].
    assert (E1 : (x =? "")%string = false) by now apply String.eqb_neq.
    assert (E2 : ("" =? x)%string = false)
      by (apply String.eqb_neq; congruence).
    rewrite E1, E2. reflexivity.
Qed.

(** ** The further properties at work *)

Lemma mary_in_db1 : In Demo.mary_row (table Demo.db1).
Proof. rewrite db1_table. right. left. reflexivity. Qed.

Lemma john_in_db1 : In Demo.john_row (table Demo.db1).
Proof. rewrite db1_table. left. reflexivity. Qed.

Lemma demo_users_wf : Users.wf DemoUsers.db.
Proof.
  repeat split; cbn;
    repeat (constructor; cbn; try (intuition discriminate); try lia).
Qed.

Lemma alice_in_users : In DemoUsers.alice_row (Users.users DemoUsers.db).
Proof. left. reflexivity. Qed.

Lemma get_contact_found_iff_owned_witness :
  identifies Demo.jwt_decode "alice.jwt" 1
  /\ wf Demo.db1
  /\ fst (get_contact Demo.jwt_decode 2 "alice.jwt" Demo.db1)
     = Ok (Some Demo.mary_row).
Proof.
  split; [exact alice_identified|]. split; [exact db1_wf|].
  destruct (get_contact_found_iff_owned Demo.jwt_decode "alice.jwt" 1 Demo.db1
              alice_identified db1_wf) as [H _].
  exact (H Demo.mary_row mary_in_db1 eq_refl).
Defined.

Lemma create_then_get_witness :
  identifies Demo.jwt_decode "alice.jwt" 1
  /\ wf Demo.db1
  /\ exists c,
       fst (create_contact Demo.jwt_decode Demo.leapling "alice.jwt" Demo.db1)
       = Ok c
       /\ fst (get_contact Demo.jwt_decode (id c) "alice.jwt"
                 (snd (create_contact Demo.jwt_decode Demo.leapling
                         "alice.jwt" Demo.db1)))
          = Ok (Some c).
Proof.
  split; [exact alice_identified|]. split; [exact db1_wf|].
  exact (create_then_get Demo.jwt_decode "alice.jwt" 1 Demo.leapling Demo.db1
           alice_identified db1_wf).
Defined.

Lemma create_then_delete_witness :
  identifies Demo.jwt_decode "alice.jwt" 1
  /\ wf Demo.db1
  /\ exists c,
       let s1 :=
         snd (create_contact Demo.jwt_decode Demo.leapling "alice.jwt"
                Demo.db1) in
       fst (create_contact Demo.jwt_decode Demo.leapling "alice.jwt" Demo.db1)
       = Ok c
       /\ fst (delete_contact Demo.jwt_decode (id c) "alice.jwt" s1) = Ok true
       /\ table (snd (delete_contact Demo.jwt_decode (id c) "alice.jwt" s1))
          = table Demo.db1.
Proof.
  split; [exact alice_identified|]. split; [exact db1_wf|].
  exact (create_then_delete Demo.jwt_decode "alice.jwt" 1 Demo.leapling
           Demo.db1 alice_identified db1_wf).
Defined.

Lemma empty_claims_rejected_witness :
  decode_access_token jwt_decode_blank "blank.jwt" = Some ∅
  /\ get_contacts jwt_decode_blank 0 100 "blank.jwt" Demo.db1
     = (Raise invalid_token, Demo.db1).
Proof.
  split; [reflexivity|].
  destruct (empty_claims_rejected jwt_decode_blank "blank.jwt" Demo.db1
              eq_refl) as (_ & H & _).
  exact (H 0 100).
Defined.

Lemma search_ignores_query_case_witness :
  lower (dialect Demo.db1) (str "JO") = lower (dialect Demo.db1) (str "jo")
  /\ search_contacts Demo.jwt_decode (str "JO") "alice.jwt" Demo.db1
     = search_contacts Demo.jwt_decode (str "jo") "alice.jwt" Demo.db1.
Proof.
  split; [reflexivity|].
  exact (search_ignores_query_case Demo.jwt_decode (str "JO") (str "jo")
           "alice.jwt" Demo.db1 eq_refl).
Defined.

Lemma get_contacts_pages_concatenate_witness :
  identifies Demo.jwt_decode "alice.jwt" 1
  /\ 0 <= 1 /\ 0 <= 2
  /\ exists page1 page2,
       fst (get_contacts Demo.jwt_decode 0 1 "alice.jwt" Demo.db1) = Ok page1
       /\ fst (get_contacts Demo.jwt_decode (0 + 1) 2 "alice.jwt" Demo.db1)
          = Ok page2
       /\ fst (get_contacts Demo.jwt_decode 0 (1 + 2) "alice.jwt" Demo.db1)
          = Ok (page1 ++ page2).
Proof.
  split; [exact alice_identified|]. split; [lia|]. split; [lia|].
  exact (get_contacts_pages_concatenate Demo.jwt_decode "alice.jwt" 1 0 1 2
           Demo.db1 alice_identified ltac:(lia) ltac:(lia) ltac:(lia)).
Defined.

Lemma update_contact_idempotent_witness :
  identifies Demo.jwt_decode "alice.jwt" 1
  /\ wf Demo.db1
  /\ In Demo.mary_row (table Demo.db1)
  /\ u_user_id Demo.new_phone = None
  /\ fst (update_contact Demo.jwt_decode 2 Demo.new_phone "alice.jwt"
            (snd (update_contact Demo.jwt_decode 2 Demo.new_phone "alice.jwt"
                    Demo.db1)))
     = fst (update_contact Demo.jwt_decode 2 Demo.new_phone "alice.jwt"
              Demo.db1).
Proof.
  split; [exact alice_identified|]. split; [exact db1_wf|].
  split; [exact mary_in_db1|]. split; [reflexivity|].
  destruct (update_contact_idempotent Demo.jwt_decode "alice.jwt" 1
              Demo.new_phone Demo.db1 Demo.mary_row alice_identified db1_wf
              mary_in_db1 eq_refl (or_introl eq_refl)) as (_ & H & _).
  exact H.
Defined.

Lemma update_hands_row_over_witness :
  identifies Demo.jwt_decode "alice.jwt" 1
  /\ identifies Demo.jwt_decode "bob.jwt" 2
  /\ 1 <> 2 /\ wf Demo.db1
  /\ In Demo.john_row (table Demo.db1)
  /\ u_user_id Demo.hand_over = Some (Some 2)
  /\ fst (get_contact Demo.jwt_decode 1 "alice.jwt"
            (snd (update_contact Demo.jwt_decode 1 Demo.hand_over "alice.jwt"
                    Demo.db1)))
     = Ok None.
Proof.
  split; [exact alice_identified|]. split; [exact bob_identified|].
  split; [lia|]. split; [exact db1_wf|]. split; [exact john_in_db1|].
  split; [reflexivity|].
  destruct (update_hands_row_over Demo.jwt_decode "alice.jwt" "bob.jwt" 1 2
              Demo.hand_over Demo.db1 Demo.john_row alice_identified
              bob_identified ltac:(lia) db1_wf john_in_db1 eq_refl eq_refl)
    as (_ & H & _).
  exact H.
Defined.

Lemma create_user_rejects_duplicates_witness :
  In DemoUsers.alice_row (Users.users DemoUsers.db)
  /\ Users.create_user DemoUsers.get_password_hash "s1" DemoUsers.alice
       DemoUsers.db
     = (Users.Failed
          (Users.Exn (HTTPException 409 "Email already registered")),
        DemoUsers.db).
Proof.
  split; [exact alice_in_users|].
  destruct (UsersFacts.create_user_rejects_duplicates
              DemoUsers.get_password_hash "s1" DemoUsers.alice DemoUsers.db)
    as [H _].
  exact (H DemoUsers.alice_row alice_in_users eq_refl).
Defined.

Lemma create_user_appends_witness :
  Users.wf DemoUsers.empty_db
  /\ Users.create_user DemoUsers.get_password_hash "s1" DemoUsers.alice
       DemoUsers.empty_db
     = (Users.Done DemoUsers.alice_row,
        Users.mkDb [DemoUsers.alice_row] 2).
Proof.
  assert (Hwf : Users.wf DemoUsers.empty_db)
    by (repeat split; constructor).
  split; [exact Hwf|].
  exact (proj1 (UsersFacts.create_user_appends DemoUsers.get_password_hash
                  "s1" DemoUsers.alice DemoUsers.empty_db Hwf
                  (fun _ (H : False) => match H with end)
                  (fun _ (H : False) => match H with end))).
Defined.

Lemma register_then_authenticate_witness :
  Users.wf DemoUsers.empty_db
  /\ DemoUsers.get_password_hash "correct horse" "s1"
     = Users.Done "s1$correct horse"
  /\ DemoUsers.verify_password "correct horse" "s1$correct horse"
     = Users.Done true
  /\ exists row,
       fst (Users.create_user DemoUsers.get_password_hash "s1" DemoUsers.alice
              DemoUsers.empty_db) = Users.Done row
       /\ Users.authenticate_user DemoUsers.verify_password "alice"
            "correct horse"
            (snd (Users.create_user DemoUsers.get_password_hash "s1"
                    DemoUsers.alice DemoUsers.empty_db))
          = (Users.Done (Some row),
             snd (Users.create_user DemoUsers.get_password_hash "s1"
                    DemoUsers.alice DemoUsers.empty_db)).
Proof.
  assert (Hwf : Users.wf DemoUsers.empty_db)
    by (repeat split; constructor).
  split; [exact Hwf|]. split; [reflexivity|]. split; [reflexivity|].
  exact (UsersFacts.register_then_authenticate DemoUsers.get_password_hash
           DemoUsers.verify_password "s1" DemoUsers.alice DemoUsers.empty_db
           "s1$correct horse" Hwf (fun _ (H : False) => match H with end)
           (fun _ (H : False) => match H with end) eq_refl eq_refl).
Defined.

Lemma authenticate_user_sound_witness :
  Users.wf DemoUsers.db
  /\ In DemoUsers.alice_row (Users.users DemoUsers.db)
  /\ DemoUsers.verify_password DemoUsers.nul_password
       (Users.hashed_password DemoUsers.alice_row)
     = Users.Failed (Users.Exn ValueError)
  /\ fst (Users.authenticate_user DemoUsers.verify_password "alice"
            DemoUsers.nul_password DemoUsers.db)
     = Users.Failed (Users.Exn ValueError).
Proof.
  split; [exact demo_users_wf|]. split; [exact alice_in_users|].
  split; [reflexivity|].
  destruct (UsersFacts.authenticate_user_sound DemoUsers.verify_password
              "alice" DemoUsers.nul_password DemoUsers.db)
    as (_ & _ & _ & _ & H).
  exact (H demo_users_wf DemoUsers.alice_row alice_in_users eq_refl).
Defined.

Lemma verify_user_email_marks_one_row_witness :
  Users.wf DemoUsers.db
  /\ In DemoUsers.alice_row (Users.users DemoUsers.db)
  /\ fst (Users.verify_user_email (Some 1) DemoUsers.db)
     = Users.Done (Some (Users.set_is_verified true DemoUsers.alice_row)).
Proof.
  split; [exact demo_users_wf|]. split; [exact alice_in_users|].
  destruct (UsersFacts.verify_user_email_marks_one_row DemoUsers.db
              demo_users_wf) as [H _].
  exact (proj1 (H DemoUsers.alice_row alice_in_users)).
Defined.

Lemma update_avatar_last_write_wins_witness :
  Users.wf DemoUsers.db
  /\ In DemoUsers.alice_row (Users.users DemoUsers.db)
  /\ fst (Users.update_avatar (Some 1) (Some "https://img.example/a.png")
            DemoUsers.db)
     = Users.Done
         (Some (Users.set_avatar_url (Some "https://img.example/a.png")
                  DemoUsers.alice_row)).
Proof.
  split; [exact demo_users_wf|]. split; [exact alice_in_users|].
  destruct (UsersFacts.update_avatar_last_write_wins DemoUsers.db
              demo_users_wf) as [H _].
  exact (proj1 (H DemoUsers.alice_row (Some "https://img.example/a.png")
                  alice_in_users)).
Defined.

Lemma db1_reachable : reachable Demo.jwt_decode Demo.db1.
Proof.
  exact (reachable_serve Demo.jwt_decode _ (Create Demo.newyear) "alice.jwt"
           (reachable_serve Demo.jwt_decode _ (Create Demo.mary) "alice.jwt"
              (reachable_serve Demo.jwt_decode _ (Create Demo.john)
                 "alice.jwt"
                 (reachable_empty Demo.jwt_decode 1 Demo.sqlite)))).
Qed.

Lemma reachable_wf_witness :
  reachable Demo.jwt_decode Demo.db1 /\ wf Demo.db1.
Proof.
  split; [exact db1_reachable|].
  exact (reachable_wf Demo.jwt_decode Demo.db1 db1_reachable).
Defined.

Lemma serve_leaves_other_owners_rows_witness :
  identifies Demo.jwt_decode "bob.jwt" 2
  /\ wf Demo.db1
  /\ In Demo.mary_row (table Demo.db1)
  /\ user_id Demo.mary_row <> Some 2
  /\ In Demo.mary_row (table (serve Demo.jwt_decode (Delete 2) "bob.jwt"
                                Demo.db1)).
Proof.
  assert (Hne : user_id Demo.mary_row <> Some 2) by discriminate.
  split; [exact bob_identified|]. split; [exact db1_wf|].
  split; [exact mary_in_db1|]. split; [exact Hne|].
  destruct (serve_leaves_other_owners_rows Demo.jwt_decode "bob.jwt" 2
              (Delete 2) Demo.db1 bob_identified db1_wf) as [H _].
  exact (H Demo.mary_row mary_in_db1 Hne).
Defined.

Lemma db1_reanchors (c : Contact) :
  In c (owned (Some 1) (table Demo.db1)) ->
  exists d, reanchor (mkDate 2024 12 28) (birthday c) = Ok d.
Proof.
  rewrite db1_table. intros H.
  apply (proj1 (In_owned _ _ _)) in H. destruct H as [H _].
  destruct H as [H|[H|[H|[]]]]; subst c; eexists; vm_compute; reflexivity.
Qed.

Lemma get_upcoming_birthdays_within_seven_days_witness :
  identifies Demo.jwt_decode "alice.jwt" 1
  /\ Date.valid (mkDate 2024 12 28) = true
  /\ add_days (mkDate 2024 12 28) 7 = Ok (mkDate 2025 1 4)
  /\ days_until (mkDate 2024 12 28) (birthday Demo.newyear_row) = 4
  /\ fst (get_upcoming_birthdays Demo.jwt_decode (mkDate 2024 12 28)
            "alice.jwt" Demo.db1)
     = Ok (List.filter
             (fun c => days_until (mkDate 2024 12 28) (birthday c) <=? 7)
             (owned (Some 1) (table Demo.db1))).
Proof.
  split; [exact alice_identified|]. split; [reflexivity|].
  split; [reflexivity|]. split; [reflexivity|].
  exact (proj1 (get_upcoming_birthdays_within_seven_days Demo.jwt_decode
                  "alice.jwt" 1 (mkDate 2024 12 28) (mkDate 2025 1 4)
                  Demo.db1 alice_identified eq_refl eq_refl db1_reanchors)).
Defined.

Lemma db_leap_valid (c : Contact) :
  In c (owned (Some 1) (table Demo.db_leap)) ->
  Date.valid (birthday c) = true.
Proof.
  rewrite db_leap_table. intros H.
  apply (proj1 (In_owned _ _ _)) in H. destruct H as [H _].
  destruct H as [H|[H|[]]]; subst c; vm_compute; reflexivity.
Qed.

Lemma get_upcoming_birthdays_fails_iff_witness :
  identifies Demo.jwt_decode "alice.jwt" 1
  /\ Date.valid (mkDate 2024 2 25) = true
  /\ year (mkDate 2024 2 25) < MAXYEAR
  /\ add_days (mkDate 2024 2 25) 7 = Ok (mkDate 2024 3 3)
  /\ ~ leap_day_unreachable (mkDate 2024 2 25)
  /\ exists l,
       fst (get_upcoming_birthdays Demo.jwt_decode (mkDate 2024 2 25)
              "alice.jwt" Demo.db_leap) = Ok l.
Proof.
  assert (Hreach : ~ leap_day_unreachable (mkDate 2024 2 25)).
  { intros [H|[_ H]]; discriminate H. }
  split; [exact alice_identified|]. split; [reflexivity|].
  split; [reflexivity|]. split; [reflexivity|]. split; [exact Hreach|].
  destruct (get_upcoming_birthdays_fails_iff Demo.jwt_decode "alice.jwt" 1
              (mkDate 2024 2 25) (mkDate 2024 3 3) Demo.db_leap
              alice_identified eq_refl eq_refl eq_refl db_leap_valid)
    as [Hiff [Hok|Hfail]]; [exact Hok|].
  exfalso. apply Hiff in Hfail as [_ Hun]. exact (Hreach Hun).
Defined.

Lemma create_access_token_expiry_witness :
  create_access_token DemoUsers.jwt_encode DemoUsers.now
    (login_data DemoUsers.alice_row) (Some 0)
  = create_access_token DemoUsers.jwt_encode DemoUsers.now
      (login_data DemoUsers.alice_row) (Some (timedelta_minutes 30)).
Proof.
  destruct (create_access_token_expiry DemoUsers.jwt_encode DemoUsers.now
              (login_data DemoUsers.alice_row)) as (_ & H & _).
  exact H.
Defined.

Lemma login_rejects_bad_credentials_witness :
  Users.wf DemoUsers.db
  /\ In DemoUsers.alice_row (Users.users DemoUsers.db)
  /\ DemoUsers.verify_password "wrong"
       (Users.hashed_password DemoUsers.alice_row) = Users.Done false
  /\ login DemoUsers.jwt_encode DemoUsers.verify_password DemoUsers.now
       "alice" "wrong" DemoUsers.db
     = (Users.Failed (Users.Exn (HTTPException 401 "Invalid credentials")),
        DemoUsers.db).
Proof.
  split; [exact demo_users_wf|]. split; [exact alice_in_users|].
  split; [reflexivity|].
  destruct (login_rejects_bad_credentials DemoUsers.jwt_encode
              DemoUsers.verify_password DemoUsers.now "alice" "wrong"
              DemoUsers.db) as [_ H].
  exact (H demo_users_wf DemoUsers.alice_row alice_in_users eq_refl eq_refl).
Defined.

Lemma login_token_acts_for_user_witness :
  Users.wf DemoUsers.db
  /\ In DemoUsers.alice_row (Users.users DemoUsers.db)
  /\ DemoUsers.verify_password "correct horse"
       (Users.hashed_password DemoUsers.alice_row) = Users.Done true
  /\ datetime_add DemoUsers.now (timedelta_minutes 30)
     = Ok 1700001800000000
  /\ DemoUsers.jwt_decode (DemoUsers.jwt_encode DemoUsers.alice_claims)
     = Some DemoUsers.alice_claims
  /\ login DemoUsers.jwt_encode DemoUsers.verify_password DemoUsers.now
       "alice" "correct horse" DemoUsers.db
     = (Users.Done (mkToken "alice.signed" "bearer"), DemoUsers.db)
  /\ identifies DemoUsers.jwt_decode "alice.signed" 1.
Proof.
  split; [exact demo_users_wf|]. split; [exact alice_in_users|].
  split; [reflexivity|]. split; [reflexivity|]. split; [reflexivity|].
  destruct (login_token_acts_for_user DemoUsers.jwt_encode
              DemoUsers.jwt_decode DemoUsers.verify_password DemoUsers.now
              "alice" "correct horse" DemoUsers.db DemoUsers.alice_row
              1700001800000000 demo_users_wf alice_in_users eq_refl eq_refl
              eq_refl eq_refl) as (H1 & H2 & _).
  split; [exact H1 | exact H2].
Defined.

Lemma register_keeps_user_whatever_the_mail_witness :
  Users.wf DemoUsers.empty_db
  /\ DemoUsers.mail_down "alice@example.com" 1 = Users.Done false
  /\ fst (register DemoUsers.get_password_hash DemoUsers.mail_down "s1"
            DemoUsers.alice DemoUsers.empty_db)
     = Users.Done DemoUsers.alice_row.
Proof.
  assert (Hwf : Users.wf DemoUsers.empty_db)
    by (repeat split; constructor).
  split; [exact Hwf|]. split; [reflexivity|].
  destruct (register_keeps_user_whatever_the_mail
              DemoUsers.get_password_hash DemoUsers.mail_down "s1"
              DemoUsers.alice DemoUsers.empty_db Hwf
              (fun _ (H : False) => match H with end)
              (fun _ (H : False) => match H with end)) as (_ & H & _).
  exact (H false eq_refl).
Defined.

Lemma password_length_bounds_witness :
  Forall (fun c => 0 <= c < 128) [104; 117; 110; 116; 101; 114; 50]
  /\ password_length [104; 117; 110; 116; 101; 114; 50]
     = Ok [104; 117; 110; 116; 101; 114; 50].
Proof.
  assert (Ha : Forall (fun c => 0 <= c < 128)
                 [104; 117; 110; 116; 101; 114; 50])
    by (repeat constructor; lia).
  split; [exact Ha|].
  destruct (password_length_bounds [104; 117; 110; 116; 101; 114; 50])
    as (_ & _ & _ & _ & H).
  apply (H Ha). cbn. lia.
Defined.

Lemma search_route_is_shadowed_witness :
  "42" <> "" /\ dispatch GET ["contacts"; "42"] = Handled read_contact.
Proof.
  assert (Hne : "42" <> "") by discriminate.
  split; [exact Hne|].
  destruct search_route_is_shadowed as (_ & H & _). exact (H "42" Hne).
Defined.
